(** * listbraids: positive braid words of a fixed genus

    A shallow embedding of [lb.C], the depth-first enumeration of positive
    braid words together with the Dowker-Thistlethwaite codes of their
    closures, and the properties of the search that follow from the code.

    Conventions of the embedding.
    - A C++ [int] is a [Z], and the arithmetic is the one of [Z]: it is the
      one of the source as long as no operation leaves the range of [int],
      where the source has undefined behaviour.  The integers of the search
      are small: the word of [listBraids(maxB1)] has at most [2 maxB1 + 2]
      letters, each at most [maxB1 + 3] ([reachable_bounds]).  The two
      subtractions of [completable] stay within [int] during a run for the
      bounds from [INT_MIN + 4] to [INT_MAX - 4]
      ([tested_subtractions_in_int]); below [INT_MIN + 4] they overflow on
      the first word.  The number read by [atoi] and the product [2 * g] of
      [main] are those of the source when they are within [int].  The
      theorems on what a run prints, or on the absence of undefined
      behaviour, carry a hypothesis on the bound, [INT_MIN + 4 <= maxB1] or
      [safe_bound], under which these operations are those of the
      source.
    - A [std::vector<int>] is a [list Z]; an iterator is the index it points
      at.
    - A checked access [v.at(i)] outside of the vector throws
      [std::out_of_range]; nothing in the program catches it.  A raw iterator
      dereference, [back()] or [pop_back()] outside of the vector is
      undefined.  Both are explicit results of the model ([OutOfRange],
      [Undefined]).
    - The [while] and [do ... while] loops are run with a fuel; running out of
      it is the result [OutOfFuel].  The loops of [numberOfComponents] and
      [printDT] get a fuel that is enough on every word of positive letters
      ([numberOfComponents_cycles], [printDT_total]); the fuel of the loop of
      [listBraids] is a parameter. *)

From Stdlib Require Import String Ascii DecimalString.
From Stdlib Require Import ZArith List Lia Bool Arith Permutation FinFun Sorted.
Import ListNotations.
Open Scope Z_scope.

Set Implicit Arguments.

(** ** Results of fallible code *)

Inductive error : Type :=
| OutOfRange   (* std::out_of_range thrown by at() *)
| Undefined    (* behaviour the language leaves undefined *)
| OutOfFuel.   (* loop bound of the model exhausted *)

Inductive result (A : Type) : Type :=
| Ok (a : A)
| Err (e : error).

Arguments Ok {A} a.
Arguments Err {A} e.

Definition bind {A B : Type} (m : result A) (k : A -> result B) : result B :=
  match m with
  | Ok a => k a
  | Err e => Err e
  end.

Notation "x <- m ;; k" := (bind m (fun x => k))
  (at level 61, m at next level, right associativity).
Notation "' pat <- m ;; k" := (bind m (fun x => match x with pat => k end))
  (at level 61, pat pattern, m at next level, right associativity).

(** ** Vectors *)

Definition size {A : Type} (v : list A) : Z := Z.of_nat (length v).

Definition in_range {A : Type} (v : list A) (i : Z) : bool :=
  (0 <=? i) && (i <? size v).

(** [v.at(i)], read. *)
Definition at_get {A : Type} (d : A) (v : list A) (i : Z) : result A :=
  if in_range v i then Ok (nth (Z.to_nat i) v d) else Err OutOfRange.

Fixpoint update {A : Type} (v : list A) (n : nat) (x : A) : list A :=
  match v, n with
  | [], _ => []
  | _ :: t, O => x :: t
  | y :: t, S m => y :: update t m x
  end.

(** [v.at(i) = x]. *)
Definition at_set {A : Type} (v : list A) (i : Z) (x : A) : result (list A) :=
  if in_range v i then Ok (update v (Z.to_nat i) x) else Err OutOfRange.

(** [*i], read, for an iterator at index [i]. *)
Definition deref (v : list Z) (i : Z) : result Z :=
  if in_range v i then Ok (nth (Z.to_nat i) v 0) else Err Undefined.

(** [*i = x]. *)
Definition store (v : list Z) (i : Z) (x : Z) : result (list Z) :=
  if in_range v i then Ok (update v (Z.to_nat i) x) else Err Undefined.

(** [b.back()]. *)
Definition back (b : list Z) : result Z :=
  match b with
  | [] => Err Undefined
  | _ => Ok (last b 0)
  end.

(** [b.pop_back()]. *)
Definition pop_back (b : list Z) : result (list Z) :=
  match b with
  | [] => Err Undefined
  | _ => Ok (removelast b)
  end.

(** [b.back() += 1]. *)
Definition back_incr (b : list Z) : result (list Z) :=
  x <- back b ;;
  Ok (removelast b ++ [x + 1]).

(** ** Braid invariants *)

(** [int max(const std::vector<int> &b)]: the largest letter, at least 1. *)
Definition max (b : list Z) : Z :=
  fold_left (fun result x => if x >? result then x else result) b 1.

(** [int sum(const std::vector<int> &b)]. *)
Definition sum (b : list Z) : Z :=
  fold_left (fun result x => result + x) b 0.

(** [*std::max_element(first, last)] on the elements [l] of the range. *)
Definition max_element (l : list Z) : result Z :=
  match l with
  | [] => Err Undefined
  | x :: t => Ok (fold_left (fun largest y => if largest <? y then y else largest) t x)
  end.

(** [bool lastLetterTooHigh(const std::vector<int> &b, int maxB1)].  The bound
    [maxB1] is not used by the body. *)
Definition lastLetterTooHigh (b : list Z) (maxB1 : Z) : result bool :=
  if size b <? 2 then Ok false
  else
    x <- back b ;;
    m <- max_element (removelast b) ;;
    Ok (x >? 1 + m).

(** The inner [for] of [numberOfComponents]: one strand followed through the
    whole word. *)
Definition walk (b : list Z) (currentPos : Z) : Z :=
  fold_left
    (fun p j => if j =? p then p + 1 else if j =? p - 1 then p - 1 else p)
    b currentPos.

(** [while ( *i == 0) { ... }] of [numberOfComponents].  Each iteration
    labels an entry that was 0. *)
Fixpoint label_loop (fuel : nat) (b : list Z) (compCounter : Z)
    (compNumber : list Z) (i : Z) : result (list Z * Z) :=
  match fuel with
  | O => Err OutOfFuel
  | S f =>
      x <- deref compNumber i ;;
      if x =? 0 then
        cn <- store compNumber i compCounter ;;
        let currentPos := walk b (i + 1) in
        label_loop f b compCounter cn (currentPos - 1)
      else Ok (compNumber, i)
  end.

(** [for (; (i != compNumber.end()) && ( *i != 0); ++i);] *)
Fixpoint scan (fuel : nat) (compNumber : list Z) (i : Z) : result Z :=
  match fuel with
  | O => Err OutOfFuel
  | S f =>
      if i =? size compNumber then Ok i
      else
        x <- deref compNumber i ;;
        if x =? 0 then Ok i else scan f compNumber (i + 1)
  end.

(** [while (i != compNumber.end()) { ... }] of [numberOfComponents]. *)
Fixpoint comp_loop (fuel : nat) (b : list Z) (compNumber : list Z) (i : Z)
    (compCounter : Z) : result Z :=
  match fuel with
  | O => Err OutOfFuel
  | S f =>
      if i =? size compNumber then Ok compCounter
      else
        let compCounter := compCounter + 1 in
        ' (cn, i1) <- label_loop (S (length compNumber)) b compCounter compNumber i ;;
        i2 <- scan (S (length cn)) cn i1 ;;
        comp_loop f b cn i2 compCounter
  end.

(** [int numberOfComponents(const std::vector<int> &b)]. *)
Definition numberOfComponents (b : list Z) : result Z :=
  match b with
  | [] => Ok 0
  | _ =>
      let compNumber := repeat 0 (Z.to_nat (max b + 1)) in
      comp_loop (S (length compNumber)) b compNumber 0 0
  end.

(** [int b1(const std::vector<int> &b)].  The source computes
    [1 + b.size() - (max(b) + 1)] in [size_t] and converts it to [int]: the
    value below, as long as it fits in an [int]. *)
Definition b1 (b : list Z) : Z := 1 + size b - (max b + 1).

(** The inner [for] of [missingCrossingsForPrimality]: the twist regions of
    the columns [i] and [i + 1], from the state [(last, twistRegions)]. *)
Definition twist_scan (i : Z) (b : list Z) (st : Z * Z) : Z * Z :=
  fold_left
    (fun '(last, twistRegions) j =>
       if ((j =? i) || (j =? i + 1)) && negb (j =? last)
       then (j, twistRegions + 1)
       else (last, twistRegions))
    b st.

Definition twistRegions (i : Z) (b : list Z) : Z := snd (twist_scan i b (-1, 0)).

(** The body of the outer [for] of [missingCrossingsForPrimality]. *)
Definition missing_step (b : list Z) (missingCrossings : list Z) (i : Z)
    : result (list Z) :=
  let t := twistRegions i b in
  mc1 <-
    (if t =? 2 then
       x <- at_get 0 missingCrossings (i - 1) ;;
       if x =? 0 then at_set missingCrossings (i - 1) 1 else Ok missingCrossings
     else Ok missingCrossings) ;;
  (if t <? 4 then
     x <- at_get 0 mc1 i ;;
     if x =? 0 then at_set mc1 i 1 else Ok mc1
   else Ok mc1).

(** [for (int i = 1; i < columns; ++i)], on the indices [idx]. *)
Fixpoint missing_loop (b : list Z) (missingCrossings : list Z) (idx : list Z)
    : result (list Z) :=
  match idx with
  | [] => Ok missingCrossings
  | i :: rest =>
      mc <- missing_step b missingCrossings i ;;
      missing_loop b mc rest
  end.

(** The integers [lo, lo + 1, ..., lo + n - 1]. *)
Definition zrange (lo : Z) (n : nat) : list Z :=
  map (fun k => lo + Z.of_nat k) (seq 0 n).

(** [int missingCrossingsForPrimality(const std::vector<int> &b)], with
    [debug = false]. *)
Definition missingCrossingsForPrimality (b : list Z) : result Z :=
  let columns := max b in
  let missingCrossings := repeat 0 (Z.to_nat columns) in
  mc <- missing_loop b missingCrossings (zrange 1 (Z.to_nat (columns - 1))) ;;
  Ok (sum mc).

(** [std::lexicographical_compare(first1, last1, first2, last2)]. *)
Fixpoint lexicographical_compare (l1 l2 : list Z) : bool :=
  match l1, l2 with
  | x :: t1, y :: t2 =>
      if x <? y then true
      else if y <? x then false
      else lexicographical_compare t1 t2
  | [], _ :: _ => true
  | _, [] => false
  end.

(** [bool lexicoGood(const std::vector<int> &b)]: no suffix is smaller than
    the prefix of its length.  On the empty vector the iterator starts past
    the end. *)
Definition lexicoGood (b : list Z) : result bool :=
  match b with
  | [] => Err Undefined
  | _ =>
      Ok (forallb
            (fun i => negb (lexicographical_compare
                              (skipn i b) (firstn (length b - i) b)))
            (seq 1 (length b - 1)))
  end.

(** [while ((i != b.rend()) && (( *i < s - 1) || ( *i > s + 1))) i += 1;] on
    the remaining letters, last one first. *)
Fixpoint skip_far (s : Z) (r : list Z) : list Z :=
  match r with
  | [] => []
  | x :: t => if (x <? s - 1) || (x >? s + 1) then skip_far s t else r
  end.

(** [bool reidemeister(const std::vector<int> &b)]. *)
Definition reidemeister (b : list Z) : result bool :=
  match rev b with
  | [] => Err Undefined
  | s :: r =>
      match skip_far s r with
      | [] => Ok true
      | x :: r1 =>
          if (x =? s) || (x =? s + 1) then Ok true
          else
            match skip_far s r1 with
            | [] => Ok true
            | y :: _ => Ok ((y =? s - 1) || (y =? s + 1))
            end
      end
  end.

Definition Z_of_bool (c : bool) : Z := if c then 1 else 0.

(** [int completable(const std::vector<int> &b, int maxB1)].  The two
    subtractions are those of [Z]: they are the ones of the source when
    [maxB1 - b1 b] and [n - (maxB1 - b1 b)] are within [int]
    ([tested_subtractions_in_int]). *)
Definition completable (b : list Z) (maxB1 : Z) : result Z :=
  n <- numberOfComponents b ;;
  m <- missingCrossingsForPrimality b ;;
  l <- lexicoGood b ;;
  r <- reidemeister b ;;
  Ok (Z_of_bool (n - (maxB1 - b1 b) <=? 1)
      + 2 * Z_of_bool (m <=? maxB1 - b1 b)
      + 4 * Z_of_bool l
      + 8 * Z_of_bool r).

(** [void appendLetter(std::vector<int> &b)]. *)
Definition appendLetter (b : list Z) : result (list Z) :=
  x <- back b ;;
  Ok (b ++ [if x =? 1 then 1 else x - 1]).

(** ** Output *)

(** [void printBraid(b, s, newline)]: the letters, [1] as [a], [2] as [b],
    and so on; the text sent to [s] before the optional newline. *)
Definition letter (x : Z) : ascii := ascii_of_N (Z.to_N ((x + 96) mod 256)).

Definition printBraid (b : list Z) : string :=
  fold_right (fun x s => String (letter x) s) EmptyString b.

(** What [listBraids] writes to [std::cout]. *)
Inductive output : Type :=
| OutBraid (text : string)
    (* printBraid(braid, std::cout, false): the letters, no newline *)
| OutDT (n : Z) (counter : Z) (dt : list Z).
    (* ": " n " " counter, then " " d for each entry d of dt, then "\n" *)

(** ** DT codes *)

(** [class intpair]. *)
Record intpair : Type := { o : Z; e : Z; s : bool }.

Definition intpair0 : intpair := {| o := 0; e := 0; s := false |}.

Definition set_o (p : intpair) (x : Z) : intpair := {| o := x; e := e p; s := s p |}.
Definition set_e (p : intpair) (x : Z) : intpair := {| o := o p; e := x; s := s p |}.
Definition set_s (p : intpair) (x : bool) : intpair := {| o := o p; e := e p; s := x |}.

(** The variables of the traversal of [printDT]. *)
Record dt_state : Type := { dt_n : list intpair; dt_c : Z; dt_crossingCounter : Z }.

(** The body of the [for] of [printDT], at the letter [x] of index [k]. *)
Definition dt_visit (k : Z) (x : Z) (st : dt_state) : result dt_state :=
  let c := dt_c st in
  let crossingCounter := dt_crossingCounter st in
  if (x =? c) || (x =? c + 1) then
    let odd := negb (Z.rem crossingCounter 2 =? 0) in
    p <- at_get intpair0 (dt_n st) k ;;
    n1 <- at_set (dt_n st) k
            (if odd then set_o p crossingCounter else set_e p crossingCounter) ;;
    p1 <- at_get intpair0 n1 k ;;
    n2 <- at_set n1 k (set_s p1 (Bool.eqb (negb odd) (negb (x =? c + 1)))) ;;
    Ok {| dt_n := n2;
          dt_c := if x =? c + 1 then c + 1 else c - 1;
          dt_crossingCounter := crossingCounter + 1 |}
  else Ok st.

(** One pass of the [for] of [printDT] over the letters [v], the first of
    them of index [k]. *)
Fixpoint dt_pass (k : Z) (v : list Z) (st : dt_state) : result dt_state :=
  match v with
  | [] => Ok st
  | x :: t =>
      st1 <- dt_visit k x st ;;
      dt_pass (k + 1) t st1
  end.

(** [do { ... ++passed; } while (c != 0);] *)
Fixpoint dt_loop (fuel : nat) (v : list Z) (st : dt_state) (passed : Z)
    : result (dt_state * Z) :=
  match fuel with
  | O => Err OutOfFuel
  | S f =>
      st1 <- dt_pass 0 v st ;;
      let passed := passed + 1 in
      if dt_c st1 =? 0 then Ok (st1, passed) else dt_loop f v st1 passed
  end.

(** [std::sort(n.begin(), n.end())] with [intpair::operator<]: by the odd
    label.  The odd labels of a printed word are pairwise different, so that
    the result does not depend on the sorting algorithm
    ([sorted_table_unique]). *)
Fixpoint insert_sorted (p : intpair) (l : list intpair) : list intpair :=
  match l with
  | [] => [p]
  | q :: t => if o q <=? o p then q :: insert_sorted p t else p :: l
  end.

Definition sort (l : list intpair) : list intpair :=
  fold_right insert_sorted [] l.

(** The entry of the DT code of one crossing: [i->e * (i->s ? 1 : -1)]. *)
Definition dt_entry (p : intpair) : Z := e p * (if s p then 1 else -1).

(** The traversal of [printDT]: the table [n] and the number of passes at
    the exit of the [do ... while], which is run for at most as many passes
    as there are strands. *)
Definition dt_traverse (v : list Z) : result (dt_state * Z) :=
  let n := repeat intpair0 (length v) in
  dt_loop (Z.to_nat (max v + 1)) v
    {| dt_n := n; dt_c := 0; dt_crossingCounter := 1 |} 0.

(** [bool printDT(const std::vector<int> &v, int counter)]: the value returned
    and what was written to [std::cout]. *)
Definition printDT (v : list Z) (counter : Z) : result (bool * list output) :=
  let maxGen := max v - 1 in
  ' (st, passed) <- dt_traverse v ;;
  if negb (passed =? maxGen + 2) then Ok (false, [])
  else
    let dt := map dt_entry (sort (dt_n st)) in
    Ok (true, [OutDT (size dt) counter dt]).

(** ** The search *)

(** The variables of [listBraids], and [std::cout]. *)
Record state : Type := { braid : list Z; counter : Z; cout : list output }.

(** The four transitions of an iteration of the loop of [listBraids]. *)
Inductive transition : Type := PopBack | Increase | Append | Print.

(** The tests of an iteration, in the order of the source, and the
    transition that they select. *)
Definition choose (b : list Z) (maxB1 : Z) : result transition :=
  high <- lastLetterTooHigh b maxB1 ;;
  if high then Ok PopBack
  else
    c <- completable b maxB1 ;;
    if negb (c =? 15) then Ok Increase
    else if b1 b <? maxB1 then Ok Append
    else Ok Print.

(** The body of the [while] of [listBraids], with [debug = false]. *)
Definition step (maxB1 : Z) (st : state) : result state :=
  t <- choose (braid st) maxB1 ;;
  match t with
  | PopBack =>
      w1 <- pop_back (braid st) ;;
      w2 <- back_incr w1 ;;
      Ok {| braid := w2; counter := counter st; cout := cout st |}
  | Increase =>
      w1 <- back_incr (braid st) ;;
      Ok {| braid := w1; counter := counter st; cout := cout st |}
  | Append =>
      w1 <- appendLetter (braid st) ;;
      Ok {| braid := w1; counter := counter st; cout := cout st |}
  | Print =>
      let counter := counter st + 1 in
      ' (_, line) <- printDT (braid st) counter ;;
      w1 <- back_incr (braid st) ;;
      Ok {| braid := w1; counter := counter;
            cout := cout st ++ [OutBraid (printBraid (braid st))] ++ line |}
  end.

(** [while (braid.size() > 1) { ... }] *)
Fixpoint search (fuel : nat) (maxB1 : Z) (st : state) : result state :=
  match fuel with
  | O => Err OutOfFuel
  | S f =>
      if size (braid st) >? 1 then
        st1 <- step maxB1 st ;;
        search f maxB1 st1
      else Ok st
  end.

Definition seed : state := {| braid := [1; 1]; counter := 0; cout := [] |}.

(** [void listBraids(int maxB1)]: the final variables and output. *)
Definition listBraids (fuel : nat) (maxB1 : Z) : result state :=
  search fuel maxB1 seed.

(** ** The command line *)

Definition isspace (c : ascii) : bool :=
  let n := N_of_ascii c in ((n =? 32) || ((9 <=? n) && (n <=? 13)))%N.

Definition isdigit (c : ascii) : bool :=
  let n := N_of_ascii c in ((48 <=? n) && (n <=? 57))%N.

Fixpoint skip_space (t : string) : string :=
  match t with
  | String c r => if isspace c then skip_space r else t
  | EmptyString => t
  end.

Fixpoint digits (t : string) (acc : Z) : Z :=
  match t with
  | String c r =>
      if isdigit c then digits r (10 * acc + (Z.of_N (N_of_ascii c) - 48))
      else acc
  | EmptyString => acc
  end.

(** [atoi]: white space, an optional sign, decimal digits;
    [0] when there is no digit.  The number is the one that the digits
    write: it is the result of the source when it is within [int]. *)
Definition atoi (t : string) : Z :=
  match skip_space t with
  | String "-" r => - digits r 0
  | String "+" r => digits r 0
  | r => digits r 0
  end.

Definition newline : string := String "010" EmptyString.

Definition string_of_Z (z : Z) : string :=
  DecimalString.NilZero.string_of_int (Z.to_int z).

(** What a run of the program does: the value returned by [main], the text
    written to [std::cerr], the arguments of its calls of [listBraids], and
    what was written to [std::cout]. *)
Record process : Type :=
  { exit_code : Z; cerr : string; calls : list Z; stdout : list output }.

(** [int main(int argc, char** argv)], with [argc] the length of [argv].
    The product [2 * g] is the one of [Z]: it is the one of the source
    when it is within [int]. *)
Definition main (fuel : nat) (argv : list string) : result process :=
  if size argv =? 2 then
    let g := atoi (nth 1 argv EmptyString) in
    st <- listBraids fuel (2 * g) ;;
    Ok {| exit_code := 0;
          cerr := ("Working on genus " ++ string_of_Z g ++ "." ++ newline)%string;
          calls := [2 * g];
          stdout := cout st |}
  else
    Ok {| exit_code := 0;
          cerr := ("One positive integer as parameter required." ++ newline)%string;
          calls := [];
          stdout := [] |}.

(** ** Runs of the search *)

(** The values of the variables at the head of the loop of [listBraids]. *)
Inductive reachable (maxB1 : Z) : state -> Prop :=
| reach_seed : reachable maxB1 seed
| reach_step st st1 :
    reachable maxB1 st ->
    size (braid st) > 1 ->
    step maxB1 st = Ok st1 ->
    reachable maxB1 st1.

(** The word [w] is printed by [listBraids(maxB1)]: an iteration of the loop
    starts with it and takes the last transition. *)
Definition emitted (maxB1 : Z) (w : list Z) : Prop :=
  exists st,
    reachable maxB1 st /\ braid st = w /\ size w > 1 /\
    choose w maxB1 = Ok Print.

(** [n] iterations of the loop. *)
Fixpoint iterate (n : nat) (maxB1 : Z) (st : state) : result state :=
  match n with
  | O => Ok st
  | S m =>
      if size (braid st) >? 1 then
        st1 <- step maxB1 st ;;
        iterate m maxB1 st1
      else Err Undefined
  end.

(** The rotation of [w] that starts at its letter of index [i]. *)
Definition rotation (i : nat) (w : list Z) : list Z := skipn i w ++ firstn i w.

(** [w] is lexicographically at most each of its rotations. *)
Definition minimal_rotation (w : list Z) : bool :=
  forallb (fun i => negb (lexicographical_compare (rotation i w) w))
          (seq 0 (length w)).

(** A word of the search: not empty, of letters that are at least 1. *)
Definition positive (w : list Z) : Prop := Forall (fun x => 1 <= x) w.

Definition wellformed (w : list Z) : Prop := w <> [] /\ positive w.

(** The values taken by the variable [braid] during [listBraids(maxB1)]: at
    the head of the loop, which is before and after each transition, and
    between the two statements of the first transition. *)
Inductive visited (maxB1 : Z) : list Z -> Prop :=
| visited_head st :
    reachable maxB1 st -> visited maxB1 (braid st)
| visited_popped st w :
    reachable maxB1 st ->
    size (braid st) > 1 ->
    choose (braid st) maxB1 = Ok PopBack ->
    pop_back (braid st) = Ok w ->
    visited maxB1 w.

(** ** Finite runs *)

(** The states at the head of the loop during at most [n] iterations. *)
Fixpoint orbit (n : nat) (maxB1 : Z) (st : state) : list state :=
  st ::
  match n with
  | O => []
  | S m =>
      if size (braid st) >? 1 then
        match step maxB1 st with
        | Ok st1 => orbit m maxB1 st1
        | Err _ => []
        end
      else []
  end.

Definition output_eq_dec (x y : output) : {x = y} + {x <> y}.
Proof.
  decide equality;
    first [apply Z.eq_dec | apply string_dec | apply (list_eq_dec Z.eq_dec)].
Defined.

Definition state_eq_dec (x y : state) : {x = y} + {x <> y}.
Proof.
  decide equality;
    first [apply Z.eq_dec | apply (list_eq_dec Z.eq_dec)
          | apply (list_eq_dec output_eq_dec)].
Defined.

Definition mem_state (st : state) (l : list state) : bool :=
  existsb (fun x => if state_eq_dec st x then true else false) l.

(** [l] holds the seed and the successor of each of its states. *)
Definition closed (maxB1 : Z) (l : list state) : bool :=
  mem_state seed l &&
  forallb
    (fun st =>
       if size (braid st) >? 1 then
         match step maxB1 st with
         | Ok st1 => mem_state st1 l
         | Err _ => true
         end
       else true)
    l.

Definition word_eqb (u v : list Z) : bool :=
  if list_eq_dec Z.eq_dec u v then true else false.

(** The words of [l] at which the last transition is taken. *)
Definition printed (maxB1 : Z) (l : list state) : list (list Z) :=
  map braid
    (filter
       (fun st =>
          (size (braid st) >? 1) &&
          match choose (braid st) maxB1 with
          | Ok Print => true
          | _ => false
          end)
       l).


Definition usage : string :=
  ("One positive integer as parameter required." ++ newline)%string.

(** [max], from the value [a] of its variable [result]. *)
Definition max_from (b : list Z) (a : Z) : Z :=
  fold_left (fun result x => if x >? result then x else result) b a.

(** ** The vector of [missingCrossingsForPrimality] *)

(** The entry of index [j] of [missingCrossings] after the iterations
    [1, ..., i] of the outer loop. *)
Definition missing_entry (b : list Z) (i j : Z) : Z :=
  if ((1 <=? j) && (j <=? i) && (twistRegions j b <? 4))
     || ((j + 1 <=? i) && (twistRegions (j + 1) b =? 2))
  then 1 else 0.

Definition missing_vector (b : list Z) (i : Z) : list Z :=
  map (missing_entry b i) (zrange 0 (Z.to_nat (max b))).

(** The number of letters [x] of [b]. *)
Definition occurrences (x : Z) (b : list Z) : Z :=
  Z.of_nat (count_occ Z.eq_dec b x).

(** ** The permutation of the strands *)

(** The position, after the crossing [x], of the strand that was at the
    position [p]: the body of the inner [for] of [numberOfComponents]. *)
Definition cross (x p : Z) : Z :=
  if x =? p then p + 1 else if x =? p - 1 then p - 1 else p.

(** The position of the strand that starts at [p], after [t] turns around
    the closed braid. *)
Definition turns (b : list Z) (t : nat) (p : Z) : Z := Nat.iter t (walk b) p.

(** [p] is the least position of its cycle. *)
Definition orbit_minimal (b : list Z) (p : Z) : bool :=
  forallb (fun t => p <=? turns b t p) (seq 0 (Z.to_nat (max b + 1))).

(** Following the specification, the number of components of [b]: the
    number of cycles of the permutation induced by [b] on the positions
    [1, ..., max b + 1].  Each cycle is counted at its least position
    ([cycle_has_one_least]). *)
Definition cycles (b : list Z) : Z :=
  size (filter (orbit_minimal b) (zrange 1 (Z.to_nat (max b + 1)))).

(** [q] is a position of the strand that starts at [p]. *)
Definition same_cycle (b : list Z) (p q : Z) : Prop := exists t, turns b t p = q.

(** The number of least positions of cycles among [1, ..., i]. *)
Definition minimal_upto (b : list Z) (i : Z) : Z :=
  size (filter (orbit_minimal b) (zrange 1 (Z.to_nat i))).

(** The entry of [compNumber] for the position [p]. *)
Definition label (compNumber : list Z) (p : Z) : Z :=
  nth (Z.to_nat (p - 1)) compNumber 0.

(** The first [t] positions of the strand that starts at [p]. *)
Definition track (b : list Z) (p : Z) (t : nat) : list Z :=
  map (fun k => turns b k p) (seq 0 t).

(** The state of the outer loop of [numberOfComponents] at its head: the
    positions up to [i] are labelled, the next one is not, the labelled
    positions are the cycles that meet [1, ..., i], and [compCounter] is the
    number of these cycles. *)
Record components_invariant (b compNumber : list Z) (i compCounter : Z) : Prop :=
  { ci_size : size compNumber = max b + 1;
    ci_index : 0 <= i <= max b + 1;
    ci_labelled : forall p, 1 <= p <= i -> label compNumber p <> 0;
    ci_next : i < max b + 1 -> label compNumber (i + 1) = 0;
    ci_saturated :
      forall p q, 1 <= p <= max b + 1 -> same_cycle b p q ->
                  label compNumber p = 0 -> label compNumber q = 0;
    ci_origin :
      forall q, 1 <= q <= max b + 1 -> label compNumber q <> 0 ->
                exists p, 1 <= p <= i /\ same_cycle b p q;
    ci_counter : compCounter = minimal_upto b i }.

(** ** The traversal of [printDT], pass by pass *)

(** The position, counted from 1, of the traversal of [w] at the letter of
    index [k] of its pass of index [t]: the value of [c + 1]. *)
Definition pos (w : list Z) (t k : nat) : Z :=
  walk (firstn k w) (turns w t 1).

(** The pass of index [t] takes the crossing of the letter of index [k]. *)
Definition visitb (w : list Z) (t k : nat) : bool :=
  (nth k w 0 =? pos w t k - 1) || (nth k w 0 =? pos w t k).

(** The number of passes, among the first [m], that take the crossing of
    the letter of index [k]. *)
Definition col_visits (w : list Z) (k m : nat) : Z :=
  size (filter (fun t => visitb w t k) (seq 0 m)).

(** The number of crossings taken before the letter of index [j] of the
    pass of index [t]. *)
Definition visits_before (w : list Z) (t j : nat) : Z :=
  sum (map (fun k => col_visits w k (if (k <? j)%nat then S t else t))
         (seq 0 (length w))).

(** The label of parity [par] of a crossing: its even label [e] for [true],
    its odd label [o] for [false]. *)
Definition slot (par : bool) (p : intpair) : Z := if par then e p else o p.

(** The label of parity [par] of the crossing of index [k]. *)
Definition slot_label (par : bool) (n : list intpair) (k : nat) : Z :=
  slot par (nth k n intpair0).

(** The variables of [printDT] at the letter of index [j] of the pass of
    index [t]. *)
Record dt_invariant (w : list Z) (t j : nat) (st : dt_state) : Prop :=
  { dti_length : length (dt_n st) = length w;
    dti_c : dt_c st + 1 = pos w t j;
    dti_counter : dt_crossingCounter st = 1 + visits_before w t j;
    dti_parity : Z.even (dt_crossingCounter st) = Z.even (dt_c st + 1);
    dti_slot :
      forall par k, (k < length w)%nat ->
        slot_label par (dt_n st) k = 0 \/
        (Z.even (slot_label par (dt_n st) k) = par /\
         1 <= slot_label par (dt_n st) k < dt_crossingCounter st);
    dti_distinct :
      forall par k k', (k < length w)%nat -> (k' < length w)%nat -> k <> k' ->
        slot_label par (dt_n st) k <> 0 ->
        slot_label par (dt_n st) k <> slot_label par (dt_n st) k';
    dti_done :
      forall par k t', (k < length w)%nat ->
        (t' < (if (k <? j)%nat then S t else t))%nat ->
        visitb w t' k = true -> Z.even (pos w t' k) = par ->
        slot_label par (dt_n st) k <> 0 }.

(** Each generator up to the largest one occurs in [w]. *)
Definition covering (w : list Z) : Prop :=
  forall x, 1 <= x <= max w -> In x w.

(** The letters of the word before its last one, during the search: a word
    in which each generator occurs, of bounded length. *)
Definition prefix_ok (maxB1 : Z) (init : list Z) : Prop :=
  init <> [] /\ positive init /\ covering init /\ size init <= 2 * maxB1 + 1.

(** The positions of the passes of the traversal of [w] at the letter of
    index [k]. *)
Definition column (w : list Z) (k : nat) : list Z :=
  map (fun t => pos w t k) (seq 0 (Z.to_nat (max w + 1))).

(** The words to which the search has appended a letter: each of their
    letters after the first was accepted by the tests of an iteration. *)
Inductive committed (maxB1 : Z) : list Z -> Prop :=
| committed_seed : committed maxB1 [1]
| committed_snoc init x :
    committed maxB1 init ->
    1 <= x <= 1 + max init ->
    completable (init ++ [x]) maxB1 = Ok 15 ->
    b1 (init ++ [x]) < maxB1 ->
    committed maxB1 (init ++ [x]).

(** The order of [std::sort] on the table of [printDT]: [q < p] does not
    hold, for [intpair::operator<]. *)
Definition le_odd (p q : intpair) : Prop := o p <= o q.

(** ** Shapes of the words and of the output *)

(** No letter of [w] is followed by a letter that is smaller by 2 or more. *)
Fixpoint slow_descent (w : list Z) : Prop :=
  match w with
  | x :: (y :: _) as t => x - 1 <= y /\ slow_descent t
  | _ => True
  end.

(** The lines written for the words [ws] and their DT codes, numbered
    from [k]: what the last transition of [listBraids] sends to
    [std::cout]. *)
Fixpoint lines (k : Z) (ws : list (list Z * list Z)) : list output :=
  match ws with
  | [] => []
  | (w, dt) :: r =>
      OutBraid (printBraid w) :: OutDT (size w) k dt :: lines (k + 1) r
  end.

(** [u] is before [v] in the lexicographic order. *)
Definition lex_lt (u v : list Z) : Prop := lexicographical_compare u v = true.

(** ** The tree of the search *)

(** The letter that [appendLetter] appends to [init]. *)
Definition lowest_child (init : list Z) : Z :=
  if last init 0 =? 1 then 1 else last init 0 - 1.

(** The words below which the search goes: the word [a], and then each
    word obtained from such a word by a letter between the one of
    [appendLetter] and the largest letter plus 1, when it passes the four
    tests and is too short to be printed. *)
Inductive explored (maxB1 : Z) : list Z -> Prop :=
| explored_root : explored maxB1 [1]
| explored_snoc init x :
    explored maxB1 init ->
    lowest_child init <= x <= 1 + max init ->
    completable (init ++ [x]) maxB1 = Ok 15 ->
    b1 (init ++ [x]) < maxB1 ->
    explored maxB1 (init ++ [x]).

(** The signs of the table of [printDT] during the traversal of [w]: a
    crossing that has no label yet has no sign, and the others have the
    sign of their generator. *)
Definition sign_invariant (w : list Z) (st : dt_state) : Prop :=
  length (dt_n st) = length w /\
  1 <= dt_crossingCounter st /\
  Z.even (dt_crossingCounter st) = Z.even (dt_c st + 1) /\
  forall k, (k < length w)%nat ->
    nth k (dt_n st) intpair0 = intpair0 \/
    s (nth k (dt_n st) intpair0) = Z.odd (nth k w 0).

(** The letter [y] does not commute with the letter [s]: the test of the
    two [while] of [reidemeister], negated. *)
Definition near (s y : Z) : bool := negb ((y <? s - 1) || (y >? s + 1)).

(** ** The limits of [int] *)

(** The least and the largest value of an [int] of 32 bits. *)
Definition INT_MIN : Z := -2147483648.
Definition INT_MAX : Z := 2147483647.

(** [z] is a value of the type [int]. *)
Definition in_int (z : Z) : Prop := INT_MIN <= z <= INT_MAX.

(** The bounds [maxB1] at which the two subtractions of [completable] stay
    within [int] on every word of [listBraids(maxB1)]
    ([tested_subtractions_in_int]).  Below [INT_MIN + 4] the first call of
    [completable], on the word [aa], overflows. *)
Definition safe_bound (maxB1 : Z) : Prop := INT_MIN + 4 <= maxB1 <= INT_MAX - 4.

(** ** The components of the closure, after the specification *)

(** These definitions follow the words of the specification and do not use
    the code of [numberOfComponents]: [strands(w) = max(w) + 1], and
    [components(w)] is the number of cycles of the permutation of
    [1, ..., strands(w)] induced by composing the transpositions
    [(i, i + 1)] of the letters [i] of [w], in the order of the word. *)

Definition largest_generator (w : list Z) : Z := fold_right Z.max 1 w.

Definition strands (w : list Z) : Z := largest_generator w + 1.

(** The transposition [(i, i + 1)]. *)
Definition transposition (i p : Z) : Z :=
  if p =? i then i + 1 else if p =? i + 1 then i else p.

Definition induced_permutation (w : list Z) (p : Z) : Z :=
  fold_left (fun q i => transposition i q) w p.

(** [q] is on the cycle of [p]. *)
Definition on_cycle (w : list Z) (p q : Z) : Prop :=
  exists t, Nat.iter t (induced_permutation w) p = q.

(** The cycle of [p]: a cycle has at most [strands w] positions. *)
Definition cycle_of (w : list Z) (p : Z) : list Z :=
  map (fun t => Nat.iter t (induced_permutation w) p)
      (seq 0 (Z.to_nat (strands w))).

(** [p] is the least position of its cycle. *)
Definition least_on_cycle (w : list Z) (p : Z) : bool :=
  forallb (fun q => p <=? q) (cycle_of w p).

(** The number of cycles, each counted at its least position
    ([components_one_per_cycle]). *)
Definition components (w : list Z) : Z :=
  size (filter (least_on_cycle w) (zrange 1 (Z.to_nat (strands w)))).

(** * Properties *)

(** ** The result monad *)

Lemma bind_Ok {A B : Type} (m : result A) (k : A -> result B) (y : B) :
  bind m k = Ok y -> exists x, m = Ok x /\ k x = Ok y.
Proof.
  destruct m as [x | err]; simpl; intros H.
  - exists x. split; [reflexivity | exact H].
  - discriminate H.
Qed.

Ltac inv_bind H :=
  let x := fresh "x" in
  let Hm := fresh "Hm" in
  apply bind_Ok in H; destruct H as (x & Hm & H).

(** ** Words and their last letter *)

Lemma snoc_view (b : list Z) : b = [] \/ exists init x, b = init ++ [x].
Proof.
  induction b as [| x init _] using rev_ind; [now left | right].
  now exists init, x.
Qed.

Lemma back_snoc (init : list Z) (x : Z) : back (init ++ [x]) = Ok x.
Proof.
  unfold back. rewrite last_last. now destruct init.
Qed.

Lemma pop_back_snoc (init : list Z) (x : Z) : pop_back (init ++ [x]) = Ok init.
Proof.
  unfold pop_back. rewrite removelast_last. now destruct init.
Qed.

Lemma back_incr_snoc (init : list Z) (x : Z) :
  back_incr (init ++ [x]) = Ok (init ++ [x + 1]).
Proof.
  unfold back_incr. rewrite back_snoc. simpl. now rewrite removelast_last.
Qed.

Lemma appendLetter_snoc (init : list Z) (x : Z) :
  appendLetter (init ++ [x]) =
  Ok ((init ++ [x]) ++ [if x =? 1 then 1 else x - 1]).
Proof.
  unfold appendLetter. now rewrite back_snoc.
Qed.

Lemma size_app {A : Type} (u v : list A) : size (u ++ v) = size u + size v.
Proof.
  unfold size. rewrite length_app. lia.
Qed.

Lemma size_nonneg {A : Type} (u : list A) : 0 <= size u.
Proof.
  unfold size. lia.
Qed.

(** ** The shape of the words of the search *)

Lemma wellformed_snoc (init : list Z) (x : Z) :
  wellformed (init ++ [x]) <-> positive init /\ 1 <= x.
Proof.
  unfold wellformed, positive. rewrite Forall_app. split.
  - intros (_ & Hi & Hx). split; [exact Hi | now inversion Hx].
  - intros (Hi & Hx). split; [now destruct init | split; [exact Hi | now constructor]].
Qed.

Lemma step_wellformed (maxB1 : Z) (st st1 : state) :
  size (braid st) > 1 -> wellformed (braid st) ->
  step maxB1 st = Ok st1 -> wellformed (braid st1).
Proof.
  intros Hsize Hwf Hstep. unfold step in Hstep.
  inv_bind Hstep.
  destruct (snoc_view (braid st)) as [E | (init & y & E)].
  { rewrite E in Hsize. discriminate. }
  rewrite E in *. apply wellformed_snoc in Hwf. destruct Hwf as (Hi & Hy).
  destruct x.
  - rewrite pop_back_snoc in Hstep. simpl in Hstep.
    destruct (snoc_view init) as [E' | (init' & z & E')].
    { subst init. rewrite size_app in Hsize. cbn in Hsize. lia. }
    subst init. rewrite back_incr_snoc in Hstep. simpl in Hstep.
    injection Hstep as <-. simpl.
    apply Forall_app in Hi. destruct Hi as (Hi' & Hz).
    apply wellformed_snoc. split; [exact Hi' | inversion Hz; lia].
  - rewrite back_incr_snoc in Hstep. simpl in Hstep.
    injection Hstep as <-. simpl. apply wellformed_snoc. split; [exact Hi | lia].
  - rewrite appendLetter_snoc in Hstep. simpl in Hstep.
    injection Hstep as <-. simpl. apply wellformed_snoc. split.
    + apply Forall_app. split; [exact Hi | now constructor].
    + destruct (Z.eqb_spec y 1); lia.
  - inv_bind Hstep. destruct x as (ok & line).
    rewrite back_incr_snoc in Hstep. simpl in Hstep.
    injection Hstep as <-. simpl. apply wellformed_snoc. split; [exact Hi | lia].
Qed.

Lemma reachable_wellformed (maxB1 : Z) (st : state) :
  reachable maxB1 st -> wellformed (braid st).
Proof.
  induction 1 as [| st st1 _ IH Hsize Hstep].
  - split; [discriminate | repeat constructor; lia].
  - eapply step_wellformed; eassumption.
Qed.

(** C9: at every point of the search, the braid word is not empty and each
    of its letters is at least 1. *)
Theorem braid_never_empty_and_positive (maxB1 : Z) (w : list Z) :
  visited maxB1 w -> w <> [] /\ Forall (fun x => 1 <= x) w.
Proof.
  intros [st Hr | st w' Hr Hsize _ Hpop].
  - exact (reachable_wellformed Hr).
  - apply reachable_wellformed in Hr.
    destruct (snoc_view (braid st)) as [E | (init & y & E)].
    { rewrite E in Hsize. discriminate. }
    rewrite E in *. rewrite pop_back_snoc in Hpop. injection Hpop as <-.
    apply wellformed_snoc in Hr. destruct Hr as (Hi & _).
    split; [| exact Hi].
    intros ->. rewrite size_app in Hsize. cbn in Hsize. lia.
Qed.

Lemma braid_never_empty_and_positive_witness :
  [1; 1] <> [] /\ Forall (fun x => 1 <= x) [1; 1].
Proof.
  apply (braid_never_empty_and_positive (maxB1 := 2) (w := [1; 1])).
  apply (visited_head (reach_seed 2)).
Defined.

(** ** Finite runs *)

Lemma iterate_reachable (n : nat) (maxB1 : Z) (st st1 : state) :
  reachable maxB1 st -> iterate n maxB1 st = Ok st1 -> reachable maxB1 st1.
Proof.
  revert st. induction n as [| n IH]; simpl; intros st Hr H.
  - injection H as <-. exact Hr.
  - destruct (Z.gtb_spec (size (braid st)) 1) as [Hs | Hs]; [| discriminate].
    inv_bind H. apply (IH x); [| exact H].
    apply reach_step with st; [exact Hr | lia | exact Hm].
Qed.

Lemma mem_state_In (st : state) (l : list state) :
  mem_state st l = true -> In st l.
Proof.
  unfold mem_state. rewrite existsb_exists. intros (x & Hx & E).
  destruct (state_eq_dec st x); [now subst | discriminate].
Qed.

Lemma closed_reachable (maxB1 : Z) (l : list state) (st : state) :
  closed maxB1 l = true -> reachable maxB1 st -> In st l.
Proof.
  unfold closed. rewrite andb_true_iff, forallb_forall. intros (Hseed & Hstep).
  induction 1 as [| st st1 _ IH Hsize Hst].
  - now apply mem_state_In.
  - specialize (Hstep st IH). rewrite Hst in Hstep.
    destruct (Z.gtb_spec (size (braid st)) 1); [| lia].
    now apply mem_state_In.
Qed.

Lemma closed_emitted (maxB1 : Z) (l : list state) (w : list Z) :
  closed maxB1 l = true -> emitted maxB1 w -> In w (printed maxB1 l).
Proof.
  intros Hc (st & Hr & <- & Hsize & Hp).
  unfold printed. apply in_map. apply filter_In. split.
  - exact (closed_reachable _ Hc Hr).
  - rewrite Hp. destruct (Z.gtb_spec (size (braid st)) 1); [reflexivity | lia].
Qed.

Lemma iterate_emitted (n : nat) (maxB1 : Z) (st : state) :
  iterate n maxB1 seed = Ok st ->
  size (braid st) > 1 -> choose (braid st) maxB1 = Ok Print ->
  emitted maxB1 (braid st).
Proof.
  intros Hn Hsize Hp. exists st. repeat split; try assumption.
  exact (iterate_reachable n (reach_seed maxB1) Hn).
Qed.

Lemma search_more_fuel (n n' : nat) (maxB1 : Z) (st st1 : state) :
  search n maxB1 st = Ok st1 -> (n <= n')%nat -> search n' maxB1 st = Ok st1.
Proof.
  revert n' st. induction n as [| n IH]; intros n' st H Hle; [discriminate |].
  destruct n' as [| n']; [lia |]. simpl in *.
  destruct (size (braid st) >? 1); [| exact H].
  destruct (step maxB1 st) as [st2 | err]; [| discriminate]. simpl in *.
  apply IH; [exact H | lia].
Qed.

Lemma search_reachable (n : nat) (maxB1 : Z) (st st1 : state) :
  reachable maxB1 st -> search n maxB1 st = Ok st1 ->
  reachable maxB1 st1 /\ size (braid st1) <= 1.
Proof.
  revert st. induction n as [| n IH]; intros st Hr H; [discriminate |].
  simpl in H. destruct (Z.gtb_spec (size (braid st)) 1) as [Hs | Hs].
  - inv_bind H. apply (IH x); [| exact H].
    apply reach_step with st; [exact Hr | lia | exact Hm].
  - injection H as <-. split; [exact Hr | lia].
Qed.

(** ** Genus 1 *)

(** C3: the run with [maxB1 = 2] prints the word [[1; 1; 1]], written [aaa],
    and no other word. *)
Theorem genus_one_prints_aaa_only :
  (forall w, emitted 2 w <-> w = [1; 1; 1]) /\
  printBraid [1; 1; 1] = "aaa"%string /\
  listBraids 15 2 =
  Ok {| braid := [2]; counter := 1;
        cout := [OutBraid "aaa"; OutDT 3 1 [4; 6; 2]] |}.
Proof.
  split; [| split; vm_compute; reflexivity].
  intros w. split.
  - intros H. apply (closed_emitted (orbit 14 2 seed)) in H.
    + vm_compute in H. destruct H as [<- | []]. reflexivity.
    + vm_compute. reflexivity.
  - intros ->. apply (iterate_emitted 1 2 (st := {| braid := [1; 1; 1]; counter := 0; cout := [] |}));
      vm_compute; reflexivity.
Qed.

Lemma genus_one_prints_aaa_only_witness : emitted 2 [1; 1; 1].
Proof.
  apply (proj1 genus_one_prints_aaa_only [1; 1; 1]). reflexivity.
Defined.

(** ** Rotations of the printed words *)

(** C1, on the code: the run with [maxB1 = 6] prints the word [aabaabba],
    which [lexicoGood] accepts, and the rotation [aaabaabb] of this word is
    smaller. *)
Theorem printed_word_with_smaller_rotation :
  let w := [1; 1; 2; 1; 1; 2; 2; 1] in
  emitted 6 w /\
  (exists st, listBraids 2000 6 = Ok st /\ In (OutBraid "aabaabba") (cout st)) /\
  lexicoGood w = Ok true /\
  rotation 7 w = [1; 1; 1; 2; 1; 1; 2; 2] /\
  lexicographical_compare (rotation 7 w) w = true /\
  minimal_rotation w = false.
Proof.
  split; [| split; [| repeat split; vm_compute; reflexivity]].
  - assert (H : exists st, iterate 191 6 seed = Ok st /\
                           braid st = [1; 1; 2; 1; 1; 2; 2; 1]).
    { vm_compute. eexists. split; reflexivity. }
    destruct H as (st & Hst & E). rewrite <- E.
    apply (iterate_emitted 191 6 Hst); rewrite E; vm_compute; reflexivity.
  - assert (H : match listBraids 2000 6 with
                | Ok st =>
                    existsb
                      (fun x => if output_eq_dec x (OutBraid "aabaabba")
                                then true else false)
                      (cout st)
                | Err _ => false
                end = true) by (vm_compute; reflexivity).
    destruct (listBraids 2000 6) as [st | err]; [| discriminate].
    exists st. split; [reflexivity |].
    apply existsb_exists in H. destruct H as (x & Hx & E).
    destruct (output_eq_dec x (OutBraid "aabaabba")); [now subst | discriminate].
Qed.

(** ** The check of the number of passes *)

(** C4, as stated, fails on the word [aaa] of genus 1: the traversal makes 2
    passes, which is not [strands + 1 = 3], and [printDT] succeeds and the
    run ends normally. *)
Lemma pass_count_is_not_strands_plus_one :
  exists st passed,
    dt_traverse [1; 1; 1] = Ok (st, passed) /\
    passed <> (max [1; 1; 1] + 1) + 1 /\
    printDT [1; 1; 1] 1 = Ok (true, [OutDT 3 1 [4; 6; 2]]) /\
    emitted 2 [1; 1; 1] /\
    listBraids 15 2 =
    Ok {| braid := [2]; counter := 1;
          cout := [OutBraid "aaa"; OutDT 3 1 [4; 6; 2]] |}.
Proof.
  eexists. exists 2. split; [vm_compute; reflexivity |].
  split; [vm_compute; discriminate |].
  split; [vm_compute; reflexivity |].
  split; [| vm_compute; reflexivity].
  apply (iterate_emitted 1 2 (st := {| braid := [1; 1; 1]; counter := 0; cout := [] |}));
    vm_compute; reflexivity.
Qed.

(** ** The command line *)






(** ** The largest letter *)

Lemma max_from_spec (b : list Z) (a : Z) :
  max_from b a = Z.max a (max_from b 1) \/ a < 1.
Proof.
  destruct (Z_lt_le_dec a 1) as [Hlt | Hle]; [now right | left].
  revert a Hle. unfold max_from. induction b as [| x b IH]; simpl; intros a Ha.
  - lia.
  - rewrite (IH (if x >? 1 then x else 1)) by (destruct (Z.gtb_spec x 1); lia).
    rewrite (IH (if x >? a then x else a)) by (destruct (Z.gtb_spec x a); lia).
    destruct (Z.gtb_spec x 1), (Z.gtb_spec x a); lia.
Qed.

Lemma max_nil : max [] = 1.
Proof. reflexivity. Qed.

Lemma max_cons (x : Z) (b : list Z) : max (x :: b) = Z.max (Z.max 1 x) (max b).
Proof.
  unfold max. simpl. fold (max_from b (if x >? 1 then x else 1)).
  destruct (max_from_spec b (if x >? 1 then x else 1)) as [E | E].
  - rewrite E. unfold max_from. destruct (Z.gtb_spec x 1); lia.
  - destruct (Z.gtb_spec x 1); lia.
Qed.

Lemma max_snoc (b : list Z) (x : Z) : max (b ++ [x]) = Z.max (max b) x.
Proof.
  unfold max. rewrite fold_left_app. simpl.
  destruct (Z.gtb_spec x (fold_left (fun result x0 => if x0 >? result then x0 else result) b 1));
    lia.
Qed.

Lemma max_ge_1 (b : list Z) : 1 <= max b.
Proof.
  induction b as [| x b IH]; [rewrite max_nil | rewrite max_cons]; lia.
Qed.

Lemma max_ge (b : list Z) (x : Z) : In x b -> x <= max b.
Proof.
  induction b as [| y b IH]; simpl; [tauto |].
  rewrite max_cons. intros [-> | H]; [lia | specialize (IH H); lia].
Qed.

Lemma max_app (u v : list Z) : max (u ++ v) = Z.max (max u) (max v).
Proof.
  induction u as [| x u IH]; simpl.
  - rewrite max_nil. pose proof (max_ge_1 v). lia.
  - rewrite !max_cons, IH. lia.
Qed.

Lemma max_attained (b : list Z) : max b = 1 \/ In (max b) b.
Proof.
  induction b as [| x b IH]; [now left |].
  rewrite max_cons. simpl. pose proof (max_ge_1 b).
  destruct (Z.max_spec (Z.max 1 x) (max b)) as [(_ & E) | (_ & E)]; rewrite E.
  - destruct IH as [IH | IH]; [left; exact IH | right; right; exact IH].
  - destruct (Z.max_spec 1 x) as [(_ & E') | (_ & E')]; rewrite E';
      [right; now left | now left].
Qed.

(** ** Sums *)

Lemma sum_from (b : list Z) (a : Z) :
  fold_left (fun result x => result + x) b a = a + sum b.
Proof.
  unfold sum. revert a. induction b as [| x b IH]; simpl; intros a; [lia |].
  rewrite (IH (a + x)), (IH x). lia.
Qed.

Lemma sum_cons (x : Z) (b : list Z) : sum (x :: b) = x + sum b.
Proof.
  unfold sum at 1. simpl. now rewrite sum_from.
Qed.

Lemma sum_nonneg (b : list Z) : Forall (fun x => 0 <= x) b -> 0 <= sum b.
Proof.
  induction 1 as [| x b Hx _ IH]; [reflexivity | rewrite sum_cons; lia].
Qed.

(** ** Vectors *)

Lemma length_update {A : Type} (v : list A) (n : nat) (x : A) :
  length (update v n x) = length v.
Proof.
  revert n. induction v as [| y v IH]; intros [| n]; simpl; auto.
Qed.

Lemma nth_update {A : Type} (v : list A) (n k : nat) (x d : A) :
  (n < length v)%nat ->
  nth k (update v n x) d = if Nat.eqb k n then x else nth k v d.
Proof.
  revert n k. induction v as [| y v IH]; intros [| n] [| k]; simpl; intros H;
    try lia; try reflexivity.
  apply IH. lia.
Qed.

Lemma in_range_spec {A : Type} (v : list A) (i : Z) :
  in_range v i = true <-> 0 <= i < size v.
Proof.
  unfold in_range. rewrite andb_true_iff, Z.leb_le, Z.ltb_lt. tauto.
Qed.

Lemma zrange_length (lo : Z) (n : nat) : length (zrange lo n) = n.
Proof.
  unfold zrange. now rewrite length_map, length_seq.
Qed.

Lemma zrange_nth (lo : Z) (n k : nat) (d : Z) :
  (k < n)%nat -> nth k (zrange lo n) d = lo + Z.of_nat k.
Proof.
  intros H. unfold zrange.
  rewrite (nth_indep _ d (lo + Z.of_nat 0)) by now rewrite length_map, length_seq.
  rewrite (map_nth (fun k => lo + Z.of_nat k)), seq_nth by exact H.
  reflexivity.
Qed.

Lemma zrange_In (lo : Z) (n : nat) (z : Z) :
  In z (zrange lo n) <-> lo <= z < lo + Z.of_nat n.
Proof.
  unfold zrange. rewrite in_map_iff. split.
  - intros (k & <- & Hk). apply in_seq in Hk. lia.
  - intros H. exists (Z.to_nat (z - lo)). split; [lia |].
    apply in_seq. lia.
Qed.

Lemma zrange_S (lo : Z) (n : nat) :
  zrange lo (S n) = zrange lo n ++ [lo + Z.of_nat n].
Proof.
  unfold zrange. rewrite seq_S, map_app. reflexivity.
Qed.

Lemma zrange_cons (lo : Z) (n : nat) :
  zrange lo (S n) = lo :: zrange (lo + 1) n.
Proof.
  unfold zrange. simpl. rewrite <- seq_shift, map_map. f_equal; [lia |].
  apply map_ext. intros k. lia.
Qed.

(** ** The missing crossings *)

Lemma missing_vector_length (b : list Z) (i : Z) :
  length (missing_vector b i) = Z.to_nat (max b).
Proof.
  unfold missing_vector. now rewrite length_map, zrange_length.
Qed.

Lemma missing_vector_nth (b : list Z) (i : Z) (j : nat) :
  (j < Z.to_nat (max b))%nat ->
  nth j (missing_vector b i) 0 = missing_entry b i (Z.of_nat j).
Proof.
  intros H. unfold missing_vector.
  rewrite (nth_indep _ 0 (missing_entry b i 0))
    by now rewrite length_map, zrange_length.
  rewrite (map_nth (missing_entry b i)), zrange_nth by exact H.
  reflexivity.
Qed.

Lemma raise_entry (v : list Z) (k : Z) :
  0 <= k < size v ->
  (x <- at_get 0 v k ;; if x =? 0 then at_set v k 1 else Ok v) =
  Ok (if nth (Z.to_nat k) v 0 =? 0 then update v (Z.to_nat k) 1 else v).
Proof.
  intros H. unfold at_get, at_set.
  rewrite (proj2 (in_range_spec v k) H). simpl.
  now destruct (nth (Z.to_nat k) v 0 =? 0).
Qed.

Lemma missing_step_vector (b : list Z) (i : Z) :
  1 <= i <= max b - 1 ->
  missing_step b (missing_vector b (i - 1)) i = Ok (missing_vector b i).
Proof.
  intros Hi. unfold missing_step.
  set (v := missing_vector b (i - 1)).
  assert (Hlen : length v = Z.to_nat (max b)) by apply missing_vector_length.
  assert (Hsize : size v = max b) by (unfold size; lia).
  set (v1 := if twistRegions i b =? 2
             then (if nth (Z.to_nat (i - 1)) v 0 =? 0
                   then update v (Z.to_nat (i - 1)) 1 else v)
             else v).
  assert (Hlen1 : length v1 = Z.to_nat (max b)).
  { unfold v1. destruct (twistRegions i b =? 2); [| exact Hlen].
    destruct (nth (Z.to_nat (i - 1)) v 0 =? 0); [| exact Hlen].
    now rewrite length_update. }
  assert (E1 : (if twistRegions i b =? 2
                then x <- at_get 0 v (i - 1) ;;
                     (if x =? 0 then at_set v (i - 1) 1 else Ok v)
                else Ok v) = Ok v1).
  { unfold v1. destruct (twistRegions i b =? 2); [| reflexivity].
    apply raise_entry. lia. }
  rewrite E1. simpl.
  assert (E2 : (if twistRegions i b <? 4
                then x <- at_get 0 v1 i ;;
                     (if x =? 0 then at_set v1 i 1 else Ok v1)
                else Ok v1) =
               Ok (if twistRegions i b <? 4
                   then (if nth (Z.to_nat i) v1 0 =? 0
                         then update v1 (Z.to_nat i) 1 else v1)
                   else v1)).
  { destruct (twistRegions i b <? 4); [| reflexivity].
    apply raise_entry. unfold size. lia. }
  rewrite E2. f_equal.
  assert (N1 : forall j, (j < Z.to_nat (max b))%nat ->
                         nth j v1 0 =
                         if (Z.of_nat j =? i - 1) && (twistRegions i b =? 2)
                         then 1 else missing_entry b (i - 1) (Z.of_nat j)).
  { intros j Hj. unfold v1.
    destruct (Z.eqb_spec (twistRegions i b) 2) as [Et | Et].
    - destruct (Z.eqb_spec (nth (Z.to_nat (i - 1)) v 0) 0) as [E0 | E0].
      + rewrite nth_update by lia.
        destruct (Nat.eqb_spec j (Z.to_nat (i - 1))), (Z.eqb_spec (Z.of_nat j) (i - 1));
          try lia; simpl; try reflexivity.
        unfold v. now apply missing_vector_nth.
      + destruct (Z.eqb_spec (Z.of_nat j) (i - 1)) as [Ej | Ej]; simpl.
        * unfold v in E0. rewrite missing_vector_nth in E0 by lia.
          replace (Z.of_nat (Z.to_nat (i - 1))) with (i - 1) in E0 by lia.
          unfold v. rewrite missing_vector_nth by exact Hj. rewrite Ej.
          unfold missing_entry in *.
          destruct ((1 <=? i - 1) && (i - 1 <=? i - 1) && (twistRegions (i - 1) b <? 4)
                    || (i - 1 + 1 <=? i - 1) && (twistRegions (i - 1 + 1) b =? 2));
            [reflexivity | contradiction].
        * unfold v. now apply missing_vector_nth.
    - rewrite andb_false_r. unfold v. now apply missing_vector_nth. }
  apply nth_ext with (d := 0) (d' := 0).
  - rewrite missing_vector_length.
    destruct (twistRegions i b <? 4); [| exact Hlen1].
    destruct (nth (Z.to_nat i) v1 0 =? 0); [| exact Hlen1].
    now rewrite length_update.
  - intros j Hj.
    assert (Hj' : (j < Z.to_nat (max b))%nat).
    { destruct (twistRegions i b <? 4); [| lia].
      destruct (nth (Z.to_nat i) v1 0 =? 0); [| lia].
      rewrite length_update in Hj. lia. }
    rewrite missing_vector_nth by exact Hj'.
    assert (Goal1 : nth j (if twistRegions i b <? 4
                    then (if nth (Z.to_nat i) v1 0 =? 0
                          then update v1 (Z.to_nat i) 1 else v1)
                    else v1) 0 =
            if (Z.of_nat j =? i) && (twistRegions i b <? 4) then 1
            else nth j v1 0).
    { destruct (Z.ltb_spec (twistRegions i b) 4) as [Et | Et].
      - destruct (Z.eqb_spec (nth (Z.to_nat i) v1 0) 0) as [E0 | E0].
        + rewrite nth_update by lia.
          destruct (Nat.eqb_spec j (Z.to_nat i)), (Z.eqb_spec (Z.of_nat j) i);
            try lia; reflexivity.
        + destruct (Z.eqb_spec (Z.of_nat j) i) as [Ej | Ej]; simpl; [| reflexivity].
          replace j with (Z.to_nat i) by lia.
          rewrite N1 in E0 |- * by lia.
          replace (Z.of_nat (Z.to_nat i)) with i in * by lia.
          destruct (Z.eqb_spec i (i - 1)); [lia |]. simpl in *.
          unfold missing_entry in *.
          destruct ((1 <=? i) && (i <=? i - 1) && (twistRegions i b <? 4)
                    || (i + 1 <=? i - 1) && (twistRegions (i + 1) b =? 2));
            [reflexivity | contradiction].
      - rewrite andb_false_r. reflexivity. }
    rewrite Goal1, N1 by exact Hj'.
    unfold missing_entry.
    set (z := Z.of_nat j).
    destruct (Z.eqb_spec z i) as [-> | Hzi].
    + destruct (Z.eqb_spec i (i - 1)); [lia |]. simpl.
      replace (i + 1 - 1) with i by lia.
      destruct (Z.leb_spec 1 i), (Z.leb_spec i i), (Z.leb_spec i (i - 1)),
        (Z.leb_spec (i + 1) i), (Z.leb_spec (i + 1) (i - 1)); try lia; simpl.
      destruct (twistRegions i b <? 4); reflexivity.
    + simpl. destruct (Z.eqb_spec z (i - 1)) as [-> | Hzi'].
      * replace (i - 1 + 1) with i by lia. simpl.
        destruct (Z.leb_spec 1 (i - 1)), (Z.leb_spec (i - 1) (i - 1)),
          (Z.leb_spec (i - 1) i), (Z.leb_spec i (i - 1)), (Z.leb_spec i i);
          try lia; simpl;
          destruct (twistRegions (i - 1) b <? 4), (twistRegions i b =? 2);
          reflexivity.
      * simpl.
        destruct (Z.leb_spec 1 z), (Z.leb_spec z (i - 1)), (Z.leb_spec z i),
          (Z.leb_spec (z + 1) (i - 1)), (Z.leb_spec (z + 1) i);
          try lia; reflexivity.
Qed.

Lemma missing_loop_vector (b : list Z) (n : nat) (i0 : Z) :
  0 <= i0 -> i0 + Z.of_nat n <= max b - 1 ->
  missing_loop b (missing_vector b i0) (zrange (i0 + 1) n) =
  Ok (missing_vector b (i0 + Z.of_nat n)).
Proof.
  revert i0. induction n as [| n IH]; intros i0 H0 Hn.
  - simpl. f_equal. f_equal. lia.
  - rewrite zrange_cons. simpl.
    replace (missing_vector b i0) with (missing_vector b (i0 + 1 - 1))
      by (f_equal; lia).
    rewrite missing_step_vector by lia. simpl.
    rewrite IH by lia. f_equal. f_equal. lia.
Qed.

Lemma missing_vector_0 (b : list Z) :
  missing_vector b 0 = repeat 0 (Z.to_nat (max b)).
Proof.
  apply nth_ext with (d := 0) (d' := 0).
  - now rewrite missing_vector_length, repeat_length.
  - intros j Hj. rewrite missing_vector_length in Hj.
    rewrite missing_vector_nth by exact Hj. rewrite nth_repeat.
    unfold missing_entry.
    destruct (Z.leb_spec 1 (Z.of_nat j)), (Z.leb_spec (Z.of_nat j) 0),
      (Z.leb_spec (Z.of_nat j + 1) 0); try lia; reflexivity.
Qed.

(** [missingCrossingsForPrimality] never throws. *)
Lemma missingCrossingsForPrimality_vector (b : list Z) :
  missingCrossingsForPrimality b = Ok (sum (missing_vector b (max b - 1))).
Proof.
  unfold missingCrossingsForPrimality. pose proof (max_ge_1 b) as Hmax.
  rewrite <- missing_vector_0.
  replace (zrange 1 (Z.to_nat (max b - 1)))
    with (zrange (0 + 1) (Z.to_nat (max b - 1))) by reflexivity.
  rewrite missing_loop_vector by lia. simpl. f_equal. f_equal. f_equal. lia.
Qed.

Lemma missing_entry_01 (b : list Z) (i j : Z) :
  missing_entry b i j = 0 \/ missing_entry b i j = 1.
Proof.
  unfold missing_entry.
  destruct ((1 <=? j) && (j <=? i) && (twistRegions j b <? 4)
            || (j + 1 <=? i) && (twistRegions (j + 1) b =? 2)); auto.
Qed.

Lemma missing_vector_nonneg (b : list Z) (i : Z) :
  Forall (fun x => 0 <= x) (missing_vector b i).
Proof.
  unfold missing_vector. apply Forall_map, Forall_forall. intros j _.
  destruct (missing_entry_01 b i j); lia.
Qed.

Lemma missingCrossingsForPrimality_nonneg (b : list Z) (m : Z) :
  missingCrossingsForPrimality b = Ok m -> 0 <= m.
Proof.
  rewrite missingCrossingsForPrimality_vector. intros [= <-].
  apply sum_nonneg, missing_vector_nonneg.
Qed.

Lemma sum_zero (l : list Z) :
  Forall (fun x => 0 <= x) l -> sum l = 0 -> Forall (fun x => x = 0) l.
Proof.
  induction 1 as [| x l Hx Hl IH]; [constructor |].
  rewrite sum_cons. intros E. pose proof (sum_nonneg Hl).
  constructor; [lia | apply IH; lia].
Qed.

(** No crossing is missing only if each pair of neighbouring columns has at
    least four twist regions. *)
Lemma missing_zero_twistRegions (b : list Z) (i : Z) :
  missingCrossingsForPrimality b = Ok 0 ->
  1 <= i <= max b - 1 -> 4 <= twistRegions i b.
Proof.
  rewrite missingCrossingsForPrimality_vector. intros [= E] Hi.
  apply sum_zero in E; [| apply missing_vector_nonneg].
  rewrite Forall_forall in E.
  specialize (E (missing_entry b (max b - 1) i)).
  unfold missing_vector in E at 1.
  assert (E' : missing_entry b (max b - 1) i = 0).
  { apply E. apply in_map. apply zrange_In. lia. }
  unfold missing_entry in E'.
  destruct (Z.leb_spec 1 i), (Z.leb_spec i (max b - 1)); try lia.
  destruct (Z.ltb_spec (twistRegions i b) 4); [| lia].
  simpl in E'. discriminate.
Qed.

(** ** Twist regions and occurrences *)

Lemma occurrences_cons (x y : Z) (b : list Z) :
  occurrences x (y :: b) = (if y =? x then 1 else 0) + occurrences x b.
Proof.
  unfold occurrences. simpl.
  destruct (Z.eq_dec y x), (Z.eqb_spec y x); try contradiction; lia.
Qed.

Lemma occurrences_nonneg (x : Z) (b : list Z) : 0 <= occurrences x b.
Proof. unfold occurrences. lia. Qed.

Lemma twist_scan_cons (i j : Z) (b : list Z) (l t : Z) :
  twist_scan i (j :: b) (l, t) =
  twist_scan i b
    (if ((j =? i) || (j =? i + 1)) && negb (j =? l) then (j, t + 1) else (l, t)).
Proof. reflexivity. Qed.

Lemma twist_scan_bound (i : Z) (b : list Z) (l t : Z) :
  snd (twist_scan i b (l, t)) - t
  <= 2 * occurrences (i + 1) b + (if l =? i then 0 else 1) /\
  snd (twist_scan i b (l, t)) - t
  <= 2 * occurrences i b + (if l =? i + 1 then 0 else 1).
Proof.
  revert l t. induction b as [| j b IH]; intros l t.
  - simpl. destruct (l =? i), (l =? i + 1); lia.
  - rewrite twist_scan_cons, !occurrences_cons.
    pose proof (occurrences_nonneg i b). pose proof (occurrences_nonneg (i + 1) b).
    generalize (IH l t) (IH j (t + 1)). clear IH.
    destruct (Z.eqb_spec j i), (Z.eqb_spec j (i + 1)), (Z.eqb_spec j l),
      (Z.eqb_spec l i), (Z.eqb_spec l (i + 1));
      cbn [andb orb negb]; intros (A1 & A2) (B1 & B2); lia.
Qed.

Lemma twistRegions_occurrences (i : Z) (b : list Z) :
  1 <= i -> 4 <= twistRegions i b ->
  2 <= occurrences i b /\ 2 <= occurrences (i + 1) b.
Proof.
  intros Hi Ht. unfold twistRegions in Ht.
  destruct (twist_scan_bound i b (-1) 0) as (H1 & H2).
  destruct (Z.eqb_spec (-1) i), (Z.eqb_spec (-1) (i + 1)); lia.
Qed.

(** ** The tests of an iteration *)

Lemma Z_of_bool_01 (c : bool) : Z_of_bool c = 0 \/ Z_of_bool c = 1.
Proof. destruct c; auto. Qed.

Lemma completable_15 (b : list Z) (maxB1 : Z) :
  completable b maxB1 = Ok 15 <->
  exists n m,
    numberOfComponents b = Ok n /\
    missingCrossingsForPrimality b = Ok m /\
    lexicoGood b = Ok true /\
    reidemeister b = Ok true /\
    n - (maxB1 - b1 b) <= 1 /\
    m <= maxB1 - b1 b.
Proof.
  unfold completable. split.
  - intros H. inv_bind H. rename x into n. inv_bind H. rename x into m.
    inv_bind H. rename x into l. inv_bind H. rename x into r.
    injection H as H. exists n, m.
    destruct (Z.leb_spec (n - (maxB1 - b1 b)) 1),
      (Z.leb_spec m (maxB1 - b1 b)), l, r; simpl in H; try discriminate.
    repeat split; assumption.
  - intros (n & m & -> & -> & -> & -> & Hn & Hm). simpl.
    destruct (Z.leb_spec (n - (maxB1 - b1 b)) 1),
      (Z.leb_spec m (maxB1 - b1 b)); try lia. reflexivity.
Qed.

Lemma choose_Print (b : list Z) (maxB1 : Z) :
  choose b maxB1 = Ok Print <->
  lastLetterTooHigh b maxB1 = Ok false /\
  completable b maxB1 = Ok 15 /\
  maxB1 <= b1 b.
Proof.
  unfold choose. split.
  - intros H. inv_bind H. destruct x; [discriminate |].
    inv_bind H. destruct (Z.eqb_spec x 15) as [-> | _]; [| discriminate].
    simpl in H. destruct (Z.ltb_spec (b1 b) maxB1); [discriminate |].
    repeat split; assumption.
  - intros (-> & -> & H). simpl. destruct (Z.ltb_spec (b1 b) maxB1); [lia | reflexivity].
Qed.

Lemma choose_Append (b : list Z) (maxB1 : Z) :
  choose b maxB1 = Ok Append <->
  lastLetterTooHigh b maxB1 = Ok false /\
  completable b maxB1 = Ok 15 /\
  b1 b < maxB1.
Proof.
  unfold choose. split.
  - intros H. inv_bind H. destruct x; [discriminate |].
    inv_bind H. destruct (Z.eqb_spec x 15) as [-> | _]; [| discriminate].
    simpl in H. destruct (Z.ltb_spec (b1 b) maxB1); [| discriminate].
    repeat split; assumption.
  - intros (-> & -> & H). simpl. destruct (Z.ltb_spec (b1 b) maxB1); [reflexivity | lia].
Qed.

(** ** The number of components is at least 1 *)

Lemma comp_loop_lower (fuel : nat) (b cn : list Z) (i cc n : Z) :
  comp_loop fuel b cn i cc = Ok n ->
  cc <= n /\ (i <> size cn -> cc + 1 <= n).
Proof.
  revert cn i cc. induction fuel as [| fuel IH]; intros cn i cc H; [discriminate |].
  simpl in H. destruct (Z.eqb_spec i (size cn)) as [E | E].
  - injection H as <-. split; [lia | contradiction].
  - inv_bind H. destruct x as (cn1 & i1). inv_bind H.
    apply IH in H. lia.
Qed.

Lemma numberOfComponents_lower (b : list Z) (n : Z) :
  b <> [] -> numberOfComponents b = Ok n -> 1 <= n.
Proof.
  intros Hb H. unfold numberOfComponents in H.
  destruct b as [| x b]; [contradiction |].
  apply comp_loop_lower in H. destruct H as (_ & H).
  pose proof (max_ge_1 (x :: b)).
  unfold size in H. rewrite repeat_length in H. lia.
Qed.

(** ** What holds of a printed word *)

Lemma emitted_facts (maxB1 : Z) (w : list Z) :
  emitted maxB1 w ->
  wellformed w /\ size w > 1 /\
  lastLetterTooHigh w maxB1 = Ok false /\
  numberOfComponents w = Ok 1 /\
  missingCrossingsForPrimality w = Ok 0 /\
  lexicoGood w = Ok true /\
  reidemeister w = Ok true /\
  b1 w = maxB1.
Proof.
  intros (st & Hr & <- & Hsize & Hp).
  apply reachable_wellformed in Hr.
  apply choose_Print in Hp. destruct Hp as (Hh & Hc & Hb).
  apply completable_15 in Hc.
  destruct Hc as (n & m & Hn & Hm & Hl & Hre & Hn1 & Hm1).
  pose proof (missingCrossingsForPrimality_nonneg _ Hm) as Hm0.
  pose proof (numberOfComponents_lower (proj1 Hr) Hn) as Hn0.
  assert (m = 0) by lia. assert (n = 1) by lia. subst m n.
  repeat split; try assumption; try apply Hr. lia.
Qed.

(** ** Every generator occurs twice *)

Lemma occurrences_all_ones (b : list Z) :
  Forall (fun x => x = 1) b -> occurrences 1 b = size b.
Proof.
  induction 1 as [| x b -> _ IH].
  - reflexivity.
  - rewrite occurrences_cons, IH, Z.eqb_refl. unfold size. simpl length. lia.
Qed.

(** C7: each generator that occurs in a printed word occurs in it at least
    twice. *)
Theorem printed_generators_occur_twice (maxB1 : Z) (w : list Z) (x : Z) :
  emitted maxB1 w -> In x w -> (2 <= count_occ Z.eq_dec w x)%nat.
Proof.
  intros H Hx. apply emitted_facts in H.
  destruct H as ((_ & Hpos) & Hsize & _ & _ & Hm & _).
  assert (H1 : 1 <= x) by (unfold positive in Hpos; rewrite Forall_forall in Hpos; auto).
  pose proof (max_ge w x Hx) as H2.
  enough (2 <= occurrences x w) by (unfold occurrences in *; lia).
  destruct (Z.eq_dec (max w) 1) as [E1 | E1].
  - assert (x = 1) by lia. subst x.
    rewrite occurrences_all_ones; [lia |].
    unfold positive in Hpos. rewrite Forall_forall in *.
    intros y Hy. pose proof (max_ge w y Hy). specialize (Hpos y Hy). lia.
  - destruct (Z.eq_dec x (max w)) as [E | E].
    + assert (Ht : 4 <= twistRegions (x - 1) w)
        by (apply missing_zero_twistRegions; [exact Hm | lia]).
      apply twistRegions_occurrences in Ht; [| lia].
      replace (x - 1 + 1) with x in Ht by lia. tauto.
    + assert (Ht : 4 <= twistRegions x w)
        by (apply missing_zero_twistRegions; [exact Hm | lia]).
      apply twistRegions_occurrences in Ht; [| lia]. tauto.
Qed.

Lemma printed_generators_occur_twice_witness :
  (2 <= count_occ Z.eq_dec [1; 1; 1]%Z 1%Z)%nat.
Proof.
  apply (@printed_generators_occur_twice 2 [1; 1; 1] 1).
  - apply (iterate_emitted 1 2 (st := {| braid := [1; 1; 1]; counter := 0; cout := [] |}));
      vm_compute; reflexivity.
  - simpl. auto.
Defined.

(** ** The permutation of the strands *)

Lemma walk_cons (x : Z) (b : list Z) (p : Z) : walk (x :: b) p = walk b (cross x p).
Proof. reflexivity. Qed.

Lemma walk_app (u v : list Z) (p : Z) : walk (u ++ v) p = walk v (walk u p).
Proof. unfold walk. apply fold_left_app. Qed.

Lemma cross_involutive (x p : Z) : cross x (cross x p) = p.
Proof.
  unfold cross.
  destruct (Z.eqb_spec x p), (Z.eqb_spec x (p - 1));
    repeat match goal with
           | |- context [?a =? ?c] => destruct (Z.eqb_spec a c)
           end; lia.
Qed.

Lemma cross_injective (x p q : Z) : cross x p = cross x q -> p = q.
Proof.
  intros H. rewrite <- (cross_involutive x p), H. apply cross_involutive.
Qed.

Lemma walk_injective (b : list Z) (p q : Z) : walk b p = walk b q -> p = q.
Proof.
  revert p q. induction b as [| x b IH]; intros p q H; [exact H |].
  rewrite !walk_cons in H. apply IH in H. now apply cross_injective in H.
Qed.

Lemma cross_range (M x p : Z) :
  1 <= x <= M -> 1 <= p <= M + 1 -> 1 <= cross x p <= M + 1.
Proof.
  intros Hx Hp. unfold cross.
  destruct (Z.eqb_spec x p), (Z.eqb_spec x (p - 1)); lia.
Qed.

Lemma walk_range (M : Z) (b : list Z) (p : Z) :
  Forall (fun x => 1 <= x <= M) b -> 1 <= p <= M + 1 -> 1 <= walk b p <= M + 1.
Proof.
  intros Hb. revert p. induction Hb as [| x b Hx _ IH]; intros p Hp; [exact Hp |].
  rewrite walk_cons. apply IH. now apply cross_range.
Qed.

Lemma positive_bounded (b : list Z) :
  positive b -> Forall (fun x => 1 <= x <= max b) b.
Proof.
  unfold positive. rewrite !Forall_forall. intros H x Hx.
  split; [now apply H | now apply max_ge].
Qed.

Lemma turns_S (b : list Z) (t : nat) (p : Z) :
  turns b (S t) p = walk b (turns b t p).
Proof. reflexivity. Qed.

Lemma turns_S_r (b : list Z) (t : nat) (p : Z) :
  turns b (S t) p = turns b t (walk b p).
Proof. apply Nat.iter_succ_r. Qed.

Lemma turns_add (b : list Z) (t u : nat) (p : Z) :
  turns b (t + u) p = turns b t (turns b u p).
Proof. apply Nat.iter_add. Qed.

Lemma turns_injective (b : list Z) (t : nat) (p q : Z) :
  turns b t p = turns b t q -> p = q.
Proof.
  induction t as [| t IH]; intros H; [exact H |].
  rewrite !turns_S in H. apply walk_injective in H. now apply IH.
Qed.

Lemma turns_range (b : list Z) (t : nat) (p : Z) :
  positive b -> 1 <= p <= max b + 1 -> 1 <= turns b t p <= max b + 1.
Proof.
  intros Hb Hp. induction t as [| t IH]; [exact Hp |].
  rewrite turns_S. apply walk_range; [now apply positive_bounded | exact IH].
Qed.

(** Among the first [n] positions of a strand, two are the same or all are
    different. *)
Lemma turns_repeat_or_NoDup (b : list Z) (p : Z) (n : nat) :
  (exists i j, (i < j < n)%nat /\ turns b i p = turns b j p) \/
  NoDup (map (fun t => turns b t p) (seq 0 n)).
Proof.
  induction n as [| n [(i & j & Hij & E) | IH]].
  - right. constructor.
  - left. exists i, j. split; [lia | exact E].
  - rewrite seq_S, map_app. simpl.
    destruct (in_dec Z.eq_dec (turns b n p) (map (fun t => turns b t p) (seq 0 n)))
      as [Hin | Hnin].
    + left. apply in_map_iff in Hin. destruct Hin as (i & E & Hi).
      apply in_seq in Hi. exists i, n. split; [lia | exact E].
    + right. apply NoDup_app; [exact IH | repeat constructor; intros [] | ].
      intros x Hx [<- | []]. contradiction.
Qed.

(** Each strand comes back to its position, after at most [max b + 1]
    turns. *)
Lemma return_time (b : list Z) (p : Z) :
  positive b -> 1 <= p <= max b + 1 ->
  exists T, (1 <= T <= Z.to_nat (max b + 1))%nat /\ turns b T p = p.
Proof.
  intros Hb Hp. set (N := Z.to_nat (max b + 1)).
  destruct (turns_repeat_or_NoDup b p (S N)) as [(i & j & Hij & E) | Hnd].
  - exists (j - i)%nat. split; [lia |].
    replace j with (i + (j - i))%nat in E by lia.
    rewrite turns_add in E. apply turns_injective in E. now symmetry.
  - exfalso. apply NoDup_incl_length with (l' := zrange 1 N) in Hnd.
    + rewrite length_map, length_seq, zrange_length in Hnd. lia.
    + intros x Hx. apply in_map_iff in Hx. destruct Hx as (t & <- & _).
      apply zrange_In. pose proof (turns_range t Hb Hp). lia.
Qed.

(** ** Cycles *)

Unset Implicit Arguments.

Lemma same_cycle_refl (b : list Z) (p : Z) : same_cycle b p p.
Proof. now exists 0%nat. Qed.

Lemma same_cycle_trans (b : list Z) (p q r : Z) :
  same_cycle b p q -> same_cycle b q r -> same_cycle b p r.
Proof.
  intros (t & <-) (u & <-). exists (u + t)%nat. apply turns_add.
Qed.

Lemma same_cycle_range (b : list Z) (p q : Z) :
  positive b -> 1 <= p <= max b + 1 -> same_cycle b p q -> 1 <= q <= max b + 1.
Proof.
  intros Hb Hp (t & <-). now apply turns_range.
Qed.

Lemma turns_period (b : list Z) (T m : nat) (p : Z) :
  turns b T p = p -> turns b (m * T) p = p.
Proof.
  intros H. induction m as [| m IH]; [reflexivity |].
  simpl. now rewrite turns_add, IH.
Qed.

Lemma same_cycle_sym (b : list Z) (p q : Z) :
  positive b -> 1 <= p <= max b + 1 -> same_cycle b p q -> same_cycle b q p.
Proof.
  intros Hb Hp (t & <-).
  destruct (return_time Hb Hp) as (T & HT & E).
  exists (t * T - t)%nat. rewrite <- turns_add.
  replace (t * T - t + t)%nat with (t * T)%nat by nia.
  now apply turns_period.
Qed.

Lemma turns_mod (b : list Z) (T t : nat) (p : Z) :
  turns b T p = p -> (1 <= T)%nat -> turns b t p = turns b (t mod T) p.
Proof.
  intros E HT. rewrite (Nat.div_mod_eq t T) at 1.
  rewrite Nat.add_comm, turns_add. f_equal.
  rewrite Nat.mul_comm. now apply turns_period.
Qed.

Lemma orbit_minimal_spec (b : list Z) (p : Z) :
  positive b -> 1 <= p <= max b + 1 ->
  orbit_minimal b p = true <-> forall q, same_cycle b p q -> p <= q.
Proof.
  intros Hb Hp. unfold orbit_minimal. rewrite forallb_forall. split.
  - intros H q (t & <-).
    destruct (return_time Hb Hp) as (T & HT & E).
    rewrite (turns_mod b T t p E) by lia. apply Z.leb_le, H, in_seq.
    pose proof (Nat.mod_upper_bound t T). lia.
  - intros H t _. apply Z.leb_le, H. now exists t.
Qed.

Lemma orbit_minimal_1 (b : list Z) : positive b -> orbit_minimal b 1 = true.
Proof.
  intros Hb. pose proof (max_ge_1 b).
  apply orbit_minimal_spec; [exact Hb | lia |].
  intros q Hq. apply same_cycle_range in Hq; [lia | exact Hb | lia].
Qed.

Lemma NoDup_map_seq (f : nat -> Z) (n i j : nat) :
  NoDup (map f (seq 0 n)) -> (i < n)%nat -> (j < n)%nat -> f i = f j -> i = j.
Proof.
  intros Hnd Hi Hj E.
  rewrite (NoDup_nth _ (f 0%nat)) in Hnd.
  specialize (Hnd i j). rewrite length_map, length_seq in Hnd.
  apply Hnd; [exact Hi | exact Hj |].
  rewrite !(map_nth f), !seq_nth by assumption. exact E.
Qed.

(** ** The labelling of one component *)

Lemma deref_label (cn : list Z) (p : Z) :
  1 <= p <= size cn -> deref cn (p - 1) = Ok (label cn p).
Proof.
  intros H. unfold deref. rewrite (proj2 (in_range_spec cn (p - 1))) by lia.
  reflexivity.
Qed.

Lemma store_label (cn : list Z) (p x : Z) :
  1 <= p <= size cn ->
  exists cn1,
    store cn (p - 1) x = Ok cn1 /\ size cn1 = size cn /\
    forall q, 1 <= q <= size cn -> label cn1 q = if q =? p then x else label cn q.
Proof.
  intros H. exists (update cn (Z.to_nat (p - 1)) x). split; [| split].
  - unfold store. now rewrite (proj2 (in_range_spec cn (p - 1))) by lia.
  - unfold size. now rewrite length_update.
  - intros q Hq. unfold label. unfold size in *. rewrite nth_update by lia.
    destruct (Nat.eqb_spec (Z.to_nat (q - 1)) (Z.to_nat (p - 1))), (Z.eqb_spec q p);
      try lia; reflexivity.
Qed.

Lemma track_S (b : list Z) (p : Z) (t : nat) :
  track b p (S t) = track b p t ++ [turns b t p].
Proof.
  unfold track. now rewrite seq_S, map_app.
Qed.

Lemma track_In (b : list Z) (p q : Z) (t : nat) :
  In q (track b p t) <-> exists k, (k < t)%nat /\ turns b k p = q.
Proof.
  unfold track. rewrite in_map_iff. split.
  - intros (k & E & Hk). apply in_seq in Hk. exists k. split; [lia | exact E].
  - intros (k & Hk & E). exists k. split; [exact E | apply in_seq; lia].
Qed.

Lemma track_length_bound (b : list Z) (p : Z) (t : nat) :
  positive b -> 1 <= p <= max b + 1 -> NoDup (track b p t) ->
  (t <= Z.to_nat (max b + 1))%nat.
Proof.
  intros Hb Hp Hnd.
  apply NoDup_incl_length with (l' := zrange 1 (Z.to_nat (max b + 1))) in Hnd.
  - unfold track in Hnd. now rewrite length_map, length_seq, zrange_length in Hnd.
  - intros x Hx. apply track_In in Hx. destruct Hx as (k & _ & <-).
    apply zrange_In. pose proof (turns_range k Hb Hp). lia.
Qed.

Section Labelling.

Variable b : list Z.
Hypothesis Hb : positive b.

(** The vector at the entry of the inner loop, the position of its first
    unlabelled entry, and the label given. *)
Variables (cn : list Z) (p0 cc : Z).
Hypothesis Hsize : size cn = max b + 1.
Hypothesis Hp0 : 1 <= p0 <= max b + 1.
Hypothesis Hcc : cc <> 0.
Hypothesis Hfree : forall q, same_cycle b p0 q -> label cn q = 0.

Lemma label_loop_invariant (fuel t : nat) (cn_t : list Z) :
  size cn_t = max b + 1 ->
  NoDup (track b p0 t) ->
  (forall q, 1 <= q <= max b + 1 ->
             label cn_t q =
             if in_dec Z.eq_dec q (track b p0 t) then cc else label cn q) ->
  (Z.to_nat (max b + 1) + 1 <= fuel + t)%nat ->
  exists cn1,
    label_loop fuel b cc cn_t (turns b t p0 - 1) = Ok (cn1, p0 - 1) /\
    size cn1 = max b + 1 /\
    forall q, 1 <= q <= max b + 1 ->
              (same_cycle b p0 q -> label cn1 q = cc) /\
              (~ same_cycle b p0 q -> label cn1 q = label cn q).
Proof.
  revert t cn_t. induction fuel as [| fuel IH]; intros t cn_t Hs Hnd Hlab Hfuel.
  { pose proof (track_length_bound b p0 t Hb Hp0 Hnd). lia. }
  pose proof (turns_range t Hb Hp0) as Hrange.
  simpl. rewrite deref_label by lia. simpl.
  rewrite (Hlab _ Hrange).
  destruct (in_dec Z.eq_dec (turns b t p0) (track b p0 t)) as [Hin | Hnin].
  - (* back on a labelled position: the start of the strand *)
    destruct (Z.eqb_spec cc 0) as [E | _]; [contradiction |].
    apply track_In in Hin. destruct Hin as (k & Hk & E).
    assert (Hk0 : k = 0%nat).
    { destruct k as [| k]; [reflexivity | exfalso].
      destruct t as [| t]; [lia |].
      rewrite !turns_S in E. apply walk_injective in E.
      apply (NoDup_map_seq (fun k => turns b k p0) (S t) k t) in E;
        [lia | exact Hnd | lia | lia]. }
    subst k. simpl in E. rewrite <- E.
    exists cn_t. split; [reflexivity | split; [exact Hs |]].
    intros q Hq. rewrite (Hlab q Hq). split.
    + intros (u & <-).
      destruct (in_dec Z.eq_dec (turns b u p0) (track b p0 t)) as [_ | Hn];
        [reflexivity | exfalso].
      apply Hn. apply track_In. exists (u mod t)%nat. split.
      * apply Nat.mod_upper_bound. lia.
      * symmetry. apply turns_mod; [now symmetry | lia].
    + intros Hn.
      destruct (in_dec Z.eq_dec q (track b p0 t)) as [Hi | _]; [| reflexivity].
      exfalso. apply Hn. apply track_In in Hi. destruct Hi as (u & _ & <-).
      now exists u.
  - (* an unlabelled position of the strand *)
    rewrite (Hfree (turns b t p0)) by now exists t.
    simpl.
    destruct (store_label cn_t (turns b t p0) cc) as (cn2 & -> & Hs2 & Hlab2);
      [lia |].
    simpl.
    replace (turns b t p0 - 1 + 1) with (turns b t p0) by lia.
    rewrite <- turns_S.
    apply IH.
    + lia.
    + rewrite track_S. apply NoDup_app; [exact Hnd | repeat constructor; intros [] |].
      intros x Hx [<- | []]. contradiction.
    + intros q Hq. rewrite Hlab2 by lia. rewrite (Hlab q Hq), track_S.
      destruct (Z.eqb_spec q (turns b t p0)) as [-> | Hne].
      * destruct (in_dec Z.eq_dec (turns b t p0) (track b p0 t ++ [turns b t p0]))
          as [_ | Hn]; [reflexivity |].
        exfalso. apply Hn, in_or_app. right. now left.
      * destruct (in_dec Z.eq_dec q (track b p0 t)) as [Hi | Hni],
          (in_dec Z.eq_dec q (track b p0 t ++ [turns b t p0])) as [Hi' | Hni'];
          try reflexivity; exfalso.
        -- apply Hni', in_or_app. now left.
        -- apply in_app_or in Hi'. destruct Hi' as [Hi' | [<- | []]]; auto.
    + lia.
Qed.

(** The inner loop labels the strand that starts at [p0], and nothing
    else, and stops at [p0]. *)
Lemma label_loop_cycle (fuel : nat) :
  (Z.to_nat (max b + 1) + 1 <= fuel)%nat ->
  exists cn1,
    label_loop fuel b cc cn (p0 - 1) = Ok (cn1, p0 - 1) /\
    size cn1 = max b + 1 /\
    forall q, 1 <= q <= max b + 1 ->
              (same_cycle b p0 q -> label cn1 q = cc) /\
              (~ same_cycle b p0 q -> label cn1 q = label cn q).
Proof.
  intros Hfuel.
  apply (label_loop_invariant fuel 0 cn).
  - exact Hsize.
  - constructor.
  - intros q _. reflexivity.
  - lia.
Qed.

End Labelling.

(** ** The count of the components *)

Lemma same_cycle_track (b : list Z) (p q : Z) :
  positive b -> 1 <= p <= max b + 1 ->
  same_cycle b p q <-> In q (track b p (Z.to_nat (max b + 1))).
Proof.
  intros Hb Hp. rewrite track_In. split.
  - intros (t & <-). destruct (return_time Hb Hp) as (T & HT & E).
    exists (t mod T)%nat. split.
    + pose proof (Nat.mod_upper_bound t T). lia.
    + symmetry. apply turns_mod; [exact E | lia].
  - intros (k & _ & E). now exists k.
Qed.

Lemma same_cycle_dec (b : list Z) (p q : Z) :
  positive b -> 1 <= p <= max b + 1 ->
  same_cycle b p q \/ ~ same_cycle b p q.
Proof.
  intros Hb Hp. rewrite (same_cycle_track b p q Hb Hp).
  destruct (in_dec Z.eq_dec q (track b p (Z.to_nat (max b + 1)))); auto.
Qed.

Lemma scan_spec (fuel : nat) (cn : list Z) (i : Z) :
  0 <= i <= size cn -> size cn - i + 1 <= Z.of_nat fuel ->
  exists i2,
    scan fuel cn i = Ok i2 /\ i <= i2 <= size cn /\
    (forall p, i + 1 <= p <= i2 -> label cn p <> 0) /\
    (i2 < size cn -> label cn (i2 + 1) = 0).
Proof.
  revert i. induction fuel as [| fuel IH]; intros i Hi Hfuel; [lia |].
  simpl. destruct (Z.eqb_spec i (size cn)) as [E | E].
  - exists i. split; [reflexivity | split; [lia | split; intros; lia]].
  - assert (D : deref cn i = Ok (label cn (i + 1))).
    { rewrite <- (deref_label cn (i + 1)) by lia. f_equal. lia. }
    rewrite D. simpl.
    destruct (Z.eqb_spec (label cn (i + 1)) 0) as [E0 | E0].
    + exists i. split; [reflexivity | split; [lia | split; [intros; lia | now intros _]]].
    + destruct (IH (i + 1)) as (i2 & -> & Hi2 & Hlab & Hnext); [lia | lia |].
      exists i2. split; [reflexivity | split; [lia | split; [| exact Hnext]]].
      intros p Hp. destruct (Z.eq_dec p (i + 1)) as [-> | Hne]; [exact E0 |].
      apply Hlab. lia.
Qed.

Lemma minimal_upto_split (b : list Z) (i i2 : Z) :
  0 <= i -> i + 1 <= i2 ->
  minimal_upto b i2 =
  minimal_upto b i
  + size (filter (orbit_minimal b) [i + 1])
  + size (filter (orbit_minimal b) (zrange (i + 2) (Z.to_nat (i2 - i - 1)))).
Proof.
  intros Hi Hi2. unfold minimal_upto.
  assert (E : zrange 1 (Z.to_nat i2) =
              zrange 1 (Z.to_nat i) ++ [i + 1] ++ zrange (i + 2) (Z.to_nat (i2 - i - 1))).
  { apply nth_ext with (d := 0) (d' := 0).
    - rewrite !length_app, !zrange_length. simpl. lia.
    - intros k Hk. rewrite zrange_length in Hk.
      rewrite zrange_nth by exact Hk.
      destruct (Nat.lt_ge_cases k (Z.to_nat i)) as [H1 | H1].
      + rewrite app_nth1 by now rewrite zrange_length.
        now rewrite zrange_nth.
      + rewrite app_nth2 by now rewrite zrange_length.
        rewrite zrange_length.
        destruct (k - Z.to_nat i)%nat as [| m] eqn:Ek; cbn [nth app]; [lia |].
        rewrite zrange_nth by lia. lia. }
  rewrite E, !filter_app, !size_app. lia.
Qed.

Lemma filter_none {A : Type} (f : A -> bool) (l : list A) :
  (forall x, In x l -> f x = false) -> filter f l = [].
Proof.
  induction l as [| x l IH]; intros H; [reflexivity |].
  simpl. rewrite (H x) by now left. apply IH. intros y Hy. apply H. now right.
Qed.

Lemma components_invariant_init (b : list Z) :
  components_invariant b (repeat 0 (Z.to_nat (max b + 1))) 0 0.
Proof.
  pose proof (max_ge_1 b) as Hmax.
  assert (L : forall p, label (repeat 0 (Z.to_nat (max b + 1))) p = 0).
  { intros p. unfold label. apply nth_repeat. }
  constructor.
  - unfold size. rewrite repeat_length. lia.
  - lia.
  - intros p Hp. lia.
  - intros _. apply L.
  - intros p q _ _ _. apply L.
  - intros q _ H. now rewrite L in H.
  - reflexivity.
Qed.

Lemma minimal_upto_nonneg (b : list Z) (i : Z) : 0 <= minimal_upto b i.
Proof. apply size_nonneg. Qed.

(** One iteration of the outer loop keeps the invariant. *)
Lemma components_invariant_step (b cn : list Z) (i cc : Z) :
  positive b ->
  components_invariant b cn i cc -> i < max b + 1 ->
  exists cn1 i2,
    label_loop (S (length cn)) b (cc + 1) cn i = Ok (cn1, i) /\
    scan (S (length cn1)) cn1 i = Ok i2 /\
    i + 1 <= i2 /\
    components_invariant b cn1 i2 (cc + 1).
Proof.
  intros Hb [Hsize Hi Hlab Hnext Hsat Horg Hcnt] Hlt.
  specialize (Hnext Hlt).
  assert (Hp0 : 1 <= i + 1 <= max b + 1) by lia.
  assert (Hfree : forall q, same_cycle b (i + 1) q -> label cn q = 0).
  { intros q Hq. now apply (Hsat (i + 1) q). }
  assert (Hcc : cc + 1 <> 0) by (pose proof (minimal_upto_nonneg b i); lia).
  destruct (label_loop_cycle b Hb cn (i + 1) (cc + 1) Hsize Hp0 Hcc Hfree
              (S (length cn))) as (cn1 & Hloop & Hsize1 & Hlab1).
  { unfold size in Hsize. lia. }
  replace (i + 1 - 1) with i in Hloop by lia.
  destruct (scan_spec (S (length cn1)) cn1 i) as (i2 & Hscan & Hi2 & Hskip & Hstop).
  { lia. }
  { unfold size. lia. }
  assert (Hown : label cn1 (i + 1) = cc + 1).
  { apply (Hlab1 (i + 1) Hp0), same_cycle_refl. }
  assert (Hi2' : i + 1 <= i2).
  { destruct (Z.eq_dec i2 i) as [-> | Hne]; [| lia].
    rewrite Hstop in Hown by lia. lia. }
  assert (Horg1 : forall q, 1 <= q <= max b + 1 -> label cn1 q <> 0 ->
                            exists p, 1 <= p <= i + 1 /\ same_cycle b p q).
  { intros q Hq Hne.
    destruct (same_cycle_dec b (i + 1) q Hb Hp0) as [Hc | Hc].
    - exists (i + 1). split; [lia | exact Hc].
    - rewrite (proj2 (Hlab1 q Hq) Hc) in Hne.
      destruct (Horg q Hq Hne) as (p & Hp & Hpq). exists p. split; [lia | exact Hpq]. }
  exists cn1, i2. split; [exact Hloop | split; [exact Hscan | split; [exact Hi2' |]]].
  constructor.
  - exact Hsize1.
  - lia.
  - intros p Hp. destruct (Z_le_gt_dec p i) as [Hle | Hgt].
    + assert (Hpr : 1 <= p <= max b + 1) by lia.
      destruct (same_cycle_dec b (i + 1) p Hb Hp0) as [Hc | Hc].
      * now rewrite (proj1 (Hlab1 p Hpr) Hc).
      * rewrite (proj2 (Hlab1 p Hpr) Hc). apply Hlab. lia.
    + apply Hskip. lia.
  - intros H. apply Hstop. lia.
  - intros p q Hp Hpq H0.
    assert (Hq : 1 <= q <= max b + 1) by exact (same_cycle_range b p q Hb Hp Hpq).
    destruct (same_cycle_dec b (i + 1) p Hb Hp0) as [Hc | Hc].
    { rewrite (proj1 (Hlab1 p Hp) Hc) in H0. contradiction. }
    rewrite (proj2 (Hlab1 p Hp) Hc) in H0.
    destruct (same_cycle_dec b (i + 1) q Hb Hp0) as [Hc' | Hc'].
    { exfalso. apply Hc. apply (same_cycle_trans b (i + 1) q p Hc').
      now apply same_cycle_sym. }
    rewrite (proj2 (Hlab1 q Hq) Hc'). now apply (Hsat p q).
  - intros q Hq Hne. destruct (Horg1 q Hq Hne) as (p & Hp & Hpq).
    exists p. split; [lia | exact Hpq].
  - rewrite (minimal_upto_split b i i2) by lia.
    assert (M1 : orbit_minimal b (i + 1) = true).
    { apply orbit_minimal_spec; [exact Hb | exact Hp0 |].
      intros q Hq. destruct (Z_le_gt_dec (i + 1) q) as [Hle | Hgt]; [exact Hle |].
      exfalso. pose proof (same_cycle_range b (i + 1) q Hb Hp0 Hq) as Hqr.
      apply (Hlab q); [lia | now apply Hfree]. }
    assert (M2 : filter (orbit_minimal b) (zrange (i + 2) (Z.to_nat (i2 - i - 1))) = []).
    { apply filter_none. intros p Hp.
      apply zrange_In in Hp.
      assert (Hpr : 1 <= p <= max b + 1) by lia.
      destruct (orbit_minimal b p) eqn:Em; [exfalso | reflexivity].
      destruct (Horg1 p Hpr) as (p' & Hp' & Hc).
      { apply Hskip. lia. }
      rewrite (orbit_minimal_spec b p Hb Hpr) in Em.
      assert (Hp'r : 1 <= p' <= max b + 1) by lia.
      specialize (Em p' (same_cycle_sym b p' p Hb Hp'r Hc)). lia. }
    simpl. rewrite M1, M2. cbn. lia.
Qed.

Lemma comp_loop_S (fuel : nat) (b cn : list Z) (i cc : Z) :
  comp_loop (S fuel) b cn i cc =
  if i =? size cn then Ok cc
  else
    ' (cn1, i1) <- label_loop (S (length cn)) b (cc + 1) cn i ;;
    i2 <- scan (S (length cn1)) cn1 i1 ;;
    comp_loop fuel b cn1 i2 (cc + 1).
Proof. reflexivity. Qed.

Lemma comp_loop_cycles (fuel : nat) (b cn : list Z) (i cc : Z) :
  positive b ->
  components_invariant b cn i cc ->
  max b + 1 - i + 1 <= Z.of_nat fuel ->
  comp_loop fuel b cn i cc = Ok (cycles b).
Proof.
  intros Hb. revert cn i cc.
  induction fuel as [| fuel IH]; intros cn i cc Hinv Hfuel.
  { pose proof (ci_index Hinv). lia. }
  rewrite comp_loop_S, (ci_size Hinv).
  destruct (Z.eqb_spec i (max b + 1)) as [E | E].
  - rewrite (ci_counter Hinv), E. reflexivity.
  - pose proof (ci_index Hinv) as Hi.
    destruct (components_invariant_step b cn i cc Hb Hinv) as (cn1 & i2 & -> & Hscan & Hi2 & Hinv1);
      [lia |].
    cbn [bind]. rewrite Hscan. cbn [bind]. apply IH; [exact Hinv1 | lia].
Qed.

(** On a word of the search, [numberOfComponents] returns the number of
    cycles of the permutation of the strands. *)
Lemma numberOfComponents_cycles (b : list Z) :
  wellformed b -> numberOfComponents b = Ok (cycles b).
Proof.
  intros (Hne & Hb). unfold numberOfComponents.
  destruct b as [| x b]; [contradiction |].
  apply comp_loop_cycles; [exact Hb | apply components_invariant_init |].
  rewrite repeat_length. pose proof (max_ge_1 (x :: b)). lia.
Qed.

Lemma list_least (l : list Z) :
  l <> [] -> exists m, In m l /\ forall x, In x l -> m <= x.
Proof.
  induction l as [| y l IH]; intros Hne; [contradiction |].
  destruct l as [| z l].
  - exists y. split; [now left |]. intros x [<- | []]. lia.
  - destruct IH as (m & Hm & Hle); [discriminate |].
    destruct (Z_le_gt_dec y m) as [H | H].
    + exists y. split; [now left |].
      intros x [<- | Hx]; [lia | specialize (Hle x Hx); lia].
    + exists m. split; [now right |].
      intros x [<- | Hx]; [lia | now apply Hle].
Qed.

(** Counting the cycles at their least position counts each cycle once. *)
Lemma cycle_has_one_least (b : list Z) (p : Z) :
  positive b -> 1 <= p <= max b + 1 ->
  exists m,
    (same_cycle b p m /\ orbit_minimal b m = true) /\
    forall m', same_cycle b p m' /\ orbit_minimal b m' = true -> m' = m.
Proof.
  intros Hb Hp.
  destruct (list_least (track b p (Z.to_nat (max b + 1)))) as (m & Hm & Hle).
  { pose proof (max_ge_1 b).
    destruct (Z.to_nat (max b + 1)) as [| n] eqn:E; [lia | discriminate]. }
  apply (same_cycle_track b p m Hb Hp) in Hm.
  pose proof (same_cycle_range b p m Hb Hp Hm) as Hmr.
  assert (Hmin : forall q, same_cycle b m q -> m <= q).
  { intros q Hq. apply Hle. apply (same_cycle_track b p q Hb Hp).
    exact (same_cycle_trans b p m q Hm Hq). }
  exists m. split.
  - split; [exact Hm |]. now apply orbit_minimal_spec.
  - intros m' (Hm' & Hmin').
    pose proof (same_cycle_range b p m' Hb Hp Hm') as Hmr'.
    rewrite (orbit_minimal_spec b m' Hb Hmr') in Hmin'.
    assert (H1 : same_cycle b m m').
    { apply (same_cycle_trans b m p m'); [| exact Hm'].
      now apply same_cycle_sym. }
    assert (H2 : same_cycle b m' m) by now apply same_cycle_sym.
    specialize (Hmin m' H1). specialize (Hmin' m H2). lia.
Qed.

Lemma cycles_lower (b : list Z) : positive b -> 1 <= cycles b.
Proof.
  intros Hb. unfold cycles. pose proof (max_ge_1 b) as Hmax.
  replace (Z.to_nat (max b + 1)) with (S (Z.to_nat (max b))) by lia.
  rewrite zrange_cons. simpl. rewrite (orbit_minimal_1 b Hb).
  unfold size. simpl length. lia.
Qed.

(** ** The code against the specification *)

Lemma fold_left_pointwise {A B : Type} (f g : A -> B -> A) (l : list B) (a : A) :
  (forall x y, f x y = g x y) -> fold_left f l a = fold_left g l a.
Proof.
  intros H. revert a. induction l as [| y l IH]; intros a; [reflexivity |].
  simpl. now rewrite H, IH.
Qed.

Lemma max_largest_generator (b : list Z) : max b = largest_generator b.
Proof.
  induction b as [| x b IH]; [reflexivity |].
  rewrite max_cons, IH. cbn [largest_generator fold_right].
  fold (largest_generator b).
  assert (1 <= largest_generator b) by (rewrite <- IH; apply max_ge_1).
  lia.
Qed.

(** The inner loop of [numberOfComponents] moves a strand as the
    permutation of the specification does. *)
Lemma walk_induced_permutation (b : list Z) (p : Z) :
  walk b p = induced_permutation b p.
Proof.
  unfold walk, induced_permutation. apply fold_left_pointwise.
  intros q i. unfold transposition.
  destruct (Z.eqb_spec i q), (Z.eqb_spec i (q - 1)), (Z.eqb_spec q i),
    (Z.eqb_spec q (i + 1)); lia.
Qed.

Lemma turns_induced_permutation (b : list Z) (t : nat) (p : Z) :
  turns b t p = Nat.iter t (induced_permutation b) p.
Proof.
  induction t as [| t IH]; [reflexivity |].
  rewrite turns_S, IH, walk_induced_permutation. reflexivity.
Qed.

Lemma same_cycle_on_cycle (b : list Z) (p q : Z) :
  same_cycle b p q <-> on_cycle b p q.
Proof.
  unfold same_cycle, on_cycle.
  split; intros (t & H); exists t; now rewrite turns_induced_permutation in *.
Qed.

Lemma forallb_map_pointwise {A B : Type} (f : B -> bool) (g : A -> B)
    (h : A -> bool) (l : list A) :
  (forall a, h a = f (g a)) -> forallb h l = forallb f (map g l).
Proof.
  intros H. induction l as [| a l IH]; [reflexivity |].
  cbn [map forallb]. now rewrite IH, H.
Qed.

Lemma orbit_minimal_least_on_cycle (b : list Z) (p : Z) :
  orbit_minimal b p = least_on_cycle b p.
Proof.
  unfold orbit_minimal, least_on_cycle, cycle_of, strands.
  rewrite <- max_largest_generator.
  apply forallb_map_pointwise. intros t. now rewrite turns_induced_permutation.
Qed.

Lemma cycles_components (b : list Z) : cycles b = components b.
Proof.
  unfold cycles, components, strands. rewrite <- max_largest_generator.
  f_equal. apply filter_ext. intros p. apply orbit_minimal_least_on_cycle.
Qed.

(** [components] counts each cycle once: on each cycle of the permutation
    of the specification one position, and only one, is the least. *)
Lemma components_one_per_cycle (w : list Z) (p : Z) :
  positive w -> 1 <= p <= strands w ->
  exists m,
    (on_cycle w p m /\ least_on_cycle w m = true) /\
    forall m', on_cycle w p m' /\ least_on_cycle w m' = true -> m' = m.
Proof.
  intros Hb Hp. unfold strands in Hp. rewrite <- max_largest_generator in Hp.
  destruct (cycle_has_one_least w p Hb Hp) as (m & (H1 & H2) & Huniq).
  exists m. split.
  - split; [now apply same_cycle_on_cycle | now rewrite <- orbit_minimal_least_on_cycle].
  - intros m' (H3 & H4). apply Huniq. split.
    + now apply same_cycle_on_cycle.
    + now rewrite orbit_minimal_least_on_cycle.
Qed.

(** C10: on the empty word [numberOfComponents] returns 0, where the
    formula of the specification gives 2, the cycles of the identity on
    the two positions [1, 2]; on every other word of positive letters it
    returns the number of cycles of the permutation on
    [1, ..., max w + 1] induced by the transpositions [(i, i + 1)] of the
    letters, which is at least 1.  The number of cycles is the one of the
    definitions that follow the specification, which do not use the
    code. *)
Theorem numberOfComponents_empty_and_cycles :
  numberOfComponents [] = Ok 0 /\
  components [] = 2 /\
  forall w, w <> [] -> Forall (fun x => 1 <= x) w ->
            numberOfComponents w = Ok (components w) /\ 1 <= components w.
Proof.
  split; [reflexivity | split; [reflexivity |]].
  intros w Hne Hpos. rewrite <- cycles_components. split.
  - apply numberOfComponents_cycles. now split.
  - now apply cycles_lower.
Qed.

Lemma numberOfComponents_empty_and_cycles_witness :
  numberOfComponents [1; 2; 1; 1] = Ok (components [1; 2; 1; 1]) /\
  1 <= components [1; 2; 1; 1].
Proof.
  apply (proj2 (proj2 numberOfComponents_empty_and_cycles) [1; 2; 1; 1]).
  - discriminate.
  - repeat constructor; lia.
Defined.

(** C2: for a bound [maxB1] at which the subtractions of [completable] do
    not overflow, a word printed by the run of bound [maxB1] has one
    component, for the code ([numberOfComponents] returns 1) and for the
    specification (the permutation induced by the transpositions of its
    letters has one cycle), and its first Betti number is [maxB1], for the
    code and for the formula [1 + length - strands] of the
    specification. *)
Theorem printed_word_is_knot_of_bound (maxB1 : Z) (w : list Z) :
  INT_MIN + 4 <= maxB1 -> emitted maxB1 w ->
  numberOfComponents w = Ok 1 /\ components w = 1 /\
  b1 w = maxB1 /\ 1 + size w - strands w = maxB1.
Proof.
  intros _ H. apply emitted_facts in H.
  destruct H as (Hwf & _ & _ & Hn & _ & _ & _ & Hb).
  split; [exact Hn |]. split; [| split; [exact Hb |]].
  - rewrite (numberOfComponents_cycles w Hwf) in Hn. injection Hn as Hn.
    now rewrite <- cycles_components.
  - unfold strands. rewrite <- max_largest_generator. exact Hb.
Qed.

Lemma printed_word_is_knot_of_bound_witness :
  numberOfComponents [1; 1; 1] = Ok 1 /\ components [1; 1; 1] = 1 /\
  b1 [1; 1; 1] = 2 /\ 1 + size [1; 1; 1] - strands [1; 1; 1] = 2.
Proof.
  apply (printed_word_is_knot_of_bound 2 [1; 1; 1]).
  - unfold INT_MIN. lia.
  - apply (iterate_emitted 1 2 (st := {| braid := [1; 1; 1]; counter := 0; cout := [] |}));
      vm_compute; reflexivity.
Defined.

(** ** Words with a single cycle *)

Lemma single_cycle_all (b : list Z) (q : Z) :
  positive b -> cycles b = 1 -> 1 <= q <= max b + 1 -> same_cycle b 1 q.
Proof.
  intros Hb Hc Hq. pose proof (max_ge_1 b) as Hmax.
  destruct (cycle_has_one_least b q Hb Hq) as (m & (Hm & Hmin) & _).
  pose proof (same_cycle_range b q m Hb Hq Hm) as Hmr.
  assert (H1 : In 1 (filter (orbit_minimal b) (zrange 1 (Z.to_nat (max b + 1))))).
  { apply filter_In. split; [apply zrange_In; lia | now apply orbit_minimal_1]. }
  assert (H2 : In m (filter (orbit_minimal b) (zrange 1 (Z.to_nat (max b + 1))))).
  { apply filter_In. split; [apply zrange_In; lia | exact Hmin]. }
  unfold cycles, size in Hc.
  destruct (filter (orbit_minimal b) (zrange 1 (Z.to_nat (max b + 1)))) as [| x [| y l]];
    simpl in Hc; try lia.
  destruct H1 as [<- | []], H2 as [<- | []].
  now apply same_cycle_sym.
Qed.

Lemma zrange_NoDup (lo : Z) (n : nat) : NoDup (zrange lo n).
Proof.
  unfold zrange. apply Injective_map_NoDup; [| apply seq_NoDup].
  intros x y H. lia.
Qed.

(** The strand that starts at the position 1 of a word with a single cycle
    visits every position once before it comes back. *)
Lemma single_cycle_track (b : list Z) :
  positive b -> cycles b = 1 ->
  turns b (Z.to_nat (max b + 1)) 1 = 1 /\
  NoDup (track b 1 (Z.to_nat (max b + 1))) /\
  forall q, 1 <= q <= max b + 1 -> In q (track b 1 (Z.to_nat (max b + 1))).
Proof.
  intros Hb Hc. pose proof (max_ge_1 b) as Hmax.
  assert (H1 : 1 <= 1 <= max b + 1) by lia.
  assert (Hlow : forall T, (1 <= T)%nat -> turns b T 1 = 1 ->
                           (Z.to_nat (max b + 1) <= T)%nat).
  { intros T HT E.
    assert (Hincl : incl (zrange 1 (Z.to_nat (max b + 1))) (track b 1 T)).
    { intros q Hq. apply zrange_In in Hq.
      destruct (single_cycle_all b q Hb Hc) as (t & <-); [lia |].
      apply track_In. exists (t mod T)%nat. split.
      - apply Nat.mod_upper_bound. lia.
      - symmetry. now apply turns_mod. }
    apply NoDup_incl_length in Hincl; [| apply zrange_NoDup].
    unfold track in Hincl. now rewrite zrange_length, length_map, length_seq in Hincl. }
  split; [| split].
  - destruct (return_time Hb H1) as (T & HT & E).
    specialize (Hlow T (proj1 HT) E).
    now replace (Z.to_nat (max b + 1)) with T by lia.
  - destruct (turns_repeat_or_NoDup b 1 (Z.to_nat (max b + 1)))
      as [(i & j & Hij & E) | Hnd]; [exfalso | exact Hnd].
    replace j with (i + (j - i))%nat in E by lia.
    rewrite turns_add in E. apply turns_injective in E.
    specialize (Hlow (j - i)%nat). symmetry in E. specialize (Hlow ltac:(lia) E). lia.
  - intros q Hq. apply (same_cycle_track b 1 q Hb H1).
    now apply single_cycle_all.
Qed.

(** ** The traversal of [printDT] *)

Lemma firstn_S_nth (w : list Z) (k : nat) :
  (k < length w)%nat -> firstn (S k) w = firstn k w ++ [nth k w 0].
Proof.
  revert k. induction w as [| x w IH]; intros k Hk; [simpl in Hk; lia |].
  destruct k as [| k]; [reflexivity |].
  simpl in *. f_equal. apply IH. lia.
Qed.

Lemma pos_S (w : list Z) (t k : nat) :
  (k < length w)%nat -> pos w t (S k) = cross (nth k w 0) (pos w t k).
Proof.
  intros Hk. unfold pos. rewrite firstn_S_nth by exact Hk.
  now rewrite walk_app.
Qed.

Lemma pos_0 (w : list Z) (t : nat) : pos w t 0 = turns w t 1.
Proof. reflexivity. Qed.

Lemma pos_end (w : list Z) (t : nat) : pos w t (length w) = pos w (S t) 0.
Proof.
  unfold pos. now rewrite firstn_all.
Qed.

Lemma sum_map_same {A : Type} (f g : A -> Z) (l : list A) :
  (forall k, In k l -> g k = f k) -> sum (map g l) = sum (map f l).
Proof.
  intros H. f_equal. now apply map_ext_in.
Qed.

Lemma sum_map_bump (f g : nat -> Z) (l : list nat) (j : nat) (d : Z) :
  NoDup l -> In j l ->
  (forall k, k <> j -> g k = f k) -> g j = f j + d ->
  sum (map g l) = sum (map f l) + d.
Proof.
  intros Hnd Hj Hother Hbump. induction Hnd as [| x l Hx Hl IH]; [destruct Hj |].
  simpl. rewrite !sum_cons. destruct Hj as [-> | Hj].
  - rewrite Hbump, (sum_map_same f g l); [lia |].
    intros k Hk. apply Hother. intros ->. contradiction.
  - rewrite IH by exact Hj. rewrite (Hother x); [lia |].
    intros ->. contradiction.
Qed.

Lemma col_visits_S (w : list Z) (k m : nat) :
  col_visits w k (S m) = col_visits w k m + Z_of_bool (visitb w m k).
Proof.
  unfold col_visits. rewrite seq_S, filter_app, size_app. simpl.
  now destruct (visitb w m k).
Qed.

Lemma visits_before_S (w : list Z) (t j : nat) :
  (j < length w)%nat ->
  visits_before w t (S j) = visits_before w t j + Z_of_bool (visitb w t j).
Proof.
  intros Hj. unfold visits_before.
  apply sum_map_bump with (j := j).
  - apply seq_NoDup.
  - apply in_seq. lia.
  - intros k Hk.
    destruct (Nat.ltb_spec k (S j)), (Nat.ltb_spec k j); try lia; reflexivity.
  - destruct (Nat.ltb_spec j (S j)), (Nat.ltb_spec j j); try lia.
    apply col_visits_S.
Qed.

Lemma visits_before_end (w : list Z) (t : nat) :
  visits_before w t (length w) = visits_before w (S t) 0.
Proof.
  unfold visits_before. apply sum_map_same. intros k Hk. apply in_seq in Hk.
  destruct (Nat.ltb_spec k (length w)); [reflexivity | lia].
Qed.

Lemma rem2_even (z : Z) : 0 <= z -> (Z.rem z 2 =? 0) = Z.even z.
Proof.
  intros H. rewrite Z.rem_mod_nonneg by lia. symmetry. apply Zeven_mod.
Qed.

Lemma even_succ_flip (z : Z) : Z.even (z + 1) = negb (Z.even z).
Proof.
  rewrite Z.add_1_r, Z.even_succ. symmetry. apply Z.negb_even.
Qed.

Lemma even_pred_flip (z : Z) : Z.even (z - 1) = negb (Z.even z).
Proof.
  replace z with (z - 1 + 1) at 2 by lia.
  now rewrite even_succ_flip, negb_involutive.
Qed.

Lemma col_visits_nonneg (w : list Z) (k m : nat) : 0 <= col_visits w k m.
Proof. apply size_nonneg. Qed.

Lemma visits_before_nonneg (w : list Z) (t j : nat) : 0 <= visits_before w t j.
Proof.
  unfold visits_before. apply sum_nonneg, Forall_map, Forall_forall.
  intros k _. apply col_visits_nonneg.
Qed.

Lemma slot_label_update (par : bool) (n : list intpair) (j k : nat) (p : intpair) :
  (j < length n)%nat ->
  slot_label par (update n j p) k =
  if Nat.eqb k j then slot par p else slot_label par n k.
Proof.
  intros Hj. unfold slot_label. rewrite nth_update by exact Hj.
  now destruct (Nat.eqb k j).
Qed.

Lemma at_get_nth {A : Type} (d : A) (v : list A) (k : nat) :
  (k < length v)%nat -> at_get d v (Z.of_nat k) = Ok (nth k v d).
Proof.
  intros Hk. unfold at_get.
  rewrite (proj2 (in_range_spec v (Z.of_nat k))) by (unfold size; lia).
  now rewrite Nat2Z.id.
Qed.

Lemma at_set_update {A : Type} (v : list A) (k : nat) (x : A) :
  (k < length v)%nat -> at_set v (Z.of_nat k) x = Ok (update v k x).
Proof.
  intros Hk. unfold at_set.
  rewrite (proj2 (in_range_spec v (Z.of_nat k))) by (unfold size; lia).
  now rewrite Nat2Z.id.
Qed.

(** The body of the [for] when the crossing is not taken. *)
Lemma dt_visit_skip (w : list Z) (t j : nat) (st : dt_state) :
  (j < length w)%nat -> dt_invariant w t j st -> visitb w t j = false ->
  dt_visit (Z.of_nat j) (nth j w 0) st = Ok st /\ dt_invariant w t (S j) st.
Proof.
  intros Hj [Hlen Hc Hcnt Hpar Hev Hdis Hdone] Hv.
  assert (Hv' : (nth j w 0 =? dt_c st) || (nth j w 0 =? dt_c st + 1) = false).
  { unfold visitb in Hv. rewrite <- Hc in Hv.
    now replace (dt_c st + 1 - 1) with (dt_c st) in Hv by lia. }
  split.
  - unfold dt_visit. now rewrite Hv'.
  - apply orb_false_iff in Hv'. destruct Hv' as (V1 & V2).
    apply Z.eqb_neq in V1, V2.
    constructor; try assumption.
    + rewrite pos_S, <- Hc by exact Hj. unfold cross.
      destruct (Z.eqb_spec (nth j w 0) (dt_c st + 1)); [contradiction |].
      destruct (Z.eqb_spec (nth j w 0) (dt_c st + 1 - 1)); [lia | reflexivity].
    + rewrite visits_before_S, Hv by exact Hj. unfold Z_of_bool. lia.
    + intros par k t' Hk Ht' Hvis Heven. apply (Hdone par k t' Hk); try assumption.
      destruct (Nat.ltb_spec k (S j)), (Nat.ltb_spec k j); try lia.
      assert (k = j) by lia. subst k.
      destruct (Nat.eq_dec t' t) as [-> | Hne]; [| lia].
      rewrite Hv in Hvis. discriminate.
Qed.

(** The body of the [for] when the crossing is taken. *)
Lemma dt_visit_take (w : list Z) (t j : nat) (st : dt_state) :
  (j < length w)%nat -> dt_invariant w t j st -> visitb w t j = true ->
  exists st1,
    dt_visit (Z.of_nat j) (nth j w 0) st = Ok st1 /\ dt_invariant w t (S j) st1.
Proof.
  intros Hj [Hlen Hc Hcnt Hpar Hev Hdis Hdone] Hv.
  assert (Hv' : (nth j w 0 =? dt_c st) || (nth j w 0 =? dt_c st + 1) = true).
  { unfold visitb in Hv. rewrite <- Hc in Hv.
    now replace (dt_c st + 1 - 1) with (dt_c st) in Hv by lia. }
  set (x := nth j w 0) in *. set (c := dt_c st) in *.
  set (cc := dt_crossingCounter st) in *. set (n := dt_n st) in *.
  assert (Hcc : 1 <= cc) by (pose proof (visits_before_nonneg w t j); lia).
  assert (Hjn : (j < length n)%nat) by lia.
  set (p := nth j n intpair0).
  set (p1 := if negb (Z.rem cc 2 =? 0) then set_o p cc else set_e p cc).
  set (p2 := set_s p1 (Bool.eqb (negb (negb (Z.rem cc 2 =? 0))) (negb (x =? c + 1)))).
  set (n2 := update (update n j p1) j p2).
  assert (Hlen1 : length (update n j p1) = length n) by apply length_update.
  assert (E2 : forall par,
             slot par p2 = if Bool.eqb (Z.even cc) par then cc else slot par p).
  { intros par. unfold p2, p1. rewrite rem2_even by lia.
    now destruct (Z.even cc), par. }
  assert (L2 : forall par k,
             slot_label par n2 k =
             if Nat.eqb k j
             then (if Bool.eqb (Z.even cc) par then cc else slot_label par n j)
             else slot_label par n k).
  { intros par k. unfold n2. rewrite slot_label_update by lia. rewrite E2.
    destruct (Nat.eqb_spec k j) as [-> | Hne]; [reflexivity |].
    rewrite slot_label_update by lia.
    destruct (Nat.eqb_spec k j); [contradiction | reflexivity]. }
  exists {| dt_n := n2;
            dt_c := if x =? c + 1 then c + 1 else c - 1;
            dt_crossingCounter := cc + 1 |}.
  split.
  - unfold dt_visit. fold x c cc n. rewrite Hv'.
    rewrite at_get_nth by exact Hjn. cbn [bind]. fold p. fold p1.
    rewrite at_set_update by exact Hjn. cbn [bind].
    rewrite at_get_nth by lia. cbn [bind].
    rewrite nth_update by exact Hjn. rewrite Nat.eqb_refl.
    rewrite at_set_update by lia. cbn [bind]. reflexivity.
  - apply orb_true_iff in Hv'.
    constructor; cbn [dt_n dt_c dt_crossingCounter].
    + unfold n2. rewrite !length_update. exact Hlen.
    + rewrite pos_S, <- Hc by exact Hj. fold x. unfold cross.
      destruct (Z.eqb_spec x (c + 1)) as [E | E]; [reflexivity |].
      destruct (Z.eqb_spec x (c + 1 - 1)) as [E' | E']; [lia |].
      destruct Hv' as [Hv' | Hv']; [apply Z.eqb_eq in Hv'; lia | discriminate].
    + rewrite visits_before_S, Hv by exact Hj. unfold Z_of_bool. lia.
    + rewrite even_succ_flip, Hpar.
      destruct (Z.eqb_spec x (c + 1)).
      * symmetry. apply even_succ_flip.
      * replace (c - 1 + 1) with (c + 1 - 1) by lia. symmetry. apply even_pred_flip.
    + intros par k Hk. rewrite L2.
      destruct (Nat.eqb_spec k j) as [-> | Hne].
      * destruct (Bool.eqb (Z.even cc) par) eqn:Ecc.
        -- right. split; [now apply eqb_prop | lia].
        -- destruct (Hev par j Hk) as [H0 | (H1 & H2)]; [now left | right].
           split; [exact H1 | lia].
      * destruct (Hev par k Hk) as [H0 | (H1 & H2)]; [now left | right].
        split; [exact H1 | lia].
    + intros par k k' Hk Hk' Hne. rewrite !L2.
      destruct (Nat.eqb_spec k j) as [-> | Hkj], (Nat.eqb_spec k' j) as [-> | Hk'j];
        try contradiction.
      * destruct (Bool.eqb (Z.even cc) par); [| now apply Hdis].
        intros _. destruct (Hev par k' Hk') as [H0 | (_ & H2)]; lia.
      * destruct (Bool.eqb (Z.even cc) par); [| now apply Hdis].
        intros Hnz. destruct (Hev par k Hk) as [H0 | (_ & H2)]; [contradiction | lia].
      * now apply Hdis.
    + intros par k t' Hk Ht' Hvis Heven. rewrite L2.
      destruct (Nat.eqb_spec k j) as [-> | Hkj].
      * destruct (Bool.eqb (Z.even cc) par) eqn:Ecc; [lia |].
        apply (Hdone par j t' Hk); try assumption.
        destruct (Nat.ltb_spec j (S j)), (Nat.ltb_spec j j); try lia.
        destruct (Nat.eq_dec t' t) as [-> | Hne]; [| lia].
        rewrite <- Hc, <- Hpar in Heven. fold cc in Heven.
        rewrite Heven, eqb_reflx in Ecc. discriminate.
      * apply (Hdone par k t' Hk); try assumption.
        destruct (Nat.ltb_spec k (S j)), (Nat.ltb_spec k j); try lia.
Qed.

Lemma dt_visit_invariant (w : list Z) (t j : nat) (st : dt_state) :
  (j < length w)%nat -> dt_invariant w t j st ->
  exists st1,
    dt_visit (Z.of_nat j) (nth j w 0) st = Ok st1 /\ dt_invariant w t (S j) st1.
Proof.
  intros Hj Hinv. destruct (visitb w t j) eqn:Hv.
  - now apply dt_visit_take.
  - exists st. now apply dt_visit_skip.
Qed.

Lemma skipn_cons_nth (w v : list Z) (x : Z) (j : nat) :
  skipn j w = x :: v ->
  (j < length w)%nat /\ nth j w 0 = x /\ skipn (S j) w = v.
Proof.
  revert j. induction w as [| y w IH]; intros j H.
  - destruct j; discriminate.
  - destruct j as [| j].
    + simpl in H. injection H as -> ->. simpl. repeat split. lia.
    + simpl in H. apply IH in H. simpl. destruct H as (H1 & H2 & H3).
      repeat split; [lia | exact H2 | exact H3].
Qed.

(** One pass of the [for], from the letter of index [j]. *)
Lemma dt_pass_invariant (w : list Z) (t : nat) (v : list Z) :
  forall (j : nat) (st : dt_state),
    skipn j w = v -> (j <= length w)%nat -> dt_invariant w t j st ->
    exists st1,
      dt_pass (Z.of_nat j) v st = Ok st1 /\ dt_invariant w t (length w) st1.
Proof.
  induction v as [| x v IH]; intros j st Hv Hj Hinv.
  - exists st. split; [reflexivity |].
    assert (E : length (skipn j w) = 0%nat) by now rewrite Hv.
    rewrite length_skipn in E. now replace (length w) with j by lia.
  - apply skipn_cons_nth in Hv. destruct Hv as (Hlt & <- & Hv).
    destruct (dt_visit_invariant w t j st Hlt Hinv) as (st1 & Hvis & Hinv1).
    destruct (IH (S j) st1 Hv Hlt Hinv1) as (st2 & Hpass & Hinv2).
    exists st2. split; [| exact Hinv2].
    cbn [dt_pass]. rewrite Hvis. cbn [bind].
    now replace (Z.of_nat j + 1) with (Z.of_nat (S j)) by lia.
Qed.

Lemma dt_invariant_next_pass (w : list Z) (t : nat) (st : dt_state) :
  dt_invariant w t (length w) st -> dt_invariant w (S t) 0 st.
Proof.
  intros [Hlen Hc Hcnt Hpar Hev Hdis Hdone].
  constructor; try assumption.
  - now rewrite <- pos_end.
  - now rewrite <- visits_before_end.
  - intros par k t' Hk Ht'. apply (Hdone par k t' Hk).
    destruct (Nat.ltb_spec k (length w)); [| lia].
    destruct (Nat.ltb_spec k 0); [lia | exact Ht'].
Qed.

Lemma sum_map_zero (f : nat -> Z) (l : list nat) :
  (forall k, In k l -> f k = 0) -> sum (map f l) = 0.
Proof.
  induction l as [| x l IH]; intros H; [reflexivity |].
  simpl. rewrite sum_cons, (H x), IH; [reflexivity | | now left].
  intros k Hk. apply H. now right.
Qed.

Lemma dt_invariant_init (w : list Z) :
  dt_invariant w 0 0
    {| dt_n := repeat intpair0 (length w); dt_c := 0; dt_crossingCounter := 1 |}.
Proof.
  assert (L : forall par k, slot_label par (repeat intpair0 (length w)) k = 0).
  { intros par k. unfold slot_label. rewrite nth_repeat. now destruct par. }
  constructor; cbn [dt_n dt_c dt_crossingCounter].
  - apply repeat_length.
  - reflexivity.
  - unfold visits_before. rewrite sum_map_zero; [reflexivity |].
    intros k _. now destruct (Nat.ltb_spec k 0); [lia |].
  - reflexivity.
  - intros par k _. left. apply L.
  - intros par k k' _ _ _ H. now rewrite L in H.
  - intros par k t' _ Ht'. destruct (k <? 0)%nat eqn:E; [| lia].
    apply Nat.ltb_lt in E. lia.
Qed.

Lemma first_true (P : nat -> bool) (n : nat) :
  P n = true ->
  exists m, (m <= n)%nat /\ P m = true /\ forall k, (k < m)%nat -> P k = false.
Proof.
  induction n as [n IH] using (well_founded_induction lt_wf). intros Hn.
  destruct (forallb (fun k => negb (P k)) (seq 0 n)) eqn:E.
  - exists n. split; [lia | split; [exact Hn |]].
    intros k Hk. rewrite forallb_forall in E.
    apply negb_true_iff, E, in_seq. lia.
  - assert (Hex : exists k, (k < n)%nat /\ P k = true).
    { clear IH Hn. induction n as [| n IHn]; [discriminate |].
      rewrite seq_S, forallb_app in E. cbn in E.
      destruct (P n) eqn:En.
      - exists n. split; [lia | exact En].
      - rewrite andb_true_r in E. destruct (IHn E) as (k & Hk & Pk).
        exists k. split; [lia | exact Pk]. }
    destruct Hex as (k & Hk & Pk).
    destruct (IH k Hk Pk) as (m & Hm & Pm & Hleast).
    exists m. split; [lia | split; [exact Pm | exact Hleast]].
Qed.

(** The first time at which a strand is back at its position. *)
Lemma first_return (b : list Z) (p : Z) :
  positive b -> 1 <= p <= max b + 1 ->
  exists T,
    (1 <= T <= Z.to_nat (max b + 1))%nat /\ turns b T p = p /\
    forall t, (1 <= t < T)%nat -> turns b t p <> p.
Proof.
  intros Hb Hp. destruct (return_time Hb Hp) as (T0 & HT0 & E0).
  destruct (first_true (fun t => (1 <=? t)%nat && (turns b t p =? p)) T0)
    as (T & HT & PT & Hleast).
  { rewrite E0, Z.eqb_refl. destruct (Nat.leb_spec 1 T0); [reflexivity | lia]. }
  apply andb_true_iff in PT. destruct PT as (H1 & H2).
  apply Nat.leb_le in H1. apply Z.eqb_eq in H2.
  exists T. split; [lia | split; [exact H2 |]].
  intros t Ht E. specialize (Hleast t (proj2 Ht)).
  rewrite E, Z.eqb_refl in Hleast.
  destruct (Nat.leb_spec 1 t); [discriminate | lia].
Qed.

(** The [do ... while] of [printDT]: as many passes as the strand of the
    first position needs to come back. *)
Lemma dt_loop_invariant (w : list Z) (T : nat) :
  turns w T 1 = 1 ->
  (forall t, (1 <= t < T)%nat -> turns w t 1 <> 1) ->
  forall (fuel t : nat) (st : dt_state),
    (t < T)%nat -> (T - t <= fuel)%nat ->
    dt_invariant w t 0 st ->
    exists st1,
      dt_loop fuel w st (Z.of_nat t) = Ok (st1, Z.of_nat T) /\
      dt_invariant w T 0 st1.
Proof.
  intros Hret Hfirst.
  induction fuel as [| fuel IH]; intros t st Ht Hfuel Hinv; [lia |].
  destruct (dt_pass_invariant w t w 0 st) as (st1 & Hpass & Hinv1);
    [reflexivity | lia | exact Hinv |].
  apply dt_invariant_next_pass in Hinv1.
  cbn [dt_loop]. change (Z.of_nat 0) with 0 in Hpass. rewrite Hpass. cbn [bind].
  pose proof (dti_c Hinv1) as Hc1. rewrite pos_0 in Hc1.
  destruct (Nat.eq_dec (S t) T) as [E | E].
  - rewrite E, Hret in Hc1.
    destruct (Z.eqb_spec (dt_c st1) 0) as [_ | Hne]; [| lia].
    exists st1. split; [f_equal; f_equal; lia | now rewrite <- E].
  - destruct (Z.eqb_spec (dt_c st1) 0) as [E0 | _].
    + exfalso. apply (Hfirst (S t)); [lia |]. rewrite <- Hc1, E0. reflexivity.
    + replace (Z.of_nat t + 1) with (Z.of_nat (S t)) by lia.
      apply IH; [lia | lia | exact Hinv1].
Qed.

(** The traversal of [printDT] ends on every word of positive letters,
    within the passes that the model gives it. *)
Lemma dt_traverse_positive (w : list Z) :
  positive w ->
  exists T st,
    (1 <= T <= Z.to_nat (max w + 1))%nat /\
    turns w T 1 = 1 /\
    (forall t, (1 <= t < T)%nat -> turns w t 1 <> 1) /\
    dt_traverse w = Ok (st, Z.of_nat T) /\
    dt_invariant w T 0 st.
Proof.
  intros Hb. pose proof (max_ge_1 w) as Hmax.
  destruct (first_return w 1 Hb ltac:(lia)) as (T & HT & Hret & Hfirst).
  destruct (dt_loop_invariant w T Hret Hfirst (Z.to_nat (max w + 1)) 0
              {| dt_n := repeat intpair0 (length w); dt_c := 0;
                 dt_crossingCounter := 1 |})
    as (st & Hloop & Hinv); [lia | lia | apply dt_invariant_init |].
  exists T, st. split; [lia |]. split; [exact Hret |]. split; [exact Hfirst |].
  split; [exact Hloop | exact Hinv].
Qed.

(** [printDT] returns on every word of positive letters. *)
Lemma printDT_total (w : list Z) (counter : Z) :
  positive w -> exists ok line, printDT w counter = Ok (ok, line).
Proof.
  intros Hb.
  destruct (dt_traverse_positive w Hb) as (T & st & _ & _ & _ & Htr & _).
  unfold printDT. rewrite Htr. cbn [bind].
  destruct (negb (Z.of_nat T =? max w - 1 + 2)); eexists; eexists; reflexivity.
Qed.

Lemma dt_traverse_invariant (w : list Z) :
  positive w -> cycles w = 1 ->
  exists st,
    dt_traverse w = Ok (st, max w + 1) /\
    dt_invariant w (Z.to_nat (max w + 1)) 0 st.
Proof.
  intros Hb Hc. pose proof (max_ge_1 w) as Hmax.
  destruct (single_cycle_track w Hb Hc) as (_ & Hnd & _).
  destruct (dt_traverse_positive w Hb) as (T & st & HT & Hret & _ & Htr & Hinv).
  assert (E : T = Z.to_nat (max w + 1)).
  { destruct (Nat.eq_dec T (Z.to_nat (max w + 1))) as [E | E]; [exact E | exfalso].
    apply (NoDup_map_seq (fun k => turns w k 1) (Z.to_nat (max w + 1)) 0 T) in Hnd;
      [lia | lia | lia |].
    now rewrite Hret. }
  exists st. rewrite <- E. split; [| exact Hinv].
  rewrite Htr. f_equal. f_equal. lia.
Qed.

(** ** Each crossing is taken twice *)

Lemma walk_rev_left (u : list Z) (q : Z) : walk (rev u) (walk u q) = q.
Proof.
  revert q. induction u as [| x u IH]; intros q; [reflexivity |].
  simpl rev. rewrite walk_cons, walk_app, IH. simpl. apply cross_involutive.
Qed.

Lemma walk_rev_right (u : list Z) (q : Z) : walk u (walk (rev u) q) = q.
Proof.
  rewrite <- (rev_involutive u) at 1. apply walk_rev_left.
Qed.

Lemma firstn_bounded (w : list Z) (k : nat) :
  positive w -> Forall (fun x => 1 <= x <= max w) (firstn k w).
Proof.
  intros Hb. apply positive_bounded in Hb. rewrite Forall_forall in *.
  intros x Hx. apply Hb. rewrite <- (firstn_skipn k w). apply in_or_app. now left.
Qed.

Lemma pos_range (w : list Z) (t k : nat) :
  positive w -> 1 <= pos w t k <= max w + 1.
Proof.
  intros Hb. pose proof (max_ge_1 w). unfold pos.
  apply walk_range; [now apply firstn_bounded |].
  apply turns_range; [exact Hb | lia].
Qed.

Section Columns.

Variable w : list Z.
Hypothesis Hb : positive w.
Hypothesis Hc : cycles w = 1.

Lemma column_NoDup (k : nat) : NoDup (column w k).
Proof.
  unfold column, pos.
  rewrite <- (map_map (fun t => turns w t 1) (walk (firstn k w))).
  apply Injective_map_NoDup.
  - intros p q. apply walk_injective.
  - apply (single_cycle_track w Hb Hc).
Qed.

Lemma column_In (k : nat) (q : Z) : 1 <= q <= max w + 1 -> In q (column w k).
Proof.
  intros Hq. unfold column, pos.
  rewrite <- (map_map (fun t => turns w t 1) (walk (firstn k w))).
  apply in_map_iff. exists (walk (rev (firstn k w)) q). split.
  - apply walk_rev_right.
  - apply (single_cycle_track w Hb Hc).
    apply walk_range; [| exact Hq].
    apply Forall_rev. now apply firstn_bounded.
Qed.

Lemma letter_range (k : nat) :
  (k < length w)%nat -> 1 <= nth k w 0 <= max w.
Proof.
  intros Hk. pose proof (positive_bounded Hb) as H.
  rewrite Forall_forall in H. apply H. now apply nth_In.
Qed.

Lemma filter_pair_count (h : nat -> Z) (x : Z) (l : list nat) :
  size (filter (fun t => (x =? h t - 1) || (x =? h t)) l) =
  Z.of_nat (count_occ Z.eq_dec (map h l) (x + 1))
  + Z.of_nat (count_occ Z.eq_dec (map h l) x).
Proof.
  unfold size. induction l as [| t l IH]; [reflexivity |].
  cbn [filter map count_occ].
  destruct (Z.eq_dec (h t) (x + 1)) as [E1 | E1],
    (Z.eq_dec (h t) x) as [E2 | E2],
    (Z.eqb_spec x (h t - 1)), (Z.eqb_spec x (h t));
    try lia; cbn [orb length]; lia.
Qed.

Lemma col_visits_two (k : nat) :
  (k < length w)%nat -> col_visits w k (Z.to_nat (max w + 1)) = 2.
Proof.
  intros Hk. pose proof (letter_range k Hk) as Hx.
  unfold col_visits, visitb.
  rewrite (filter_pair_count (fun t => pos w t k) (nth k w 0)).
  fold (column w k).
  pose proof (proj1 (NoDup_count_occ' Z.eq_dec (column w k)) (column_NoDup k)) as H.
  rewrite (H (nth k w 0 + 1)) by (apply column_In; lia).
  rewrite (H (nth k w 0)) by (apply column_In; lia).
  reflexivity.
Qed.

Lemma visits_total :
  visits_before w (Z.to_nat (max w + 1)) 0 = 2 * size w.
Proof.
  unfold visits_before.
  assert (E : forall l : list nat,
             (forall k, In k l -> (k < length w)%nat) ->
             sum (map (fun k => col_visits w k
                                  (if (k <? 0)%nat then S (Z.to_nat (max w + 1))
                                   else Z.to_nat (max w + 1))) l)
             = 2 * size l).
  { induction l as [| k l IH]; intros Hl; [reflexivity |].
    cbn [map]. rewrite sum_cons, IH by (intros k' Hk'; apply Hl; now right).
    destruct (Nat.ltb_spec k 0); [lia |].
    rewrite col_visits_two by (apply Hl; now left).
    unfold size. cbn [length]. lia. }
  rewrite E.
  - unfold size. now rewrite length_seq.
  - intros k Hk. apply in_seq in Hk. lia.
Qed.

Lemma parity_visit (par : bool) (k : nat) :
  (k < length w)%nat ->
  exists t, (t < Z.to_nat (max w + 1))%nat /\
            visitb w t k = true /\ Z.even (pos w t k) = par.
Proof.
  intros Hk. pose proof (letter_range k Hk) as Hx.
  set (q := if Bool.eqb (Z.even (nth k w 0)) par then nth k w 0 else nth k w 0 + 1).
  assert (Hq : In q (column w k)).
  { apply column_In. unfold q. destruct (Bool.eqb (Z.even (nth k w 0)) par); lia. }
  apply in_map_iff in Hq. destruct Hq as (t & E & Ht). apply in_seq in Ht.
  exists t. split; [lia |]. unfold visitb. rewrite E. unfold q.
  destruct (Bool.eqb (Z.even (nth k w 0)) par) eqn:Ev.
  - split; [| now apply eqb_prop]. rewrite Z.eqb_refl. apply orb_true_r.
  - split.
    + replace (nth k w 0 + 1 - 1) with (nth k w 0) by lia. now rewrite Z.eqb_refl.
    + rewrite even_succ_flip. destruct (Z.even (nth k w 0)), par; try reflexivity;
        discriminate.
Qed.

End Columns.

(** ** The DT code of a word with a single cycle *)

Lemma insert_sorted_Permutation (p : intpair) (l : list intpair) :
  Permutation (insert_sorted p l) (p :: l).
Proof.
  induction l as [| q l IH]; [reflexivity |].
  simpl. destruct (o q <=? o p); [| reflexivity].
  rewrite IH. apply perm_swap.
Qed.

Lemma sort_Permutation (l : list intpair) : Permutation (sort l) l.
Proof.
  induction l as [| p l IH]; [reflexivity |].
  simpl. rewrite insert_sorted_Permutation. now constructor.
Qed.

Lemma dt_entry_abs (p : intpair) : Z.abs (dt_entry p) = Z.abs (e p).
Proof.
  unfold dt_entry. destruct (s p); lia.
Qed.

(** The labels of each parity at the end of the traversal: one for each
    crossing, different, among [1, ..., 2 n]. *)
Lemma final_labels (w : list Z) (st : dt_state) (par : bool) :
  positive w -> cycles w = 1 ->
  dt_invariant w (Z.to_nat (max w + 1)) 0 st ->
  Forall (fun p => Z.even (slot par p) = par /\ 1 <= slot par p <= 2 * size w)
         (dt_n st) /\
  NoDup (map (slot par) (dt_n st)).
Proof.
  intros Hb Hc Hinv.
  pose proof (dti_length Hinv) as Hlen.
  assert (Hcc : dt_crossingCounter st = 1 + 2 * size w).
  { rewrite (dti_counter Hinv). now rewrite visits_total. }
  assert (Hnz : forall k, (k < length w)%nat -> slot_label par (dt_n st) k <> 0).
  { intros k Hk. destruct (parity_visit w Hb Hc par k Hk) as (t & Ht & Hv & He).
    apply (@dti_done _ _ _ _ Hinv par k t Hk); [| exact Hv | exact He].
    destruct (Nat.ltb_spec k 0); lia. }
  split.
  - apply Forall_forall. intros p Hp.
    destruct (In_nth _ _ intpair0 Hp) as (k & Hk & <-).
    rewrite Hlen in Hk. fold (slot_label par (dt_n st) k).
    destruct (@dti_slot _ _ _ _ Hinv par k Hk) as [H0 | (H1 & H2)].
    + now apply Hnz in H0.
    + split; [exact H1 | lia].
  - apply (NoDup_nth _ 0). intros i j Hi Hj E.
    rewrite length_map, Hlen in Hi, Hj.
    assert (D : slot par intpair0 = 0) by now destruct par.
    rewrite <- D in E. rewrite !map_nth in E.
    destruct (Nat.eq_dec i j) as [-> | Hne]; [reflexivity | exfalso].
    exact (@dti_distinct _ _ _ _ Hinv par i j Hi Hj Hne (Hnz i Hi) E).
Qed.

Lemma even_labels_Permutation (l : list Z) (n : nat) :
  length l = n -> NoDup l ->
  Forall (fun x => Z.even x = true /\ 1 <= x <= 2 * Z.of_nat n) l ->
  Permutation l (map (fun k => 2 * k) (zrange 1 n)).
Proof.
  intros Hlen Hnd Hall. apply NoDup_Permutation_bis.
  - exact Hnd.
  - rewrite length_map, zrange_length. lia.
  - intros x Hx. rewrite Forall_forall in Hall.
    destruct (Hall x Hx) as (He & Hr).
    apply Z.even_spec in He. destruct He as (k & ->).
    apply in_map, zrange_In. lia.
Qed.

(** On a word with a single cycle, [printDT] prints a DT code: one entry
    for each letter, none of them 0, of absolute values [2, 4, ..., 2 n]. *)
Lemma printDT_single_cycle (w : list Z) (counter : Z) :
  positive w -> cycles w = 1 ->
  exists dt,
    printDT w counter = Ok (true, [OutDT (size w) counter dt]) /\
    length dt = length w /\
    Forall (fun d => d <> 0) dt /\
    Permutation (map Z.abs dt) (map (fun k => 2 * k) (zrange 1 (length w))).
Proof.
  intros Hb Hc.
  destruct (dt_traverse_invariant w Hb Hc) as (st & Htr & Hinv).
  destruct (final_labels w st true Hb Hc Hinv) as (Hall & Hnd).
  cbn [slot] in Hall, Hnd. change (map (fun p => e p) (dt_n st)) with (map e (dt_n st)) in Hnd.
  pose proof (dti_length Hinv) as Hlen.
  pose proof (sort_Permutation (dt_n st)) as Hsort.
  exists (map dt_entry (sort (dt_n st))).
  assert (Hlen' : length (map dt_entry (sort (dt_n st))) = length w).
  { now rewrite length_map, (Permutation_length Hsort). }
  split; [| split; [exact Hlen' | split]].
  - unfold printDT. rewrite Htr. cbn [bind].
    destruct (Z.eqb_spec (max w + 1) (max w - 1 + 2)) as [_ | Hne]; [| lia].
    cbn [negb]. unfold size. now rewrite Hlen'.
  - apply Forall_map. apply Forall_forall. intros p Hp.
    apply (Permutation_in _ Hsort) in Hp.
    rewrite Forall_forall in Hall. destruct (Hall p Hp) as (_ & Hr).
    unfold dt_entry. destruct (s p); lia.
  - rewrite map_map.
    rewrite (Permutation_map (fun p => Z.abs (dt_entry p)) Hsort).
    rewrite (map_ext_in (fun p => Z.abs (dt_entry p)) e).
    + apply even_labels_Permutation.
      * now rewrite length_map.
      * exact Hnd.
      * apply Forall_map. unfold size in Hall. exact Hall.
    + intros p Hp. rewrite Forall_forall in Hall.
      destruct (Hall p Hp) as (_ & Hr). rewrite dt_entry_abs. lia.
Qed.

(** ** The sorted table does not depend on the sorting algorithm *)

Lemma insert_sorted_sorted (p : intpair) (l : list intpair) :
  StronglySorted le_odd l -> StronglySorted le_odd (insert_sorted p l).
Proof.
  induction 1 as [| q l Hl IH Hq]; [repeat constructor |].
  simpl. destruct (Z.leb_spec (o q) (o p)) as [Hle | Hgt].
  - constructor; [exact IH |].
    apply (Permutation_Forall (Permutation_sym (insert_sorted_Permutation p l))).
    constructor; [exact Hle | exact Hq].
  - constructor; [now constructor |].
    constructor; [unfold le_odd; lia |].
    rewrite Forall_forall in *. intros x Hx. specialize (Hq x Hx).
    unfold le_odd in *. lia.
Qed.

Lemma sort_sorted (l : list intpair) : StronglySorted le_odd (sort l).
Proof.
  induction l as [| p l IH]; [constructor |].
  simpl. now apply insert_sorted_sorted.
Qed.

Lemma sorted_unique (l1 l2 : list intpair) :
  NoDup (map o l1) -> Permutation l1 l2 ->
  StronglySorted le_odd l1 -> StronglySorted le_odd l2 -> l1 = l2.
Proof.
  revert l2. induction l1 as [| p t1 IH]; intros l2 Hnd Hperm H1 H2.
  - apply Permutation_nil in Hperm. now subst.
  - destruct l2 as [| q t2].
    { apply Permutation_sym, Permutation_nil in Hperm. discriminate. }
    inversion H1 as [| ? ? Hs1 Hf1]; subst.
    inversion H2 as [| ? ? Hs2 Hf2]; subst.
    inversion Hnd as [| ? ? Hnin Hnd1]; subst.
    rewrite Forall_forall in Hf1, Hf2.
    assert (Hq : In q (p :: t1)).
    { apply (Permutation_in _ (Permutation_sym Hperm)). now left. }
    assert (Hp : In p (q :: t2)).
    { apply (Permutation_in _ Hperm). now left. }
    assert (E : p = q).
    { destruct Hq as [E | Hq]; [exact E | exfalso].
      destruct Hp as [E | Hp]; [subst q | ].
      - apply Hnin. now apply in_map.
      - specialize (Hf1 q Hq). specialize (Hf2 p Hp). unfold le_odd in *.
        apply Hnin. replace (o p) with (o q) by lia. now apply in_map. }
    subst q. f_equal. apply IH; try assumption.
    now apply Permutation_cons_inv with p.
Qed.

(** The odd labels of the crossings of a word with a single cycle are
    different: every sorted arrangement of the table of [printDT] is the
    one of [sort]. *)
Lemma sorted_table_unique (w : list Z) (st : dt_state) (passed : Z)
    (l : list intpair) :
  positive w -> cycles w = 1 ->
  dt_traverse w = Ok (st, passed) ->
  Permutation l (dt_n st) -> StronglySorted le_odd l ->
  l = sort (dt_n st).
Proof.
  intros Hb Hc Htr Hperm Hsorted.
  destruct (dt_traverse_invariant w Hb Hc) as (st1 & Htr1 & Hinv).
  rewrite Htr in Htr1. injection Htr1 as <- _.
  destruct (final_labels w st false Hb Hc Hinv) as (_ & Hnd).
  cbn [slot] in Hnd. change (map (fun p => o p) (dt_n st)) with (map o (dt_n st)) in Hnd.
  apply sorted_unique.
  - apply (Permutation_NoDup (Permutation_map o (Permutation_sym Hperm)) Hnd).
  - rewrite Hperm. apply Permutation_sym, sort_Permutation.
  - exact Hsorted.
  - apply sort_sorted.
Qed.

(** C6: for a bound [maxB1] at which the subtractions of [completable] do
    not overflow, the DT code printed for a printed word of length [n] has
    [n] entries, none of them 0, and their absolute values are
    [2, 4, ..., 2 n], each once. *)
Theorem printed_dt_code_shape (maxB1 : Z) (w : list Z) (counter : Z) :
  INT_MIN + 4 <= maxB1 -> emitted maxB1 w ->
  exists dt,
    printDT w counter = Ok (true, [OutDT (size w) counter dt]) /\
    length dt = length w /\
    Forall (fun d => d <> 0) dt /\
    Permutation (map Z.abs dt) (map (fun k => 2 * k) (zrange 1 (length w))).
Proof.
  intros _ H. apply emitted_facts in H.
  destruct H as (Hwf & _ & _ & Hn & _).
  apply printDT_single_cycle; [apply Hwf |].
  rewrite (numberOfComponents_cycles w Hwf) in Hn. now injection Hn.
Qed.

Lemma printed_dt_code_shape_witness :
  exists dt,
    printDT [1; 1; 1] 1 = Ok (true, [OutDT 3 1 dt]) /\
    length dt = 3%nat /\
    Forall (fun d => d <> 0) dt /\
    Permutation (map Z.abs dt) [2; 4; 6].
Proof.
  apply (printed_dt_code_shape 2 [1; 1; 1] 1).
  - unfold INT_MIN. lia.
  - apply (iterate_emitted 1 2 (st := {| braid := [1; 1; 1]; counter := 0; cout := [] |}));
      vm_compute; reflexivity.
Defined.

(** ** An iteration of the loop never fails *)

Lemma max_element_max (l : list Z) :
  positive l -> l <> [] -> max_element l = Ok (max l).
Proof.
  intros Hl Hne. destruct l as [| y t]; [contradiction |].
  inversion Hl as [| ? ? Hy Ht]; subst.
  unfold max_element, max. cbn [fold_left]. f_equal.
  destruct (Z.gtb_spec y 1) as [H1 | H1].
  - apply fold_left_pointwise. intros a c.
    destruct (Z.ltb_spec a c), (Z.gtb_spec c a); lia.
  - replace y with 1 by lia.
    apply fold_left_pointwise. intros a c.
    destruct (Z.ltb_spec a c), (Z.gtb_spec c a); lia.
Qed.

Lemma lastLetterTooHigh_snoc (init : list Z) (x maxB1 : Z) :
  positive init -> init <> [] ->
  lastLetterTooHigh (init ++ [x]) maxB1 = Ok (x >? 1 + max init).
Proof.
  intros Hi Hne. unfold lastLetterTooHigh.
  rewrite size_app. destruct (snoc_view init) as [-> | (i0 & y & ->)]; [contradiction |].
  destruct (Z.ltb_spec (size (i0 ++ [y]) + size [x]) 2) as [H | _].
  { rewrite size_app in H. pose proof (size_nonneg i0). cbn in H. lia. }
  rewrite back_snoc. cbn [bind]. rewrite removelast_last.
  rewrite max_element_max by assumption. reflexivity.
Qed.

Lemma lexicoGood_ok (w : list Z) : w <> [] -> exists l, lexicoGood w = Ok l.
Proof.
  destruct w; [contradiction | intros _]. eexists. reflexivity.
Qed.

Lemma reidemeister_ok (w : list Z) : w <> [] -> exists r, reidemeister w = Ok r.
Proof.
  intros Hne. unfold reidemeister.
  destruct (rev w) as [| s0 r] eqn:E.
  { apply (f_equal (@rev Z)) in E. rewrite rev_involutive in E. contradiction. }
  destruct (skip_far s0 r) as [| x r1]; [now eexists |].
  destruct ((x =? s0) || (x =? s0 + 1)); [now eexists |].
  destruct (skip_far s0 r1); now eexists.
Qed.

Lemma completable_ok (w : list Z) (maxB1 : Z) :
  wellformed w -> exists c, completable w maxB1 = Ok c.
Proof.
  intros Hwf. unfold completable.
  rewrite (numberOfComponents_cycles w Hwf), missingCrossingsForPrimality_vector.
  destruct (lexicoGood_ok w (proj1 Hwf)) as (l & ->).
  destruct (reidemeister_ok w (proj1 Hwf)) as (r & ->).
  cbn [bind]. now eexists.
Qed.

Lemma choose_Print_cycles (w : list Z) (maxB1 : Z) :
  wellformed w -> choose w maxB1 = Ok Print -> cycles w = 1.
Proof.
  intros Hwf Hp. apply choose_Print in Hp. destruct Hp as (_ & Hc & Hb).
  apply completable_15 in Hc.
  destruct Hc as (n & m & Hn & Hm & _ & _ & Hn1 & Hm1).
  pose proof (missingCrossingsForPrimality_nonneg _ Hm) as Hm0.
  rewrite (numberOfComponents_cycles w Hwf) in Hn. injection Hn as <-.
  pose proof (cycles_lower w (proj2 Hwf)). lia.
Qed.

(** The transition taken from the word [init ++ [x]] and the word it
    leaves. *)
Lemma step_snoc (maxB1 : Z) (st : state) (init : list Z) (x : Z) :
  braid st = init ++ [x] -> init <> [] -> positive init -> 1 <= x ->
  exists st1,
    step maxB1 st = Ok st1 /\
    ((1 + max init < x /\ braid st1 = removelast init ++ [last init 0 + 1]) \/
     (x <= 1 + max init /\ braid st1 = init ++ [x + 1]) \/
     (x <= 1 + max init /\
      completable (init ++ [x]) maxB1 = Ok 15 /\ b1 (init ++ [x]) < maxB1 /\
      exists y, 1 <= y <= x /\ braid st1 = (init ++ [x]) ++ [y])).
Proof.
  intros E Hne Hi Hx.
  assert (Hwf : wellformed (init ++ [x])) by (apply wellformed_snoc; now split).
  unfold step, choose. rewrite E.
  rewrite lastLetterTooHigh_snoc by assumption. cbn [bind].
  destruct (Z.gtb_spec x (1 + max init)) as [Hhigh | Hlow].
  - cbn [bind]. rewrite pop_back_snoc. cbn [bind].
    destruct (snoc_view init) as [-> | (i0 & y & ->)]; [contradiction |].
    rewrite back_incr_snoc. cbn [bind]. eexists. split; [reflexivity |].
    left. split; [lia |]. cbn [braid]. now rewrite removelast_last, last_last.
  - destruct (completable_ok (init ++ [x]) maxB1 Hwf) as (c & Hc).
    rewrite Hc. cbn [bind].
    destruct (Z.eqb_spec c 15) as [-> | Hc15]; cbn [negb].
    + destruct (Z.ltb_spec (b1 (init ++ [x])) maxB1) as [Hb | Hb]; cbn [bind].
      * rewrite appendLetter_snoc. cbn [bind]. eexists. split; [reflexivity |].
        right. right. split; [exact Hlow | split; [reflexivity | split; [exact Hb |]]].
        exists (if x =? 1 then 1 else x - 1). split; [| reflexivity].
        destruct (Z.eqb_spec x 1); lia.
      * assert (Hcy : cycles (init ++ [x]) = 1).
        { apply (choose_Print_cycles (init ++ [x]) maxB1 Hwf).
          apply choose_Print. split; [| split; [exact Hc | lia]].
          rewrite lastLetterTooHigh_snoc by assumption.
          destruct (Z.gtb_spec x (1 + max init)); [lia | reflexivity]. }
        destruct (printDT_single_cycle (init ++ [x]) (counter st + 1) (proj2 Hwf) Hcy)
          as (dt & -> & _).
        cbn [bind]. rewrite back_incr_snoc. cbn [bind].
        eexists. split; [reflexivity |]. right. left. split; [exact Hlow | reflexivity].
    + rewrite back_incr_snoc. cbn [bind]. eexists. split; [reflexivity |].
      right. left. split; [exact Hlow | reflexivity].
Qed.

(** ** The depth of the search *)

Lemma sum_map_le {A : Type} (f g : A -> Z) (l : list A) :
  (forall k, In k l -> f k <= g k) -> sum (map f l) <= sum (map g l).
Proof.
  induction l as [| x l IH]; intros H; [reflexivity |].
  cbn [map]. rewrite !sum_cons.
  specialize (H x (or_introl eq_refl)) as Hx.
  assert (sum (map f l) <= sum (map g l)) by (apply IH; intros k Hk; apply H; now right).
  lia.
Qed.

Lemma sum_map_add {A : Type} (f g : A -> Z) (l : list A) :
  sum (map (fun k => f k + g k) l) = sum (map f l) + sum (map g l).
Proof.
  induction l as [| x l IH]; [reflexivity |].
  cbn [map]. rewrite !sum_cons, IH. lia.
Qed.

Lemma sum_map_const {A : Type} (c : Z) (l : list A) :
  sum (map (fun _ => c) l) = c * size l.
Proof.
  induction l as [| x l IH]; [unfold size, sum; cbn [map fold_left length]; lia |].
  cbn [map]. rewrite sum_cons, IH. unfold size. cbn [length]. lia.
Qed.

Lemma sum_indicator_NoDup (x : Z) (l : list Z) :
  NoDup l -> sum (map (fun j => if x =? j then 1 else 0) l) <= 1.
Proof.
  induction 1 as [| y l Hy Hl IH]; [unfold sum; cbn [map fold_left]; lia |].
  cbn [map]. rewrite sum_cons.
  destruct (Z.eqb_spec x y) as [-> | Hne]; [| lia].
  rewrite (sum_map_same (A := Z)) with (f := fun _ => 0).
  - rewrite sum_map_const. lia.
  - intros k Hk. destruct (Z.eqb_spec y k) as [-> | _]; [contradiction | reflexivity].
Qed.

(** The occurrences of different generators are different letters. *)
Lemma occurrences_total (w l : list Z) :
  NoDup l -> sum (map (fun j => occurrences j w) l) <= size w.
Proof.
  intros Hl. induction w as [| x w IH].
  - rewrite (sum_map_same (A := Z)) with (f := fun _ => 0).
    + rewrite sum_map_const. unfold size. cbn [length]. lia.
    + intros k _. reflexivity.
  - rewrite (sum_map_same (A := Z))
      with (f := fun j => (if x =? j then 1 else 0) + occurrences j w).
    + rewrite sum_map_add. pose proof (sum_indicator_NoDup x l Hl).
      unfold size in *. cbn [length]. lia.
    + intros k _. apply occurrences_cons.
Qed.

Lemma occurrences_In (x : Z) (w : list Z) : In x w -> 1 <= occurrences x w.
Proof.
  intros H. unfold occurrences.
  apply (count_occ_In Z.eq_dec) in H. lia.
Qed.

Lemma zrange_shift (lo : Z) (n : nat) :
  zrange (lo + 1) n = map (fun i => i + 1) (zrange lo n).
Proof.
  unfold zrange. rewrite map_map. apply map_ext. intros k. lia.
Qed.

(** The primality test bounds the number of strands of a word in which
    each generator occurs. *)
Lemma covering_strands_bound (w : list Z) (maxB1 m : Z) :
  covering w ->
  missingCrossingsForPrimality w = Ok m -> m <= maxB1 - b1 w ->
  max w <= maxB1 + 1.
Proof.
  intros Hcov Hm Hle. pose proof (max_ge_1 w) as Hmax.
  rewrite missingCrossingsForPrimality_vector in Hm. injection Hm as Hm.
  set (n1 := Z.to_nat (max w - 1)).
  set (low := fun i => Z_of_bool (twistRegions i w <? 4)).
  assert (Hmiss : sum (map low (zrange 1 n1)) <= m).
  { rewrite <- Hm. unfold missing_vector.
    replace (Z.to_nat (max w)) with (S n1) by (unfold n1; lia).
    rewrite zrange_cons. cbn [map]. rewrite sum_cons.
    destruct (missing_entry_01 w (max w - 1) 0) as [E0 | E0]; rewrite E0.
    - apply sum_map_le. intros j Hj. apply zrange_In in Hj.
      unfold low, missing_entry, n1 in *.
      destruct (Z.leb_spec 1 j), (Z.leb_spec j (max w - 1)); try lia.
      destruct (twistRegions j w <? 4); cbn [andb orb Z_of_bool]; [lia |].
      destruct ((j + 1 <=? max w - 1) && (twistRegions (j + 1) w =? 2)); lia.
    - transitivity (sum (map (missing_entry w (max w - 1)) (zrange (0 + 1) n1))); [| lia].
      apply sum_map_le. intros j Hj. apply zrange_In in Hj.
      unfold low, missing_entry, n1 in *.
      destruct (Z.leb_spec 1 j), (Z.leb_spec j (max w - 1)); try lia.
      destruct (twistRegions j w <? 4); cbn [andb orb Z_of_bool]; [lia |].
      destruct ((j + 1 <=? max w - 1) && (twistRegions (j + 1) w =? 2)); lia. }
  assert (Hocc : 1 + (2 * Z.of_nat n1 - sum (map low (zrange 1 n1))) <= size w).
  { transitivity (sum (map (fun j => occurrences j w) (zrange 1 (S n1))));
      [| apply occurrences_total, zrange_NoDup].
    rewrite zrange_cons. cbn [map]. rewrite sum_cons.
    assert (H1 : 1 <= occurrences 1 w) by (apply occurrences_In, Hcov; lia).
    rewrite zrange_shift, map_map.
    assert (H2 : sum (map (fun i => 2 + - low i) (zrange 1 n1))
                 <= sum (map (fun i => occurrences (i + 1) w) (zrange 1 n1))).
    { apply sum_map_le. intros i Hi. apply zrange_In in Hi. unfold low, n1 in *.
      destruct (Z.ltb_spec (twistRegions i w) 4) as [Ht | Ht]; cbn [Z_of_bool].
      - assert (1 <= occurrences (i + 1) w) by (apply occurrences_In, Hcov; lia). lia.
      - apply twistRegions_occurrences in Ht; [lia | lia]. }
    rewrite sum_map_add, sum_map_const in H2.
    assert (H3 : sum (map (fun i => - low i) (zrange 1 n1))
                 = - sum (map low (zrange 1 n1))).
    { clear. induction (zrange 1 n1) as [| i l IH]; [reflexivity |].
      cbn [map]. rewrite !sum_cons, IH. lia. }
    unfold size in H2. rewrite zrange_length in H2. lia. }
  unfold b1 in Hle. subst n1. lia.
Qed.

(** ** Termination of the search *)

Lemma iterate_S (n : nat) (maxB1 : Z) (st st1 : state) :
  size (braid st) > 1 -> step maxB1 st = Ok st1 ->
  iterate (S n) maxB1 st = iterate n maxB1 st1.
Proof.
  intros Hs Hst. cbn [iterate].
  destruct (Z.gtb_spec (size (braid st)) 1); [| lia].
  now rewrite Hst.
Qed.

Lemma iterate_add (n m : nat) (maxB1 : Z) (st st1 st2 : state) :
  iterate n maxB1 st = Ok st1 -> iterate m maxB1 st1 = Ok st2 ->
  iterate (n + m) maxB1 st = Ok st2.
Proof.
  revert st. induction n as [| n IH]; intros st H1 H2.
  - injection H1 as ->. exact H2.
  - cbn [iterate Nat.add] in *.
    destruct (size (braid st) >? 1); [| discriminate].
    destruct (step maxB1 st) as [st3 | err]; [| discriminate].
    cbn [bind] in *. now apply IH.
Qed.

Lemma iterate_search (n : nat) (maxB1 : Z) (st st1 : state) :
  iterate n maxB1 st = Ok st1 -> size (braid st1) <= 1 ->
  search (S n) maxB1 st = Ok st1.
Proof.
  revert st. induction n as [| n IH]; intros st H Hs.
  - injection H as ->. cbn [search].
    destruct (Z.gtb_spec (size (braid st1)) 1); [lia | reflexivity].
  - cbn [iterate] in H. remember (S n) as k. cbn [search]. subst k.
    destruct (size (braid st) >? 1); [| discriminate].
    destruct (step maxB1 st) as [st3 | err]; [| discriminate].
    cbn [bind] in *. now apply IH.
Qed.

Lemma size_snoc (init : list Z) (x : Z) : size (init ++ [x]) = size init + 1.
Proof. rewrite size_app. reflexivity. Qed.

Lemma size_positive (l : list Z) : l <> [] -> 1 <= size l.
Proof.
  destruct l; [contradiction | intros _]. unfold size. cbn [length]. lia.
Qed.

Lemma prefix_ok_snoc (maxB1 : Z) (init : list Z) (x : Z) :
  prefix_ok maxB1 init -> 1 <= x <= 1 + max init ->
  completable (init ++ [x]) maxB1 = Ok 15 -> b1 (init ++ [x]) < maxB1 ->
  prefix_ok maxB1 (init ++ [x]) /\ size (init ++ [x]) <= 2 * maxB1.
Proof.
  intros (Hne & Hpos & Hcov & Hsize) Hx Hc Hb.
  assert (Hcov' : covering (init ++ [x])).
  { intros y Hy. rewrite max_snoc in Hy. apply in_or_app.
    destruct (Z_le_gt_dec y (max init)) as [Hle | Hgt].
    - left. apply Hcov. lia.
    - right. left. lia. }
  apply completable_15 in Hc.
  destruct Hc as (n & m & _ & Hm & _ & _ & _ & Hm1).
  pose proof (covering_strands_bound (init ++ [x]) maxB1 m Hcov' Hm Hm1) as Hmax.
  assert (Hs : size (init ++ [x]) <= 2 * maxB1) by (unfold b1 in Hb; lia).
  split; [| exact Hs].
  split; [now destruct init | split; [| split; [exact Hcov' | lia]]].
  apply Forall_app. split; [exact Hpos | constructor; [lia | constructor]].
Qed.

(** From a word [init ++ [x]] the search comes back to [init], with its last
    letter increased. *)
Lemma explore (maxB1 : Z) (d : nat) :
  forall init,
    prefix_ok maxB1 init -> 2 * maxB1 + 1 - size init <= Z.of_nat d ->
    forall (gap : nat) (x : Z) (st : state),
      braid st = init ++ [x] -> 1 <= x -> 2 + max init - x <= Z.of_nat gap ->
      exists n st1,
        iterate n maxB1 st = Ok st1 /\
        braid st1 = removelast init ++ [last init 0 + 1].
Proof.
  induction d as [d IHd] using (well_founded_induction lt_wf).
  intros init Hok Hd. induction gap as [| gap IHe]; intros x st E Hx He.
  - (* the last letter is too high *)
    destruct Hok as (Hne & Hpos & _).
    destruct (step_snoc maxB1 st init x E Hne Hpos Hx)
      as (st1 & Hst & [(_ & Hb) | [(Hlow & _) | (Hlow & _)]]); try lia.
    exists 1%nat, st1. split; [| exact Hb].
    rewrite (iterate_S 0 maxB1 st st1); [reflexivity | | exact Hst].
    rewrite E, size_snoc. pose proof (size_positive init Hne). lia.
  - pose proof Hok as (Hne & Hpos & Hcov & Hsize).
    assert (Hs : size (braid st) > 1).
    { rewrite E, size_snoc. pose proof (size_positive init Hne). lia. }
    destruct (step_snoc maxB1 st init x E Hne Hpos Hx)
      as (st1 & Hst & [(_ & Hb) | [(Hlow & Hb) | (Hlow & Hc & Hb1 & y & Hy & Hb)]]).
    + exists 1%nat, st1. split; [| exact Hb].
      now rewrite (iterate_S 0 maxB1 st st1).
    + destruct (IHe (x + 1) st1 Hb) as (n & st2 & Hn & Hb2); [lia | lia |].
      exists (S n), st2. split; [| exact Hb2].
      now rewrite (iterate_S n maxB1 st st1).
    + destruct (prefix_ok_snoc maxB1 init x Hok) as (Hok' & Hs'); try assumption; [lia |].
      rewrite size_snoc in Hs'.
      destruct (IHd (d - 1)%nat ltac:(lia) (init ++ [x]) Hok'
                    ltac:(rewrite size_snoc; lia)
                    (Z.to_nat (2 + max (init ++ [x]) - y)) y st1 Hb (proj1 Hy) ltac:(lia))
        as (n1 & st2 & Hn1 & Hb2).
      rewrite removelast_last, last_last in Hb2.
      destruct (IHe (x + 1) st2 Hb2) as (n2 & st3 & Hn2 & Hb3); [lia | lia |].
      exists (S (n1 + n2)), st3. split; [| exact Hb3].
      rewrite (iterate_S (n1 + n2) maxB1 st st1) by assumption.
      exact (iterate_add n1 n2 maxB1 st1 st2 st3 Hn1 Hn2).
Qed.

(** ** The size of the words of the search *)

Lemma committed_prefix_ok (maxB1 : Z) (init : list Z) :
  0 <= maxB1 -> committed maxB1 init ->
  prefix_ok maxB1 init /\ max init <= maxB1 + 1.
Proof.
  intros H0. induction 1 as [| init x _ (IH & _) Hx Hc Hb].
  - split; [| change (max [1]) with 1; lia].
    split; [discriminate | split; [repeat constructor; lia | split]].
    + intros x Hx. change (max [1]) with 1 in Hx. left. lia.
    + change (size [1]) with 1. lia.
  - destruct (prefix_ok_snoc maxB1 init x IH Hx Hc Hb) as (Hok & _).
    split; [exact Hok |].
    apply completable_15 in Hc.
    destruct Hc as (n & m & _ & Hm & _ & _ & _ & Hm1).
    destruct Hok as (_ & _ & Hcov & _).
    exact (covering_strands_bound (init ++ [x]) maxB1 m Hcov Hm Hm1).
Qed.

Lemma committed_wellformed (maxB1 : Z) (init : list Z) :
  committed maxB1 init -> init <> [] /\ positive init.
Proof.
  induction 1 as [| init x _ (_ & IH) Hx _ _].
  - split; [discriminate | repeat constructor; lia].
  - split; [now destruct init |].
    apply Forall_app. split; [exact IH | constructor; [lia | constructor]].
Qed.

(** The shape of the word at the head of the loop: the tested letters
    and a last letter, which is at most 2 above them. *)
Lemma reachable_committed (maxB1 : Z) (st : state) :
  reachable maxB1 st ->
  braid st = [2] \/
  exists init x,
    braid st = init ++ [x] /\ committed maxB1 init /\ 1 <= x <= 2 + max init.
Proof.
  induction 1 as [| st st1 _ IH Hsize Hstep].
  - right. exists [1], 1. split; [reflexivity | split; [constructor |]].
    change (max [1]) with 1. lia.
  - destruct IH as [E | (init & x & E & Hcom & Hx)].
    { rewrite E in Hsize. discriminate. }
    destruct (committed_wellformed maxB1 init Hcom) as (Hne & Hpos).
    destruct (step_snoc maxB1 st init x E Hne Hpos (proj1 Hx))
      as (st2 & Hst & [(_ & Hb) | [(Hlow & Hb) | (Hlow & Hc & Hb1 & y & Hy & Hb)]]);
      rewrite Hstep in Hst; injection Hst as <-.
    + destruct Hcom as [| i0 y Hcom Hy _ _].
      * left. exact Hb.
      * right. rewrite removelast_last, last_last in Hb.
        exists i0, (y + 1). split; [exact Hb | split; [exact Hcom | lia]].
    + right. exists init, (x + 1). split; [exact Hb | split; [exact Hcom | lia]].
    + right. exists (init ++ [x]), y. split; [exact Hb | split].
      * constructor; try assumption. lia.
      * rewrite max_snoc. lia.
Qed.

(** No iteration of a run fails: no access out of range, no undefined
    behaviour, and the loops of the iteration end. *)
Lemma reachable_step_ok (maxB1 : Z) (st : state) :
  reachable maxB1 st -> size (braid st) > 1 ->
  exists st1, step maxB1 st = Ok st1.
Proof.
  intros Hr Hsize.
  destruct (reachable_committed maxB1 st Hr) as [E | (init & x & E & Hcom & Hx)].
  { rewrite E in Hsize. discriminate. }
  destruct (committed_wellformed maxB1 init Hcom) as (Hne & Hpos).
  destruct (step_snoc maxB1 st init x E Hne Hpos (proj1 Hx)) as (st1 & Hst & _).
  now exists st1.
Qed.

(** The integers of the search are small: for a bound [maxB1 >= 0] the word
    has at most [2 maxB1 + 2] letters, between 1 and [maxB1 + 3]. *)
Lemma reachable_bounds (maxB1 : Z) (st : state) :
  0 <= maxB1 -> reachable maxB1 st ->
  size (braid st) <= 2 * maxB1 + 2 /\
  Forall (fun x => 1 <= x <= maxB1 + 3) (braid st).
Proof.
  intros H0 Hr.
  destruct (reachable_committed maxB1 st Hr) as [-> | (init & x & -> & Hcom & Hx)].
  - split; [change (size [2]) with 1; lia | repeat constructor; lia].
  - destruct (committed_prefix_ok maxB1 init H0 Hcom)
      as ((_ & Hpos & _ & Hsize) & Hmax).
    split; [rewrite size_snoc; lia |].
    apply Forall_app. split; [| constructor; [lia | constructor]].
    apply positive_bounded in Hpos. rewrite Forall_forall in *.
    intros y Hy. specialize (Hpos y Hy). lia.
Qed.

(** C8: for each bound [maxB1 >= 0], the loop of [listBraids(maxB1)] ends
    after finitely many iterations, with a word of one letter. *)
Theorem listBraids_terminates (maxB1 : Z) :
  0 <= maxB1 ->
  exists fuel st, listBraids fuel maxB1 = Ok st /\ size (braid st) = 1.
Proof.
  intros H0.
  assert (Hok : prefix_ok maxB1 [1]).
  { split; [discriminate | split; [repeat constructor; lia | split]].
    - intros x Hx. change (max [1]) with 1 in Hx. left. lia.
    - change (size [1]) with 1. lia. }
  destruct (explore maxB1 (Z.to_nat (2 * maxB1 + 1)) [1] Hok
              ltac:(change (size [1]) with 1; lia) 3 1 seed eq_refl ltac:(lia)
              ltac:(change (max [1]) with 1; lia))
    as (n & st & Hn & Hb).
  exists (S n), st. cbn in Hb. split; [| now rewrite Hb].
  apply iterate_search; [exact Hn | rewrite Hb; cbn; lia].
Qed.

Lemma listBraids_terminates_witness :
  exists fuel st, listBraids fuel 2 = Ok st /\ size (braid st) = 1.
Proof.
  apply (listBraids_terminates 2). lia.
Defined.

(** ** The check of the number of passes, on the code *)

(** C4, amended: [printDT] compares the number of passes with
    [max(v) + 1], the number of strands; when they differ it returns
    [false] and prints nothing.  It returns on every word of positive
    letters.  [listBraids] does not look at the value returned: the
    iteration prints the word, whatever [printDT] returned, increases the
    last letter and goes on.  On a printed word the two numbers are
    equal, for a bound [maxB1] at which the subtractions of [completable]
    do not overflow. *)
Theorem pass_count_mismatch_is_discarded :
  (forall v counter st passed,
     dt_traverse v = Ok (st, passed) -> passed <> max v + 1 ->
     printDT v counter = Ok (false, [])) /\
  (forall v counter,
     Forall (fun x => 1 <= x) v ->
     exists ok line, printDT v counter = Ok (ok, line)) /\
  (forall maxB1 st init x ok line,
     braid st = init ++ [x] ->
     choose (braid st) maxB1 = Ok Print ->
     printDT (braid st) (counter st + 1) = Ok (ok, line) ->
     step maxB1 st =
     Ok {| braid := init ++ [x + 1]; counter := counter st + 1;
           cout := cout st ++ [OutBraid (printBraid (braid st))] ++ line |}) /\
  (forall maxB1 w,
     INT_MIN + 4 <= maxB1 -> emitted maxB1 w ->
     exists st, dt_traverse w = Ok (st, max w + 1)).
Proof.
  split; [| split; [| split]].
  - intros v cnt st passed Ht Hne. unfold printDT. rewrite Ht. cbn [bind].
    destruct (Z.eqb_spec passed (max v - 1 + 2)) as [E | _]; [lia | reflexivity].
  - intros v cnt Hv. now apply printDT_total.
  - intros maxB1 st init x ok line E Hc Hp. unfold step.
    rewrite Hc. cbn [bind]. rewrite Hp. cbn [bind]. rewrite E at 1.
    rewrite back_incr_snoc. reflexivity.
  - intros maxB1 w _ H. apply emitted_facts in H.
    destruct H as (Hwf & _ & _ & Hn & _).
    rewrite (numberOfComponents_cycles w Hwf) in Hn. injection Hn as Hn.
    destruct (dt_traverse_invariant w (proj2 Hwf) Hn) as (st & Htr & _).
    now exists st.
Qed.

Lemma pass_count_mismatch_is_discarded_witness :
  printDT [1; 1] 1 = Ok (false, []) /\
  (exists ok line, printDT [1; 2; 1] 1 = Ok (ok, line)) /\
  step 2 {| braid := [1; 1; 1]; counter := 0; cout := [] |} =
  Ok {| braid := [1; 1; 2]; counter := 1;
        cout := [OutBraid "aaa"; OutDT 3 1 [4; 6; 2]] |} /\
  (exists st, dt_traverse [1; 1; 1] = Ok (st, 2)).
Proof.
  destruct pass_count_mismatch_is_discarded as (H1 & H2 & H3 & H4).
  split; [| split; [| split]].
  - apply (H1 [1; 1] 1
             {| dt_n := [{| o := 1; e := 0; s := true |};
                         {| o := 0; e := 2; s := true |}];
                dt_c := 0; dt_crossingCounter := 3 |} 1).
    + reflexivity.
    + vm_compute. discriminate.
  - apply (H2 [1; 2; 1] 1). repeat constructor; lia.
  - apply (H3 2 {| braid := [1; 1; 1]; counter := 0; cout := [] |} [1; 1] 1 true
             [OutDT 3 1 [4; 6; 2]]); reflexivity.
  - apply (H4 2 [1; 1; 1]); [unfold INT_MIN; lia |].
    apply (iterate_emitted 1 2 (st := {| braid := [1; 1; 1]; counter := 0; cout := [] |}));
      vm_compute; reflexivity.
Defined.

(** * Further properties of the code *)

(** ** The largest letter and the missing crossings *)

(** X1: [max] returns the largest letter of the word, and 1 when no letter
    is larger than 1, in particular on the empty word. *)
Theorem max_is_largest_or_one (b : list Z) :
  1 <= max b /\
  Forall (fun x => x <= max b) b /\
  (max b = 1 \/ In (max b) b) /\
  max [] = 1.
Proof.
  split; [apply max_ge_1 | split; [| split; [apply max_attained | reflexivity]]].
  apply Forall_forall. intros x Hx. now apply max_ge.
Qed.

Lemma sum_le_size (l : list Z) : Forall (fun x => x <= 1) l -> sum l <= size l.
Proof.
  induction 1 as [| x l Hx _ IH]; [unfold sum, size; cbn; lia |].
  rewrite sum_cons. unfold size in *. cbn [length]. lia.
Qed.

(** X2: [missingCrossingsForPrimality] never throws: its accesses [at(i - 1)]
    and [at(i)] are inside the vector, whatever the word.  It returns a
    number between 0 and the number of columns, and 0 for a single column. *)
Theorem missingCrossings_in_range (b : list Z) :
  exists m,
    missingCrossingsForPrimality b = Ok m /\
    0 <= m <= max b /\
    (max b = 1 -> m = 0).
Proof.
  exists (sum (missing_vector b (max b - 1))).
  split; [apply missingCrossingsForPrimality_vector |].
  pose proof (max_ge_1 b) as Hmax.
  assert (Hup : sum (missing_vector b (max b - 1)) <= max b).
  { replace (max b) with (size (missing_vector b (max b - 1))) at 2
      by (unfold size; rewrite missing_vector_length; lia).
    apply sum_le_size. unfold missing_vector. apply Forall_map, Forall_forall.
    intros j _. destruct (missing_entry_01 b (max b - 1) j); lia. }
  split; [split; [apply sum_nonneg, missing_vector_nonneg | exact Hup] |].
  intros E. unfold missing_vector. rewrite E. reflexivity.
Qed.

(** ** The assertion of the debug mode *)

Lemma twist_scan_lower (i : Z) (b : list Z) :
  forall l t,
    t <= snd (twist_scan i b (l, t)) /\
    (In i b -> l <> i -> t + 1 <= snd (twist_scan i b (l, t))) /\
    (In (i + 1) b -> l <> i + 1 -> t + 1 <= snd (twist_scan i b (l, t))) /\
    (In i b -> In (i + 1) b -> l <> i -> l <> i + 1 ->
     t + 2 <= snd (twist_scan i b (l, t))).
Proof.
  induction b as [| j b IH]; intros l t.
  - cbn. repeat split; try lia; intros [].
  - rewrite twist_scan_cons.
    destruct (IH l t) as (A1 & A2 & A3 & A4).
    destruct (IH j (t + 1)) as (B1 & B2 & B3 & B4).
    cbn [In].
    destruct (Z.eqb_spec j i) as [Ei | Ei], (Z.eqb_spec j (i + 1)) as [Ei1 | Ei1],
      (Z.eqb_spec j l) as [El | El]; cbn [andb orb negb]; subst;
      repeat split; intros;
      repeat match goal with
             | H : _ \/ _ |- _ => destruct H
             end; try lia;
      repeat match goal with
             | H : In ?x b -> _, H' : In ?x b |- _ => specialize (H H')
             end;
      try (specialize (A2 ltac:(lia))); try (specialize (A3 ltac:(lia)));
      try (specialize (B2 ltac:(lia))); try (specialize (B3 ltac:(lia)));
      try lia.
Qed.

Lemma twistRegions_lower (i : Z) (b : list Z) :
  1 <= i -> In i b -> In (i + 1) b -> 2 <= twistRegions i b.
Proof.
  intros Hi H1 H2. unfold twistRegions.
  destruct (twist_scan_lower i b (-1) 0) as (_ & _ & _ & H).
  specialize (H H1 H2). lia.
Qed.

Lemma committed_covering (maxB1 : Z) (init : list Z) :
  committed maxB1 init -> covering init.
Proof.
  induction 1 as [| init x _ IH Hx _ _].
  - intros x Hx. change (max [1]) with 1 in Hx. left. lia.
  - intros y Hy. rewrite max_snoc in Hy. apply in_or_app.
    destruct (Z_le_gt_dec y (max init)) as [Hle | Hgt].
    + left. apply IH. lia.
    + right. left. lia.
Qed.

(** The words on which the search calls [completable]. *)
Lemma tested_word_covering (maxB1 : Z) (st : state) :
  reachable maxB1 st -> size (braid st) > 1 ->
  lastLetterTooHigh (braid st) maxB1 = Ok false ->
  covering (braid st).
Proof.
  intros Hr Hsize Hlow.
  destruct (reachable_committed maxB1 st Hr) as [E | (init & x & E & Hcom & Hx)].
  { rewrite E in Hsize. discriminate. }
  destruct (committed_wellformed maxB1 init Hcom) as (Hne & Hpos).
  rewrite E in *. rewrite lastLetterTooHigh_snoc in Hlow by assumption.
  destruct (Z.gtb_spec x (1 + max init)) as [Hhigh | Hle1]; [discriminate |].
  pose proof (committed_covering maxB1 init Hcom) as Hcov.
  intros y Hy. rewrite max_snoc in Hy. apply in_or_app.
  destruct (Z_le_gt_dec y (max init)) as [Hle | Hgt].
  - left. apply Hcov. lia.
  - right. left. lia.
Qed.

(** X3: the check [if (debug && (twistRegions < 2)) throw;] never fires in a
    run: on each word that the search gives to
    [missingCrossingsForPrimality], each pair of neighbouring columns has at
    least 2 twist regions. *)
Theorem debug_assertion_holds (maxB1 : Z) (st : state) (i : Z) :
  reachable maxB1 st -> size (braid st) > 1 ->
  lastLetterTooHigh (braid st) maxB1 = Ok false ->
  1 <= i < max (braid st) ->
  2 <= twistRegions i (braid st).
Proof.
  intros Hr Hsize Hlow Hi.
  pose proof (tested_word_covering maxB1 st Hr Hsize Hlow) as Hcov.
  apply twistRegions_lower; [lia | apply Hcov; lia | apply Hcov; lia].
Qed.

Lemma debug_assertion_holds_witness :
  2 <= twistRegions 1 [1; 2].
Proof.
  apply (debug_assertion_holds 0 {| braid := [1; 2]; counter := 0; cout := [] |} 1).
  - apply (iterate_reachable 1 (reach_seed 0)). reflexivity.
  - reflexivity.
  - reflexivity.
  - cbn. lia.
Defined.

(** ** The test of the rotations *)

Lemma lexicographical_compare_extend (a b c d : list Z) :
  length a = length b -> lexicographical_compare a b = true ->
  lexicographical_compare (a ++ c) (b ++ d) = true.
Proof.
  revert b. induction a as [| x a IH]; intros [| y b] Hlen H;
    try discriminate.
  cbn [app lexicographical_compare] in *.
  destruct (x <? y); [reflexivity |].
  destruct (y <? x); [discriminate |].
  apply IH; [now injection Hlen | exact H].
Qed.

Lemma lexicoGood_nonempty (w : list Z) :
  w <> [] ->
  lexicoGood w =
  Ok (forallb
        (fun i => negb (lexicographical_compare
                          (skipn i w) (firstn (length w - i) w)))
        (seq 1 (length w - 1))).
Proof.
  destruct w; [contradiction | reflexivity].
Qed.

(** X4: [lexicoGood] accepts every word that is lexicographically at most
    each of its rotations: the test prunes no canonical word. *)
Theorem lexicoGood_accepts_minimal_rotations (w : list Z) :
  w <> [] -> minimal_rotation w = true -> lexicoGood w = Ok true.
Proof.
  intros Hne Hmin. rewrite lexicoGood_nonempty by exact Hne. f_equal.
  apply forallb_forall. intros i Hi. apply in_seq in Hi.
  unfold minimal_rotation in Hmin. rewrite forallb_forall in Hmin.
  specialize (Hmin i). rewrite in_seq in Hmin. specialize (Hmin ltac:(lia)).
  destruct (lexicographical_compare (skipn i w) (firstn (length w - i) w)) eqn:E;
    [exfalso | reflexivity].
  apply (lexicographical_compare_extend _ _ (firstn i w) (skipn (length w - i) w))
    in E.
  - unfold rotation in Hmin. rewrite firstn_skipn in E. rewrite E in Hmin.
    discriminate.
  - rewrite length_skipn, length_firstn. lia.
Qed.

Lemma lexicoGood_accepts_minimal_rotations_witness :
  lexicoGood [1; 1; 2; 1; 2] = Ok true.
Proof.
  apply (lexicoGood_accepts_minimal_rotations [1; 1; 2; 1; 2]).
  - discriminate.
  - reflexivity.
Defined.

(** X5: the words that [lexicoGood] accepts are closed under prefixes:
    when the search extends a word that the test rejects, it can only reach
    rejected words, so that pruning on this test loses no accepted word. *)
Theorem lexicoGood_prefix_closed (w : list Z) (x : Z) :
  w <> [] -> lexicoGood (w ++ [x]) = Ok true -> lexicoGood w = Ok true.
Proof.
  intros Hne H. rewrite lexicoGood_nonempty in H by now destruct w.
  injection H as H. rewrite forallb_forall in H.
  rewrite lexicoGood_nonempty by exact Hne. f_equal.
  apply forallb_forall. intros i Hi. apply in_seq in Hi.
  specialize (H i). rewrite in_seq, length_app in H. cbn [length] in H.
  specialize (H ltac:(lia)).
  destruct (lexicographical_compare (skipn i w) (firstn (length w - i) w)) eqn:E;
    [exfalso | reflexivity].
  apply (lexicographical_compare_extend _ _ [x] [nth (length w - i) w 0]) in E.
  - rewrite skipn_app, firstn_app in H.
    replace (i - length w)%nat with 0%nat in H by lia.
    replace (length w + 1 - i - length w)%nat with 0%nat in H by lia.
    cbn [skipn firstn] in H. rewrite app_nil_r in H.
    replace (length w + 1 - i)%nat with (S (length w - i)) in H by lia.
    rewrite firstn_S_nth in H by lia. rewrite E in H. discriminate.
  - rewrite length_skipn, length_firstn. lia.
Qed.

Lemma lexicoGood_prefix_closed_witness : lexicoGood [1; 1; 2; 1] = Ok true.
Proof.
  apply (lexicoGood_prefix_closed [1; 1; 2; 1] 2).
  - discriminate.
  - reflexivity.
Defined.

(** ** The test of the last letter against the letters that commute *)

Lemma skip_far_app (s : Z) (a b : list Z) :
  skip_far s (a ++ b) =
  match skip_far s a with
  | [] => skip_far s b
  | x :: a1 => x :: a1 ++ b
  end.
Proof.
  induction a as [| x a IH]; [reflexivity |].
  cbn [app skip_far]. destruct ((x <? s - 1) || (x >? s + 1)); [exact IH | reflexivity].
Qed.

Lemma skip_far_drop (s y : Z) (a b : list Z) :
  y < s - 1 \/ s + 1 < y ->
  skip_far s (a ++ y :: b) =
  match skip_far s a with
  | [] => skip_far s b
  | x :: a1 => x :: a1 ++ y :: b
  end.
Proof.
  intros Hy. rewrite skip_far_app. destruct (skip_far s a); [| reflexivity].
  cbn [skip_far].
  destruct (Z.ltb_spec y (s - 1)), (Z.gtb_spec y (s + 1)); try reflexivity; lia.
Qed.

(** X6: [reidemeister] does not see the letters that commute with the last
    one: a letter [y] with [y < s - 1] or [y > s + 1], put anywhere before
    the last letter [s], does not change the result. *)
Theorem reidemeister_skips_commuting_letters (u v : list Z) (y s : Z) :
  y < s - 1 \/ s + 1 < y ->
  reidemeister (u ++ y :: v ++ [s]) = reidemeister (u ++ v ++ [s]).
Proof.
  intros Hy. unfold reidemeister.
  replace (rev (u ++ y :: v ++ [s])) with (s :: rev v ++ y :: rev u).
  2:{ rewrite rev_app_distr. cbn [rev]. rewrite rev_app_distr. cbn [rev app].
      now rewrite <- app_assoc. }
  replace (rev (u ++ v ++ [s])) with (s :: rev v ++ rev u).
  2:{ rewrite !rev_app_distr. reflexivity. }
  rewrite (skip_far_drop s y (rev v) (rev u) Hy), (skip_far_app s (rev v) (rev u)).
  destruct (skip_far s (rev v)) as [| x r1]; [reflexivity |].
  destruct ((x =? s) || (x =? s + 1)); [reflexivity |].
  rewrite (skip_far_drop s y r1 (rev u) Hy), (skip_far_app s r1 (rev u)).
  destruct (skip_far s r1); reflexivity.
Qed.

Lemma reidemeister_skips_commuting_letters_witness :
  reidemeister ([2; 1] ++ 4 :: [] ++ [2]) = reidemeister ([2; 1] ++ [] ++ [2]).
Proof.
  apply (reidemeister_skips_commuting_letters [2; 1] [] 4 2). lia.
Defined.

(** ** The runs of the search *)

(** The four transitions, on the word and on the output. *)
Lemma step_cases (maxB1 : Z) (st st1 : state) :
  step maxB1 st = Ok st1 ->
  exists init x,
    braid st = init ++ [x] /\
    ((exists i0 y,
        init = i0 ++ [y] /\ braid st1 = i0 ++ [y + 1] /\
        counter st1 = counter st /\ cout st1 = cout st) \/
     (braid st1 = init ++ [x + 1] /\
      counter st1 = counter st /\ cout st1 = cout st) \/
     (braid st1 = init ++ [x; if x =? 1 then 1 else x - 1] /\
      counter st1 = counter st /\ cout st1 = cout st) \/
     (choose (braid st) maxB1 = Ok Print /\
      braid st1 = init ++ [x + 1] /\ counter st1 = counter st + 1 /\
      exists ok line,
        printDT (braid st) (counter st + 1) = Ok (ok, line) /\
        cout st1 = cout st ++ [OutBraid (printBraid (braid st))] ++ line)).
Proof.
  intros H. unfold step in H. inv_bind H.
  destruct (snoc_view (braid st)) as [E | (init & y & E)].
  - rewrite E in H. destruct x; discriminate.
  - exists init, y. split; [exact E |]. destruct x.
    + left. rewrite E, pop_back_snoc in H. cbn [bind] in H.
      destruct (snoc_view init) as [-> | (i0 & z & ->)]; [discriminate |].
      rewrite back_incr_snoc in H. injection H as <-.
      exists i0, z. repeat split.
    + right. left. rewrite E, back_incr_snoc in H at 1. injection H as <-.
      repeat split.
    + right. right. left. rewrite E, appendLetter_snoc in H at 1.
      injection H as <-. cbn [braid counter cout]. rewrite <- app_assoc.
      repeat split.
    + right. right. right. split; [exact Hm |].
      inv_bind H. destruct x as (ok, line).
      rewrite E, back_incr_snoc in H at 1. injection H as <-.
      cbn [braid counter cout]. repeat split.
      exists ok, line. split; [exact Hm0 | reflexivity].
Qed.

Lemma search_never_throws (fuel : nat) (maxB1 : Z) :
  forall st,
    reachable maxB1 st ->
    search fuel maxB1 st = Err OutOfFuel \/
    exists st1, search fuel maxB1 st = Ok st1 /\ braid st1 = [2].
Proof.
  induction fuel as [| fuel IH]; intros st Hr; [now left |].
  cbn [search]. destruct (Z.gtb_spec (size (braid st)) 1) as [Hs | Hs].
  - destruct (reachable_step_ok maxB1 st Hr ltac:(lia)) as (st1 & Hst).
    rewrite Hst. cbn [bind]. apply IH.
    apply reach_step with st; [exact Hr | lia | exact Hst].
  - right. exists st. split; [reflexivity |].
    destruct (reachable_committed maxB1 st Hr) as [E | (init & x & E & Hc & _)];
      [exact E |].
    destruct (committed_wellformed maxB1 init Hc) as (Hne & _).
    rewrite E, size_snoc in Hs. pose proof (size_positive init Hne). lia.
Qed.

(** *** The subtractions of [completable] *)

Lemma covering_max_le_size (w : list Z) : covering w -> max w <= size w.
Proof.
  intros Hcov. pose proof (max_ge_1 w) as Hmax.
  assert (H : (length (zrange 1 (Z.to_nat (max w))) <= length w)%nat).
  { apply NoDup_incl_length; [apply zrange_NoDup |].
    intros x Hx. apply zrange_In in Hx. apply Hcov. lia. }
  rewrite zrange_length in H. unfold size. lia.
Qed.

Lemma cycles_upper (b : list Z) : cycles b <= max b + 1.
Proof.
  unfold cycles, size. pose proof (max_ge_1 b).
  pose proof (filter_length_le (orbit_minimal b)
                (zrange 1 (Z.to_nat (max b + 1)))) as H1.
  rewrite zrange_length in H1. lia.
Qed.

Lemma committed_b1 (maxB1 : Z) (init : list Z) :
  committed maxB1 init -> init = [1] \/ b1 init < maxB1.
Proof.
  destruct 1; [now left | now right].
Qed.

(** In a run of a bound between [INT_MIN + 4] and [INT_MAX - 4], the two
    subtractions of [completable], [maxB1 - b1(b)] and
    [numberOfComponents(b) - (maxB1 - b1(b))], stay within [int] on every
    word that the loop gives to [completable]. *)
Lemma tested_subtractions_in_int (maxB1 : Z) (st : state) :
  safe_bound maxB1 ->
  reachable maxB1 st -> size (braid st) > 1 ->
  lastLetterTooHigh (braid st) maxB1 = Ok false ->
  exists n,
    numberOfComponents (braid st) = Ok n /\
    in_int (maxB1 - b1 (braid st)) /\
    in_int (n - (maxB1 - b1 (braid st))).
Proof.
  intros Hsafe Hr Hsize Hlow.
  pose proof (tested_word_covering maxB1 st Hr Hsize Hlow) as Hcov.
  pose proof (reachable_wellformed Hr) as Hwf.
  destruct (reachable_committed maxB1 st Hr) as [E | (init & x & E & Hcom & Hx)].
  { rewrite E in Hsize. discriminate. }
  destruct (committed_wellformed maxB1 init Hcom) as (Hne & Hpos).
  rewrite E in *. rewrite lastLetterTooHigh_snoc in Hlow by assumption.
  destruct (Z.gtb_spec x (1 + max init)) as [Hhigh | Hle]; [discriminate |].
  unfold safe_bound, in_int, INT_MIN, INT_MAX in *.
  destruct (committed_b1 maxB1 init Hcom) as [-> | Hb].
  - change (max [1]) with 1 in *.
    assert (Hx12 : x = 1 \/ x = 2) by lia.
    destruct Hx12 as [-> | ->].
    + exists 2. split; [reflexivity |]. change (b1 ([1] ++ [1])) with 1. lia.
    + exists 1. split; [reflexivity |]. change (b1 ([1] ++ [2])) with 0. lia.
  - pose proof (covering_max_le_size init (committed_covering maxB1 init Hcom))
      as Hinit.
    assert (H0 : 0 <= maxB1) by (unfold b1 in Hb; lia).
    destruct (committed_prefix_ok maxB1 init H0 Hcom) as (_ & Hmax).
    pose proof (covering_max_le_size (init ++ [x]) Hcov) as Hw.
    pose proof (cycles_lower (init ++ [x]) (proj2 Hwf)) as Hc1.
    pose proof (cycles_upper (init ++ [x])) as Hc2.
    exists (cycles (init ++ [x])).
    split; [exact (numberOfComponents_cycles (init ++ [x]) Hwf) |].
    unfold b1 in *. rewrite size_snoc, max_snoc in *. lia.
Qed.

(** X7: for a bound between [INT_MIN + 4] and [INT_MAX - 4], a run of
    [listBraids], for any number of iterations, never throws and has no
    undefined access or overflowing subtraction: no [at] is out of range,
    no [back], [pop_back] or iterator is used on an empty vector, and the
    two subtractions of [completable] stay within [int] on every word
    that the loop gives to it.  The only way not to get a result from the
    model is to run out of fuel; and when the loop ends, the variable
    [braid] is the one-letter word [b]. *)
Theorem listBraids_never_throws (fuel : nat) (maxB1 : Z) :
  safe_bound maxB1 ->
  (listBraids fuel maxB1 = Err OutOfFuel \/
   exists st, listBraids fuel maxB1 = Ok st /\ braid st = [2]) /\
  (forall st,
     reachable maxB1 st -> size (braid st) > 1 ->
     lastLetterTooHigh (braid st) maxB1 = Ok false ->
     exists n,
       numberOfComponents (braid st) = Ok n /\
       in_int (maxB1 - b1 (braid st)) /\
       in_int (n - (maxB1 - b1 (braid st)))).
Proof.
  intros Hsafe. split.
  - apply search_never_throws, reach_seed.
  - intros st. now apply tested_subtractions_in_int.
Qed.

Lemma listBraids_never_throws_witness :
  (listBraids 15 2 = Err OutOfFuel \/
   exists st, listBraids 15 2 = Ok st /\ braid st = [2]) /\
  (forall st,
     reachable 2 st -> size (braid st) > 1 ->
     lastLetterTooHigh (braid st) 2 = Ok false ->
     exists n,
       numberOfComponents (braid st) = Ok n /\
       in_int (2 - b1 (braid st)) /\
       in_int (n - (2 - b1 (braid st)))).
Proof.
  apply (listBraids_never_throws 15 2).
  unfold safe_bound, INT_MIN, INT_MAX. lia.
Defined.

(** X8: for a bound [maxB1 >= 0], the word of the search never has more
    than [2 maxB1 + 2] letters, and its letters stay between 1 and
    [maxB1 + 3]: the integers of a run are far from the limits of [int]. *)
Theorem search_words_are_small (n : nat) (maxB1 : Z) (st : state) :
  0 <= maxB1 -> iterate n maxB1 seed = Ok st ->
  size (braid st) <= 2 * maxB1 + 2 /\
  Forall (fun x => 1 <= x <= maxB1 + 3) (braid st).
Proof.
  intros H0 Hn. apply reachable_bounds; [exact H0 |].
  exact (iterate_reachable n (reach_seed maxB1) Hn).
Qed.

Lemma search_words_are_small_witness :
  size [1; 2; 1] <= 2 * 2 + 2 /\ Forall (fun x => 1 <= x <= 2 + 3) [1; 2; 1].
Proof.
  apply (search_words_are_small 5 2
           {| braid := [1; 2; 1]; counter := 1;
              cout := [OutBraid "aaa"; OutDT 3 1 [4; 6; 2]] |}).
  - lia.
  - vm_compute. reflexivity.
Defined.

(** ** The lexicographic order of the words of a run *)

Lemma lex_lt_app (u a b : list Z) :
  lexicographical_compare (u ++ a) (u ++ b) = lexicographical_compare a b.
Proof.
  induction u as [| x u IH]; [reflexivity |].
  cbn [app lexicographical_compare]. now rewrite Z.ltb_irrefl.
Qed.

Lemma lex_lt_irrefl (u : list Z) : lexicographical_compare u u = false.
Proof.
  induction u as [| x u IH]; [reflexivity |].
  cbn [lexicographical_compare]. now rewrite Z.ltb_irrefl.
Qed.

Lemma lex_lt_trans (a b c : list Z) :
  lex_lt a b -> lex_lt b c -> lex_lt a c.
Proof.
  unfold lex_lt. revert b c.
  induction a as [| x a IH]; intros [| y b] [| z c] H1 H2; try discriminate;
    try reflexivity.
  cbn [lexicographical_compare] in *.
  destruct (Z.ltb_spec x y), (Z.ltb_spec y x), (Z.ltb_spec y z),
    (Z.ltb_spec z y), (Z.ltb_spec x z), (Z.ltb_spec z x);
    try discriminate; try reflexivity; try lia.
  eapply IH; eassumption.
Qed.

Lemma step_lex_lt (maxB1 : Z) (st st1 : state) :
  step maxB1 st = Ok st1 -> lex_lt (braid st) (braid st1).
Proof.
  intros H. apply step_cases in H. unfold lex_lt.
  destruct H as (init & x & E & [(i0 & y & -> & E1 & _) | [(E1 & _) | [(E1 & _) | (_ & E1 & _)]]]);
    rewrite E, E1.
  - rewrite <- app_assoc, lex_lt_app. cbn [app lexicographical_compare].
    destruct (Z.ltb_spec y (y + 1)); [reflexivity | lia].
  - rewrite lex_lt_app. cbn [lexicographical_compare].
    destruct (Z.ltb_spec x (x + 1)); [reflexivity | lia].
  - rewrite lex_lt_app. cbn [lexicographical_compare].
    now rewrite Z.ltb_irrefl.
  - rewrite lex_lt_app. cbn [lexicographical_compare].
    destruct (Z.ltb_spec x (x + 1)); [reflexivity | lia].
Qed.

(** X9: each iteration of the loop of [listBraids] replaces the word by a
    lexicographically larger one, so that a run never comes back to a word:
    after one or more iterations the word is larger than it was, and
    different. *)
Theorem search_is_increasing (n : nat) (maxB1 : Z) (st st1 : state) :
  (1 <= n)%nat -> iterate n maxB1 st = Ok st1 ->
  lexicographical_compare (braid st) (braid st1) = true /\
  braid st <> braid st1.
Proof.
  intros Hn H.
  assert (Hlt : lex_lt (braid st) (braid st1)).
  { revert st H. induction n as [| n IH]; intros st H; [lia |].
    cbn [iterate] in H. destruct (size (braid st) >? 1); [| discriminate].
    inv_bind H. apply step_lex_lt in Hm.
    destruct n as [| n].
    - injection H as <-. exact Hm.
    - apply (lex_lt_trans _ (braid x)); [exact Hm |].
      apply IH; [lia | exact H]. }
  split; [exact Hlt |].
  intros E. unfold lex_lt in Hlt. rewrite E, lex_lt_irrefl in Hlt. discriminate.
Qed.

Lemma search_is_increasing_witness :
  lexicographical_compare [1; 1] [1; 2; 1] = true /\ [1; 1] <> [1; 2; 1].
Proof.
  apply (search_is_increasing 5 2 seed
           {| braid := [1; 2; 1]; counter := 1;
              cout := [OutBraid "aaa"; OutDT 3 1 [4; 6; 2]] |}).
  - lia.
  - vm_compute. reflexivity.
Defined.

(** ** What a run writes *)

Lemma lines_app (a b : list (list Z * list Z)) :
  forall k, lines k (a ++ b) = lines k a ++ lines (k + size a) b.
Proof.
  induction a as [| (w, dt) a IH]; intros k.
  - cbn [app lines]. f_equal. unfold size. cbn [length]. lia.
  - cbn [app lines]. rewrite IH.
    replace (k + size ((w, dt) :: a)) with (k + 1 + size a); [reflexivity |].
    unfold size. cbn [length]. lia.
Qed.

Lemma printDT_counter (w : list Z) (c c1 n : Z) (dt : list Z) :
  printDT w c = Ok (true, [OutDT n c dt]) ->
  printDT w c1 = Ok (true, [OutDT n c1 dt]).
Proof.
  unfold printDT. destruct (dt_traverse w) as [(st, passed) | err];
    [| discriminate].
  cbn [bind]. destruct (negb (passed =? max w - 1 + 2)); [discriminate |].
  intros [= <- <-]. reflexivity.
Qed.

Lemma StronglySorted_snoc {A : Type} (R : A -> A -> Prop) (l : list A) (y : A) :
  StronglySorted R l -> Forall (fun x => R x y) l -> StronglySorted R (l ++ [y]).
Proof.
  induction 1 as [| x l Hl IH Hx]; intros Hy.
  - repeat constructor.
  - inversion Hy as [| ? ? Hxy Hly]; subst. cbn [app]. constructor.
    + now apply IH.
    + apply Forall_app. split; [exact Hx | now constructor].
Qed.

(** The output of a run, with the words that were printed. *)
Lemma reachable_output (maxB1 : Z) (st : state) :
  reachable maxB1 st ->
  exists ws,
    cout st = lines 1 ws /\ size ws = counter st /\
    Forall (fun p =>
              emitted maxB1 (fst p) /\
              (forall c, printDT (fst p) c
                         = Ok (true, [OutDT (size (fst p)) c (snd p)])) /\
              lex_lt (fst p) (braid st)) ws /\
    StronglySorted lex_lt (map fst ws).
Proof.
  induction 1 as [| st st1 Hr IH Hsize Hstep].
  - exists []. repeat split; constructor.
  - destruct IH as (ws & Hout & Hcount & Hall & Hsorted).
    pose proof (step_lex_lt maxB1 st st1 Hstep) as Hlt.
    assert (Hall1 :
      Forall (fun p =>
                emitted maxB1 (fst p) /\
                (forall c, printDT (fst p) c
                           = Ok (true, [OutDT (size (fst p)) c (snd p)])) /\
                lex_lt (fst p) (braid st1)) ws).
    { rewrite Forall_forall in *. intros p Hp.
      destruct (Hall p Hp) as (He & Hdt & Hl).
      repeat split; try assumption.
      exact (lex_lt_trans _ _ _ Hl Hlt). }
    destruct (step_cases maxB1 st st1 Hstep)
      as (init & x & E &
          [(i0 & y & _ & _ & Hc & Ho) | [(_ & Hc & Ho) | [(_ & Hc & Ho)
           | (Hp & _ & Hc & ok & line & Hdt & Ho)]]]);
      try (exists ws; rewrite Hc, Ho; repeat split; assumption).
    pose proof (reachable_wellformed Hr) as Hwf.
    destruct (printDT_single_cycle (braid st) (counter st + 1) (proj2 Hwf)
                (choose_Print_cycles (braid st) maxB1 Hwf Hp))
      as (dt & Hdt1 & _).
    rewrite Hdt1 in Hdt. injection Hdt as <- <-.
    exists (ws ++ [(braid st, dt)]). split; [| split; [| split]].
    + rewrite Ho, lines_app, Hout, Hcount. cbn [lines app].
      now replace (1 + counter st) with (counter st + 1) by lia.
    + rewrite size_app, Hcount, Hc. reflexivity.
    + apply Forall_app. split; [exact Hall1 |].
      constructor; [| constructor]. cbn [fst snd]. split; [| split].
      * exists st. repeat split; assumption.
      * intros c. exact (printDT_counter _ _ c _ _ Hdt1).
      * exact Hlt.
    + rewrite map_app. cbn [map fst]. apply StronglySorted_snoc; [exact Hsorted |].
      rewrite Forall_forall in *. intros w Hw.
      apply in_map_iff in Hw. destruct Hw as (p & <- & Hp1).
      apply (Hall p Hp1).
Qed.



(** X11: for a bound [maxB1] at which the subtractions of [completable] do
    not overflow, the words that a run prints are printed in increasing
    lexicographic order: no word is printed twice. *)
Theorem printed_words_increase (n : nat) (maxB1 : Z) (st : state) :
  INT_MIN + 4 <= maxB1 -> iterate n maxB1 seed = Ok st ->
  exists ws,
    cout st = lines 1 ws /\
    StronglySorted lex_lt (map fst ws) /\ NoDup (map fst ws).
Proof.
  intros _ Hn.
  destruct (reachable_output maxB1 st (iterate_reachable n (reach_seed maxB1) Hn))
    as (ws & Hout & _ & _ & Hsorted).
  exists ws. split; [exact Hout | split; [exact Hsorted |]].
  induction Hsorted as [| w l _ IH Hw]; constructor; [| exact IH].
  intros Hin. rewrite Forall_forall in Hw. specialize (Hw w Hin).
  unfold lex_lt in Hw. rewrite lex_lt_irrefl in Hw. discriminate.
Qed.

Lemma printed_words_increase_witness :
  exists ws,
    [OutBraid "aaa"; OutDT 3 1 [4; 6; 2]] = lines 1 ws /\
    StronglySorted lex_lt (map fst ws) /\ NoDup (map fst ws).
Proof.
  apply (printed_words_increase 5 2
           {| braid := [1; 2; 1]; counter := 1;
              cout := [OutBraid "aaa"; OutDT 3 1 [4; 6; 2]] |}).
  - unfold INT_MIN. lia.
  - vm_compute. reflexivity.
Defined.

(** ** Letters that commute are in order *)

Lemma slow_descent_init (u : list Z) (x : Z) :
  slow_descent (u ++ [x]) -> slow_descent u.
Proof.
  induction u as [| z u IH]; [intros _; exact I |].
  destruct u as [| z1 u]; [intros _; exact I |].
  intros (H1 & H2). split; [exact H1 | exact (IH H2)].
Qed.

Lemma slow_descent_last (u : list Z) (x y : Z) :
  slow_descent (u ++ [x]) -> x <= y -> slow_descent (u ++ [y]).
Proof.
  intros H Hxy. induction u as [| z u IH]; [exact I |].
  destruct u as [| z1 u].
  - destruct H as (H1 & _). split; [lia | exact I].
  - destruct H as (H1 & H2). split; [exact H1 | exact (IH H2)].
Qed.

Lemma slow_descent_push (u : list Z) (x y : Z) :
  slow_descent (u ++ [x]) -> x - 1 <= y -> slow_descent (u ++ [x; y]).
Proof.
  intros H Hxy. induction u as [| z u IH]; [split; [exact Hxy | exact I] |].
  destruct u as [| z1 u].
  - destruct H as (H1 & _). split; [exact H1 | split; [exact Hxy | exact I]].
  - destruct H as (H1 & H2). split; [exact H1 | exact (IH H2)].
Qed.

Lemma reachable_slow_descent (maxB1 : Z) (st : state) :
  reachable maxB1 st -> slow_descent (braid st).
Proof.
  induction 1 as [| st st1 _ IH _ Hstep].
  - cbn. lia.
  - destruct (step_cases maxB1 st st1 Hstep)
      as (init & x & E &
          [(i0 & y & -> & -> & _) | [(-> & _) | [(-> & _) | (_ & -> & _)]]]);
      rewrite E in IH.
    + apply slow_descent_init in IH.
      apply (slow_descent_last i0 y); [exact IH | lia].
    + apply (slow_descent_last init x); [exact IH | lia].
    + apply slow_descent_push; [exact IH |].
      destruct (Z.eqb_spec x 1); lia.
    + apply (slow_descent_last init x); [exact IH | lia].
Qed.

(** X12: in the word of the search, and so in each printed word, no letter
    is followed by a letter smaller by 2 or more: two neighbouring letters
    that commute are in increasing order, as the header of the program
    says of the shuffling of commuting generators. *)
Theorem search_words_descend_slowly (n : nat) (maxB1 : Z) (st : state) :
  iterate n maxB1 seed = Ok st -> slow_descent (braid st).
Proof.
  intros Hn. apply (reachable_slow_descent maxB1).
  exact (iterate_reachable n (reach_seed maxB1) Hn).
Qed.

Lemma search_words_descend_slowly_witness : slow_descent [1; 2; 1].
Proof.
  apply (search_words_descend_slowly 5 2
           {| braid := [1; 2; 1]; counter := 1;
              cout := [OutBraid "aaa"; OutDT 3 1 [4; 6; 2]] |}).
  vm_compute. reflexivity.
Defined.

(** ** The length of a printed word *)

Lemma emitted_occurrences (maxB1 : Z) (w : list Z) (j : Z) :
  emitted maxB1 w -> 1 <= j <= max w -> 2 <= occurrences j w.
Proof.
  intros H Hj. apply emitted_facts in H.
  destruct H as ((_ & Hpos) & Hsize & _ & _ & Hm & _).
  destruct (Z.eq_dec (max w) 1) as [E1 | E1].
  - assert (j = 1) by lia. subst j.
    rewrite occurrences_all_ones; [lia |].
    unfold positive in Hpos. rewrite Forall_forall in *.
    intros y Hy. pose proof (max_ge w y Hy). specialize (Hpos y Hy). lia.
  - destruct (Z.eq_dec j (max w)) as [E | E].
    + assert (Ht : 4 <= twistRegions (j - 1) w)
        by (apply missing_zero_twistRegions; [exact Hm | lia]).
      apply twistRegions_occurrences in Ht; [| lia].
      replace (j - 1 + 1) with j in Ht by lia. tauto.
    + assert (Ht : 4 <= twistRegions j w)
        by (apply missing_zero_twistRegions; [exact Hm | lia]).
      apply twistRegions_occurrences in Ht; [| lia]. tauto.
Qed.

(** X13: for a bound [maxB1] at which the subtractions of [completable] do
    not overflow, a printed word has at least twice as many letters as
    generators: it has at most [maxB1 + 1] strands and at most [2 maxB1]
    letters, and nothing is printed for a bound below 2. *)
Theorem printed_word_length (maxB1 : Z) (w : list Z) :
  INT_MIN + 4 <= maxB1 -> emitted maxB1 w ->
  2 * max w <= size w /\ max w <= maxB1 /\ size w <= 2 * maxB1 /\ 2 <= maxB1.
Proof.
  intros _ H.
  assert (H2 : 2 * max w <= size w).
  { pose proof (occurrences_total w (zrange 1 (Z.to_nat (max w)))
                  (zrange_NoDup 1 _)) as Ht.
    pose proof (sum_map_le (fun _ => 2) (fun j => occurrences j w)
                  (zrange 1 (Z.to_nat (max w)))) as Hle.
    rewrite sum_map_const in Hle. unfold size at 1 in Hle.
    rewrite zrange_length in Hle. pose proof (max_ge_1 w).
    assert (2 * Z.of_nat (Z.to_nat (max w))
            <= sum (map (fun j => occurrences j w) (zrange 1 (Z.to_nat (max w))))).
    { apply Hle. intros j Hj. apply zrange_In in Hj.
      apply (emitted_occurrences maxB1); [exact H | lia]. }
    lia. }
  pose proof (emitted_facts H) as (Hwf & Hsize & _ & Hn & _ & _ & _ & Hb).
  unfold b1 in Hb. repeat split; try lia.
  destruct (Z_le_gt_dec 2 maxB1) as [Hge | Hlt]; [exact Hge | exfalso].
  pose proof (max_ge_1 w).
  assert (Hmax : max w = 1) by lia. assert (Hs : size w = 2) by lia.
  destruct Hwf as (_ & Hpos). apply positive_bounded in Hpos.
  destruct w as [| a [| b [| c w]]]; try (unfold size in Hs; cbn [length] in Hs; lia).
  inversion Hpos as [| ? ? Ha Hpos1]; subst.
  inversion Hpos1 as [| ? ? Hb1 _]; subst.
  assert (a = 1) by lia. assert (b = 1) by lia. subst a b.
  discriminate Hn.
Qed.

Lemma printed_word_length_witness :
  2 * max [1; 1; 1] <= size [1; 1; 1] /\ max [1; 1; 1] <= 2 /\
  size [1; 1; 1] <= 2 * 2 /\ 2 <= 2.
Proof.
  apply (printed_word_length 2 [1; 1; 1]).
  - unfold INT_MIN. lia.
  - apply (iterate_emitted 1 2 (st := {| braid := [1; 1; 1]; counter := 0; cout := [] |}));
      vm_compute; reflexivity.
Defined.

(** ** Bounds below 2 *)

Lemma low_bound_run (maxB1 : Z) :
  maxB1 <= 1 ->
  iterate 3 maxB1 seed = Ok {| braid := [2]; counter := 0; cout := [] |}.
Proof.
  intros Hlow.
  assert (H1 : choose [1; 1] maxB1 = Ok Increase).
  { unfold choose. change (lastLetterTooHigh [1; 1] maxB1) with (@Ok bool false).
    cbn [bind]. unfold completable.
    change (numberOfComponents [1; 1]) with (@Ok Z 2).
    change (missingCrossingsForPrimality [1; 1]) with (@Ok Z 0).
    change (lexicoGood [1; 1]) with (@Ok bool true).
    change (reidemeister [1; 1]) with (@Ok bool true).
    change (b1 [1; 1]) with 1. cbn [bind].
    destruct (Z.leb_spec (2 - (maxB1 - 1)) 1) as [H | _]; [lia |].
    destruct (0 <=? maxB1 - 1); reflexivity. }
  assert (H2 : choose [1; 2] maxB1 = Ok Increase).
  { unfold choose. change (lastLetterTooHigh [1; 2] maxB1) with (@Ok bool false).
    cbn [bind]. unfold completable.
    change (numberOfComponents [1; 2]) with (@Ok Z 1).
    change (missingCrossingsForPrimality [1; 2]) with (@Ok Z 2).
    change (lexicoGood [1; 2]) with (@Ok bool true).
    change (reidemeister [1; 2]) with (@Ok bool true).
    change (b1 [1; 2]) with 0. cbn [bind].
    destruct (Z.leb_spec 2 (maxB1 - 0)) as [H | _]; [lia |].
    destruct (1 - (maxB1 - 0) <=? 1); reflexivity. }
  assert (H3 : choose [1; 3] maxB1 = Ok PopBack) by reflexivity.
  rewrite (iterate_S 2 maxB1 seed {| braid := [1; 2]; counter := 0; cout := [] |});
    [| reflexivity | unfold step, seed; cbn [braid]; rewrite H1; reflexivity].
  rewrite (iterate_S 1 maxB1 _ {| braid := [1; 3]; counter := 0; cout := [] |});
    [| reflexivity | unfold step; cbn [braid]; rewrite H2; reflexivity].
  rewrite (iterate_S 0 maxB1 _ {| braid := [2]; counter := 0; cout := [] |});
    [| reflexivity | unfold step; cbn [braid]; rewrite H3; reflexivity].
  reflexivity.
Qed.

(** X15: for a bound [maxB1 <= 1] that is at least [INT_MIN + 4], and so
    for a genus that is 0 or negative and above [INT_MIN / 2 + 1],
    [listBraids] ends after three iterations of its loop, on the words
    [aa], [ab] and [ac], and prints nothing.  Below [INT_MIN + 4] the
    subtractions of [completable] on the word [aa] overflow. *)
Theorem low_bound_prints_nothing (fuel : nat) (maxB1 : Z) :
  INT_MIN + 4 <= maxB1 <= 1 -> (4 <= fuel)%nat ->
  iterate 3 maxB1 seed = Ok {| braid := [2]; counter := 0; cout := [] |} /\
  listBraids fuel maxB1 = Ok {| braid := [2]; counter := 0; cout := [] |}.
Proof.
  intros (_ & Hlow) Hfuel. pose proof (low_bound_run maxB1 Hlow) as H.
  split; [exact H |].
  apply (@search_more_fuel 4 fuel maxB1 seed); [| exact Hfuel].
  apply iterate_search; [exact H | cbn; lia].
Qed.

Lemma low_bound_prints_nothing_witness :
  iterate 3 (-4) seed = Ok {| braid := [2]; counter := 0; cout := [] |} /\
  listBraids 4 (-4) = Ok {| braid := [2]; counter := 0; cout := [] |}.
Proof.
  apply (low_bound_prints_nothing 4 (-4)); unfold INT_MIN; lia.
Defined.

(** ** The program *)

Lemma listBraids_ends (maxB1 : Z) :
  exists fuel st,
    forall fuel1, (fuel <= fuel1)%nat -> listBraids fuel1 maxB1 = Ok st.
Proof.
  destruct (Z_le_gt_dec maxB1 1) as [Hlow | Hhigh].
  - exists 4%nat, {| braid := [2]; counter := 0; cout := [] |}.
    intros fuel1 Hf.
    apply (@search_more_fuel 4 fuel1 maxB1 seed); [| exact Hf].
    apply iterate_search; [exact (low_bound_run maxB1 Hlow) | cbn; lia].
  - assert (Hok : prefix_ok maxB1 [1]).
    { split; [discriminate | split; [repeat constructor; lia | split]].
      - intros x Hx. change (max [1]) with 1 in Hx. left. lia.
      - change (size [1]) with 1. lia. }
    destruct (explore maxB1 (Z.to_nat (2 * maxB1 + 1)) [1] Hok
                ltac:(change (size [1]) with 1; lia) 3 1 seed eq_refl ltac:(lia)
                ltac:(change (max [1]) with 1; lia))
      as (n & st & Hn & Hb).
    exists (S n), st. intros fuel1 Hf. cbn in Hb.
    apply (@search_more_fuel (S n) fuel1 maxB1 seed); [| exact Hf].
    apply iterate_search; [exact Hn | rewrite Hb; cbn; lia].
Qed.

(** X16: the program ends and returns 0 on every command line whose
    argument, when there is exactly one, is read by [atoi] as a genus [g]
    with [2 g] between [INT_MIN + 4] and [INT_MAX - 4]: there the number
    read is an [int], the product [2 * g] does not overflow, and neither
    do the subtractions of [completable].  With one argument the program
    reports the genus [g], calls [listBraids(2 g)] once, and its output is
    the one of that call; with another number of arguments it calls
    nothing and prints only the usage message.  More fuel does not change
    the result. *)
Theorem main_always_returns_zero (argv : list string) :
  (length argv = 2%nat -> safe_bound (2 * atoi (nth 1 argv EmptyString))) ->
  exists fuel p,
    (forall fuel1, (fuel <= fuel1)%nat -> main fuel1 argv = Ok p) /\
    exit_code p = 0 /\
    (length argv = 2%nat ->
     calls p = [2 * atoi (nth 1 argv EmptyString)] /\
     cerr p = ("Working on genus "
               ++ string_of_Z (atoi (nth 1 argv EmptyString)) ++ "." ++ newline)%string /\
     exists st,
       listBraids fuel (2 * atoi (nth 1 argv EmptyString)) = Ok st /\
       stdout p = cout st) /\
    (length argv <> 2%nat -> calls p = [] /\ stdout p = [] /\ cerr p = usage).
Proof.
  intros _. unfold main. destruct (Z.eqb_spec (size argv) 2) as [E | E].
  - destruct (listBraids_ends (2 * atoi (nth 1 argv EmptyString)))
      as (fuel & st & Hst).
    exists fuel. eexists. split; [| split; [| split]].
    + intros fuel1 Hf. rewrite (Hst fuel1 Hf). cbn [bind]. reflexivity.
    + reflexivity.
    + intros _. split; [reflexivity | split; [reflexivity |]].
      exists st. split; [apply Hst; lia | reflexivity].
    + intros Hne. unfold size in E. lia.
  - exists 0%nat. eexists. split; [| split; [| split]].
    + intros fuel1 _. reflexivity.
    + reflexivity.
    + intros Hlen. unfold size in E. lia.
    + intros _. repeat split.
Qed.

Lemma main_always_returns_zero_witness :
  exists fuel p,
    (forall fuel1, (fuel <= fuel1)%nat -> main fuel1 ["lb"; "1"]%string = Ok p) /\
    exit_code p = 0 /\
    (length ["lb"; "1"]%string = 2%nat ->
     calls p = [2 * atoi (nth 1 ["lb"; "1"]%string EmptyString)] /\
     cerr p = ("Working on genus "
               ++ string_of_Z (atoi (nth 1 ["lb"; "1"]%string EmptyString))
               ++ "." ++ newline)%string /\
     exists st,
       listBraids fuel (2 * atoi (nth 1 ["lb"; "1"]%string EmptyString)) = Ok st /\
       stdout p = cout st) /\
    (length ["lb"; "1"]%string <> 2%nat ->
     calls p = [] /\ stdout p = [] /\ cerr p = usage).
Proof.
  apply (main_always_returns_zero ["lb"; "1"]%string).
  intros _. vm_compute. split; discriminate.
Defined.

(** ** The letters of a printed word *)

Lemma letter_injective (x y : Z) :
  1 <= x <= 159 -> 1 <= y <= 159 -> letter x = letter y -> x = y.
Proof.
  intros Hx Hy H. unfold letter in H.
  apply (f_equal N_of_ascii) in H.
  rewrite !N_ascii_embedding in H.
  - rewrite !Z.mod_small in H by lia. lia.
  - rewrite Z.mod_small by lia. lia.
  - rewrite Z.mod_small by lia. lia.
Qed.

(** X17: [printBraid] writes one character for each letter, and two words of
    letters between 1 and 159 that are written alike are equal: up to there
    [(char)(x + 96)] does not wrap around. *)
Theorem printBraid_is_faithful (u v : list Z) :
  Forall (fun x => 1 <= x <= 159) u -> Forall (fun x => 1 <= x <= 159) v ->
  String.length (printBraid u) = length u /\
  (printBraid u = printBraid v -> u = v).
Proof.
  intros Hu Hv. split.
  - clear. induction u as [| x u IH]; [reflexivity |].
    cbn [printBraid fold_right String.length length]. f_equal. exact IH.
  - revert v Hv. induction Hu as [| x u Hx _ IH]; intros v Hv H.
    + destruct v; [reflexivity | discriminate].
    + destruct Hv as [| y v Hy Hv]; [discriminate |].
      cbn [printBraid fold_right] in H. injection H as H1 H2.
      f_equal; [now apply letter_injective | now apply IH].
Qed.

Lemma printBraid_is_faithful_witness :
  String.length (printBraid [1; 2; 1]) = length [1; 2; 1] /\
  (printBraid [1; 2; 1] = printBraid [1; 2; 1] -> [1; 2; 1] = [1; 2; 1]).
Proof.
  apply (printBraid_is_faithful [1; 2; 1] [1; 2; 1]);
    repeat constructor; lia.
Defined.

(** ** The search is exhaustive *)

Lemma lowest_child_snoc (init : list Z) (x : Z) :
  lowest_child (init ++ [x]) = if x =? 1 then 1 else x - 1.
Proof.
  unfold lowest_child. now rewrite last_last.
Qed.

Lemma lowest_child_lower (init : list Z) :
  init <> [] -> positive init -> 1 <= lowest_child init.
Proof.
  intros Hne Hpos. destruct (snoc_view init) as [-> | (i0 & y & ->)];
    [contradiction |].
  rewrite lowest_child_snoc. apply Forall_app in Hpos. destruct Hpos as (_ & Hy).
  inversion Hy; subst. destruct (Z.eqb_spec y 1); lia.
Qed.

Lemma explored_committed (maxB1 : Z) (init : list Z) :
  explored maxB1 init -> committed maxB1 init.
Proof.
  induction 1 as [| init x _ IH Hx Hc Hb]; [constructor |].
  destruct (committed_wellformed maxB1 init IH) as (Hne & Hpos).
  pose proof (lowest_child_lower init Hne Hpos).
  constructor; try assumption. lia.
Qed.

(** From the word [init ++ [x]], with a last letter that is not too high,
    the search comes to the word [init ++ [x + 1]]. *)
Lemma advance (maxB1 : Z) (init : list Z) (x : Z) (st : state) :
  prefix_ok maxB1 init -> braid st = init ++ [x] -> 1 <= x <= 1 + max init ->
  exists n st1, iterate n maxB1 st = Ok st1 /\ braid st1 = init ++ [x + 1].
Proof.
  intros Hok E Hx. pose proof Hok as (Hne & Hpos & Hcov & Hsize).
  assert (Hs : size (braid st) > 1).
  { rewrite E, size_snoc. pose proof (size_positive init Hne). lia. }
  destruct (step_snoc maxB1 st init x E Hne Hpos (proj1 Hx))
    as (st1 & Hst & [(Hhigh & _) | [(_ & Hb) | (_ & Hc & Hb1 & y & Hy & Hb)]]).
  - lia.
  - exists 1%nat, st1. split; [| exact Hb].
    now rewrite (iterate_S 0 maxB1 st st1).
  - destruct (prefix_ok_snoc maxB1 init x Hok Hx Hc Hb1) as (Hok1 & Hs1).
    rewrite size_snoc in Hs1.
    destruct (explore maxB1 (Z.to_nat (2 * maxB1 + 1)) (init ++ [x]) Hok1
                ltac:(rewrite size_snoc; pose proof (size_positive init Hne); lia)
                (Z.to_nat (2 + max (init ++ [x]) - y)) y st1 Hb (proj1 Hy)
                ltac:(lia))
      as (n & st2 & Hn & Hb2).
    rewrite removelast_last, last_last in Hb2.
    exists (S n), st2. split; [| exact Hb2].
    now rewrite (iterate_S n maxB1 st st1).
Qed.

Lemma advance_to (maxB1 : Z) (init : list Z) (d : nat) :
  prefix_ok maxB1 init ->
  forall (x : Z) (st : state),
    braid st = init ++ [x] -> 1 <= x -> x + Z.of_nat d <= 2 + max init ->
    exists n st1,
      iterate n maxB1 st = Ok st1 /\ braid st1 = init ++ [x + Z.of_nat d].
Proof.
  intros Hok. induction d as [| d IH]; intros x st E Hx Hd.
  - exists 0%nat, st. split; [reflexivity |].
    now replace (x + Z.of_nat 0) with x by lia.
  - destruct (advance maxB1 init x st Hok E ltac:(lia)) as (n1 & st1 & Hn1 & E1).
    destruct (IH (x + 1) st1 E1 ltac:(lia) ltac:(lia)) as (n2 & st2 & Hn2 & E2).
    exists (n1 + n2)%nat, st2. split.
    + exact (iterate_add n1 n2 maxB1 st st1 st2 Hn1 Hn2).
    + rewrite E2. do 2 f_equal. lia.
Qed.

(** Each word of the tree is the word of an iteration. *)
Lemma explored_reached (maxB1 : Z) (init : list Z) :
  0 <= maxB1 -> explored maxB1 init ->
  forall x, lowest_child init <= x <= 2 + max init ->
    exists n st, iterate n maxB1 seed = Ok st /\ braid st = init ++ [x].
Proof.
  intros H0. induction 1 as [| init x0 Hex IH Hx0 Hc Hb]; intros x Hx.
  - assert (Hok : prefix_ok maxB1 [1])
      by exact (proj1 (committed_prefix_ok maxB1 [1] H0 (committed_seed maxB1))).
    change (lowest_child [1]) with 1 in Hx.
    destruct (advance_to maxB1 [1] (Z.to_nat (x - 1)) Hok 1 seed eq_refl
                ltac:(lia) ltac:(lia)) as (n & st & Hn & E).
    exists n, st. split; [exact Hn |]. rewrite E. do 2 f_equal. lia.
  - destruct (IH x0 ltac:(lia)) as (n0 & st0 & Hn0 & E0).
    pose proof (explored_committed maxB1 init Hex) as Hcom.
    destruct (committed_wellformed maxB1 init Hcom) as (Hne & Hpos).
    pose proof (lowest_child_lower init Hne Hpos) as Hlow.
    assert (Hok : prefix_ok maxB1 (init ++ [x0])).
    { apply (committed_prefix_ok maxB1 (init ++ [x0]) H0).
      constructor; try assumption. lia. }
    assert (Hch : choose (braid st0) maxB1 = Ok Append).
    { rewrite E0. apply choose_Append. split; [| split; assumption].
      rewrite lastLetterTooHigh_snoc by assumption.
      destruct (Z.gtb_spec x0 (1 + max init)); [lia | reflexivity]. }
    assert (Hst : step maxB1 st0 =
                  Ok {| braid := (init ++ [x0]) ++ [lowest_child (init ++ [x0])];
                        counter := counter st0; cout := cout st0 |}).
    { unfold step. rewrite Hch. cbn [bind]. rewrite E0, appendLetter_snoc.
      cbn [bind]. now rewrite lowest_child_snoc. }
    assert (Hs : size (braid st0) > 1).
    { rewrite E0, size_snoc. pose proof (size_positive init Hne). lia. }
    pose proof (lowest_child_lower (init ++ [x0]) ltac:(now destruct init)
                  ltac:(apply Forall_app; split;
                        [exact Hpos | constructor; [lia | constructor]]))
      as Hlow1.
    destruct (advance_to maxB1 (init ++ [x0])
                (Z.to_nat (x - lowest_child (init ++ [x0]))) Hok
                (lowest_child (init ++ [x0]))
                {| braid := (init ++ [x0]) ++ [lowest_child (init ++ [x0])];
                   counter := counter st0; cout := cout st0 |}
                eq_refl Hlow1 ltac:(lia))
      as (n & st & Hn & E).
    exists (n0 + S n)%nat, st. split.
    + apply (iterate_add n0 (S n) maxB1 seed st0 st Hn0).
      now rewrite (iterate_S n maxB1 st0 _ Hs Hst).
    + rewrite E. do 2 f_equal. lia.
Qed.

(** Each word of an iteration is in the tree. *)
Lemma reachable_explored (maxB1 : Z) (st : state) :
  reachable maxB1 st ->
  braid st = [2] \/
  exists init x,
    braid st = init ++ [x] /\ explored maxB1 init /\
    lowest_child init <= x <= 2 + max init.
Proof.
  induction 1 as [| st st1 _ IH Hsize Hstep].
  - right. exists [1], 1. split; [reflexivity | split; [constructor |]].
    change (lowest_child [1]) with 1. change (max [1]) with 1. lia.
  - destruct IH as [E | (init & x & E & Hex & Hx)].
    { rewrite E in Hsize. discriminate. }
    pose proof (explored_committed maxB1 init Hex) as Hcom.
    destruct (committed_wellformed maxB1 init Hcom) as (Hne & Hpos).
    pose proof (lowest_child_lower init Hne Hpos) as Hlow.
    destruct (step_snoc maxB1 st init x E Hne Hpos ltac:(lia))
      as (st2 & Hst & [(_ & Hb) | [(Hle & Hb) | (Hle & Hc & Hb1 & y & Hy & Hb)]]);
      rewrite Hstep in Hst; injection Hst as <-.
    + destruct Hex as [| i0 y Hex Hy _ _].
      * left. exact Hb.
      * right. rewrite removelast_last, last_last in Hb.
        exists i0, (y + 1). split; [exact Hb | split; [exact Hex | lia]].
    + right. exists init, (x + 1). split; [exact Hb | split; [exact Hex | lia]].
    + right. exists (init ++ [x]), y. split; [exact Hb | split].
      * constructor; try assumption. lia.
      * destruct (step_cases maxB1 st st1 Hstep)
          as (i1 & x1 & E1 & [(i0 & z & Ei & Hb2 & _) | [(Hb2 & _) | [(Hb2 & _) | (_ & Hb2 & _)]]]);
          rewrite E in E1; apply app_inj_tail in E1; destruct E1 as (<- & <-);
          rewrite Hb in Hb2.
        -- exfalso. apply (f_equal (@length Z)) in Hb2, Ei.
           repeat rewrite length_app in Hb2. rewrite length_app in Ei.
           cbn [length] in Hb2, Ei. lia.
        -- exfalso. apply (f_equal (@length Z)) in Hb2.
           repeat rewrite length_app in Hb2. cbn [length] in Hb2. lia.
        -- change (init ++ [x; if x =? 1 then 1 else x - 1])
             with (init ++ [x] ++ [if x =? 1 then 1 else x - 1]) in Hb2.
           rewrite app_assoc in Hb2. apply app_inj_tail in Hb2.
           destruct Hb2 as (_ & ->). rewrite lowest_child_snoc, max_snoc.
           destruct (Z.eqb_spec x 1); lia.
        -- exfalso. apply (f_equal (@length Z)) in Hb2.
           repeat rewrite length_app in Hb2. cbn [length] in Hb2. lia.
Qed.

(** X18: for a bound [maxB1 >= 0] the search is exhaustive, and the words
    that [listBraids] prints are known exactly.  A word is printed if and
    only if it is a word of the tree of the search that passes the four
    tests and is long enough: its letters before the last are, one after
    the other, between the letter of [appendLetter] and the largest letter
    so far plus 1, with the four tests passed and [b1 < maxB1] at each of
    them; its last letter is in the same range, with the four tests passed
    and [b1 >= maxB1]. *)
Theorem printed_words_are_the_leaves (maxB1 : Z) (w : list Z) :
  0 <= maxB1 ->
  (emitted maxB1 w <->
   exists init x,
     w = init ++ [x] /\ explored maxB1 init /\
     lowest_child init <= x <= 1 + max init /\
     completable w maxB1 = Ok 15 /\ maxB1 <= b1 w).
Proof.
  intros H0. split.
  - intros (st & Hr & <- & Hsize & Hp).
    destruct (reachable_explored maxB1 st Hr) as [E | (init & x & E & Hex & Hx)].
    { rewrite E in Hsize. discriminate. }
    exists init, x. split; [exact E | split; [exact Hex |]].
    apply choose_Print in Hp. destruct Hp as (Hh & Hc & Hb).
    split; [| split; assumption].
    pose proof (explored_committed maxB1 init Hex) as Hcom.
    destruct (committed_wellformed maxB1 init Hcom) as (Hne & Hpos).
    rewrite E, lastLetterTooHigh_snoc in Hh by assumption.
    destruct (Z.gtb_spec x (1 + max init)); [discriminate | lia].
  - intros (init & x & -> & Hex & Hx & Hc & Hb).
    destruct (explored_reached maxB1 init H0 Hex x ltac:(lia)) as (n & st & Hn & E).
    pose proof (explored_committed maxB1 init Hex) as Hcom.
    destruct (committed_wellformed maxB1 init Hcom) as (Hne & Hpos).
    rewrite <- E. apply (iterate_emitted n maxB1 Hn).
    + rewrite E, size_snoc. pose proof (size_positive init Hne). lia.
    + rewrite E. apply choose_Print. split; [| split; assumption].
      rewrite lastLetterTooHigh_snoc by assumption.
      destruct (Z.gtb_spec x (1 + max init)); [lia | reflexivity].
Qed.

Lemma printed_words_are_the_leaves_witness :
  emitted 2 [1; 1; 1] <->
  exists init x,
    [1; 1; 1] = init ++ [x] /\ explored 2 init /\
    lowest_child init <= x <= 1 + max init /\
    completable [1; 1; 1] 2 = Ok 15 /\ 2 <= b1 [1; 1; 1].
Proof.
  apply (printed_words_are_the_leaves 2 [1; 1; 1]). lia.
Defined.

(** ** When [printDT] prints a code *)

Lemma first_return_NoDup (b : list Z) (p : Z) (T : nat) :
  (forall t, (1 <= t < T)%nat -> turns b t p <> p) -> NoDup (track b p T).
Proof.
  intros Hfirst. unfold track.
  destruct (turns_repeat_or_NoDup b p T) as [(i & j & Hij & E) | H]; [| exact H].
  exfalso. replace j with (i + (j - i))%nat in E by lia.
  rewrite turns_add in E. apply turns_injective in E.
  apply (Hfirst (j - i)%nat); [lia | now symmetry].
Qed.

Lemma full_orbit_single_cycle (w : list Z) :
  positive w -> NoDup (track w 1 (Z.to_nat (max w + 1))) -> cycles w = 1.
Proof.
  intros Hb Hnd. pose proof (max_ge_1 w) as Hmax.
  assert (Hall : forall q, 1 <= q <= max w + 1 -> same_cycle w 1 q).
  { intros q Hq. apply (same_cycle_track w 1 q Hb ltac:(lia)).
    apply (NoDup_length_incl Hnd (l' := zrange 1 (Z.to_nat (max w + 1)))).
    - unfold track. rewrite zrange_length, length_map, length_seq. lia.
    - intros z Hz. unfold track in Hz. apply in_map_iff in Hz.
      destruct Hz as (k & <- & _). apply zrange_In.
      pose proof (@turns_range w k 1 Hb ltac:(lia)). lia.
    - apply zrange_In. lia. }
  unfold cycles.
  replace (Z.to_nat (max w + 1)) with (S (Z.to_nat (max w))) by lia.
  rewrite zrange_cons. cbn [filter]. rewrite (orbit_minimal_1 w Hb).
  rewrite filter_none; [reflexivity |].
  intros q Hq. apply zrange_In in Hq.
  destruct (orbit_minimal w q) eqn:E; [exfalso | reflexivity].
  pose proof (proj1 (orbit_minimal_spec w q Hb ltac:(lia)) E) as E1. clear E.
  rename E1 into E.
  specialize (E 1 (same_cycle_sym w 1 q Hb ltac:(lia) (Hall q ltac:(lia)))).
  lia.
Qed.

(** X19: on a non-empty word of positive letters, [printDT] returns
    [true], and prints a code, exactly when [numberOfComponents] returns 1:
    for a link of several components the traversal comes back to its
    start too early, and [printDT] returns [false] and prints nothing. *)
Theorem printDT_succeeds_on_knots_only (w : list Z) (counter : Z) :
  wellformed w ->
  exists ok line,
    printDT w counter = Ok (ok, line) /\
    (ok = true <-> numberOfComponents w = Ok 1) /\
    (ok = false -> line = []) /\
    (ok = true ->
     exists dt, line = [OutDT (size w) counter dt] /\ length dt = length w).
Proof.
  intros Hwf. pose proof Hwf as (Hne & Hb).
  rewrite (numberOfComponents_cycles w Hwf).
  destruct (dt_traverse_positive w Hb)
    as (T & st & HT & Hret & Hfirst & Htr & Hinv).
  pose proof (dti_length Hinv) as Hlen.
  pose proof (Permutation_length (sort_Permutation (dt_n st))) as Hsort.
  unfold printDT. rewrite Htr. cbn [bind].
  destruct (Z.eqb_spec (Z.of_nat T) (max w - 1 + 2)) as [E | E]; cbn [negb].
  - eexists. eexists. split; [reflexivity |].
    split; [| split; [discriminate |]].
    + split; [intros _ | reflexivity]. f_equal.
      apply (full_orbit_single_cycle w Hb).
      replace (Z.to_nat (max w + 1)) with T by lia.
      now apply first_return_NoDup.
    + intros _. exists (map dt_entry (sort (dt_n st))).
      unfold size. rewrite length_map, Hsort, Hlen. now split.
  - eexists. eexists. split; [reflexivity |].
    split; [| split; [reflexivity | discriminate]].
    split; [discriminate |]. intros [= Hc]. exfalso.
    destruct (dt_traverse_invariant w Hb Hc) as (st1 & Htr1 & _).
    rewrite Htr in Htr1. injection Htr1 as _ E1. lia.
Qed.

Lemma printDT_succeeds_on_knots_only_witness :
  exists ok line,
    printDT [1; 1] 1 = Ok (ok, line) /\
    (ok = true <-> numberOfComponents [1; 1] = Ok 1) /\
    (ok = false -> line = []) /\
    (ok = true ->
     exists dt, line = [OutDT (size [1; 1]) 1 dt] /\ length dt = length [1; 1]).
Proof.
  apply (printDT_succeeds_on_knots_only [1; 1] 1).
  split; [discriminate | repeat constructor; lia].
Defined.

(** ** The signs of a DT code *)

Lemma dt_visit_sign (w : list Z) (j : nat) (st st1 : dt_state) :
  (j < length w)%nat -> sign_invariant w st ->
  dt_visit (Z.of_nat j) (nth j w 0) st = Ok st1 -> sign_invariant w st1.
Proof.
  intros Hj (Hlen & Hcc & Hpar & Hs) H. unfold dt_visit in H.
  set (x := nth j w 0) in *. set (c := dt_c st) in *.
  set (cc := dt_crossingCounter st) in *. set (n := dt_n st) in *.
  destruct ((x =? c) || (x =? c + 1)) eqn:Hv.
  2:{ injection H as <-. repeat split; assumption. }
  assert (Hjn : (j < length n)%nat) by lia.
  rewrite at_get_nth in H by exact Hjn. cbn [bind] in H.
  rewrite at_set_update in H by exact Hjn. cbn [bind] in H.
  rewrite at_get_nth in H by (rewrite length_update; exact Hjn). cbn [bind] in H.
  rewrite nth_update, Nat.eqb_refl in H by exact Hjn.
  rewrite at_set_update in H by (rewrite length_update; exact Hjn).
  cbn [bind] in H. injection H as <-.
  unfold sign_invariant. cbn [dt_n dt_c dt_crossingCounter].
  split; [now rewrite !length_update |]. split; [lia |]. split.
  - rewrite even_succ_flip, Hpar.
    destruct (Z.eqb_spec x (c + 1)).
    + symmetry. apply even_succ_flip.
    + replace (c - 1 + 1) with (c + 1 - 1) by lia. symmetry. apply even_pred_flip.
  - intros k Hk. rewrite nth_update by (rewrite length_update; exact Hjn).
    destruct (Nat.eqb_spec k j) as [-> | Hne].
    + right. cbn [s set_s]. rewrite rem2_even by lia. rewrite Hpar. fold x.
      apply orb_true_iff in Hv.
      destruct (Z.eqb_spec x (c + 1)) as [E | E]; cbn [negb].
      * rewrite E, <- Z.negb_even. now destruct (Z.even (c + 1)).
      * destruct Hv as [Hv | Hv]; [apply Z.eqb_eq in Hv | discriminate].
        rewrite Hv, even_succ_flip, <- Z.negb_even.
        now destruct (Z.even c).
    + rewrite nth_update by exact Hjn.
      destruct (Nat.eqb_spec k j); [contradiction |]. apply Hs, Hk.
Qed.

Lemma dt_pass_sign (w v : list Z) :
  forall (j : nat) (st st1 : dt_state),
    skipn j w = v -> sign_invariant w st ->
    dt_pass (Z.of_nat j) v st = Ok st1 -> sign_invariant w st1.
Proof.
  induction v as [| x v IH]; intros j st st1 Hv Hinv H.
  - injection H as <-. exact Hinv.
  - apply skipn_cons_nth in Hv. destruct Hv as (Hlt & <- & Hv).
    cbn [dt_pass] in H. inv_bind H.
    apply (IH (S j) x st1 Hv).
    + exact (dt_visit_sign w j st x Hlt Hinv Hm).
    + now replace (Z.of_nat (S j)) with (Z.of_nat j + 1) by lia.
Qed.

Lemma dt_loop_sign (w : list Z) (fuel : nat) :
  forall (st st1 : dt_state) (passed passed1 : Z),
    sign_invariant w st ->
    dt_loop fuel w st passed = Ok (st1, passed1) -> sign_invariant w st1.
Proof.
  induction fuel as [| fuel IH]; intros st st1 passed passed1 Hinv H;
    [discriminate |].
  cbn [dt_loop] in H. inv_bind H.
  pose proof (dt_pass_sign w w 0 st x eq_refl Hinv Hm) as Hinv1.
  destruct (dt_c x =? 0).
  - injection H as <- _. exact Hinv1.
  - exact (IH x st1 _ _ Hinv1 H).
Qed.

(** The signs at the end of the traversal, whatever the word. *)
Lemma dt_traverse_sign (w : list Z) (st : dt_state) (passed : Z) :
  dt_traverse w = Ok (st, passed) -> sign_invariant w st.
Proof.
  apply dt_loop_sign. unfold sign_invariant. cbn [dt_n dt_c dt_crossingCounter].
  split; [apply repeat_length |]. split; [lia |]. split; [reflexivity |].
  intros k _. left. apply nth_repeat.
Qed.

(** ** The order of a DT code *)

Lemma sorted_Z_unique (l1 l2 : list Z) :
  NoDup l1 -> Permutation l1 l2 ->
  StronglySorted Z.le l1 -> StronglySorted Z.le l2 -> l1 = l2.
Proof.
  revert l2. induction l1 as [| p t1 IH]; intros l2 Hnd Hperm H1 H2.
  - apply Permutation_nil in Hperm. now subst.
  - destruct l2 as [| q t2].
    { apply Permutation_sym, Permutation_nil in Hperm. discriminate. }
    inversion H1 as [| ? ? Hs1 Hf1]; subst.
    inversion H2 as [| ? ? Hs2 Hf2]; subst.
    inversion Hnd as [| ? ? Hnin Hnd1]; subst.
    rewrite Forall_forall in Hf1, Hf2.
    assert (Hq : In q (p :: t1)).
    { apply (Permutation_in _ (Permutation_sym Hperm)). now left. }
    assert (Hp : In p (q :: t2)).
    { apply (Permutation_in _ Hperm). now left. }
    assert (E : p = q).
    { destruct Hq as [E | Hq]; [exact E |].
      destruct Hp as [E | Hp]; [now symmetry |].
      specialize (Hf1 q Hq). specialize (Hf2 p Hp). lia. }
    subst q. f_equal. apply IH; try assumption.
    now apply Permutation_cons_inv with p.
Qed.

Lemma zrange_sorted (f : Z -> Z) (n : nat) :
  (forall a b, a <= b -> f a <= f b) ->
  forall lo, StronglySorted Z.le (map f (zrange lo n)).
Proof.
  intros Hf. induction n as [| n IH]; intros lo; [constructor |].
  rewrite zrange_cons. cbn [map]. constructor; [apply IH |].
  apply Forall_map, Forall_forall. intros z Hz. apply zrange_In in Hz.
  apply Hf. lia.
Qed.

Lemma sorted_odd_labels (l : list intpair) :
  StronglySorted le_odd l -> StronglySorted Z.le (map o l).
Proof.
  induction 1 as [| p l _ IH Hp]; [constructor |].
  cbn [map]. constructor; [exact IH |]. apply Forall_map. exact Hp.
Qed.

(** The odd labels of the sorted table. *)
Lemma sorted_table_odd_labels (w : list Z) (st : dt_state) :
  positive w -> cycles w = 1 ->
  dt_invariant w (Z.to_nat (max w + 1)) 0 st ->
  map o (sort (dt_n st)) = map (fun k => 2 * k - 1) (zrange 1 (length w)).
Proof.
  intros Hb Hc Hinv.
  destruct (final_labels w st false Hb Hc Hinv) as (Hall & Hnd).
  cbn [slot] in Hall, Hnd.
  change (map (fun p => o p) (dt_n st)) with (map o (dt_n st)) in Hnd.
  pose proof (dti_length Hinv) as Hlen.
  pose proof (sort_Permutation (dt_n st)) as Hsort.
  apply sorted_Z_unique.
  - apply (Permutation_NoDup (Permutation_map o (Permutation_sym Hsort)) Hnd).
  - rewrite (Permutation_map o Hsort). apply NoDup_Permutation_bis.
    + exact Hnd.
    + rewrite !length_map, zrange_length. lia.
    + intros x Hx. apply in_map_iff in Hx. destruct Hx as (p & <- & Hp).
      rewrite Forall_forall in Hall. destruct (Hall p Hp) as (He & Hr).
      assert (Ho : Z.odd (o p) = true) by (rewrite <- Z.negb_even, He; reflexivity).
      apply Z.odd_spec in Ho. destruct Ho as (k & Ek).
      apply in_map_iff. exists (k + 1). split; [lia |].
      apply zrange_In. unfold size in Hr. lia.
  - apply sorted_odd_labels, sort_sorted.
  - apply zrange_sorted. intros a b Hab. lia.
Qed.

(** X21: the entries of the DT code of a knot are in the order of the odd
    labels: [std::sort] puts at the index [k] the crossing of the odd
    label [2 k + 1], so that the printed entry of index [k] is the even
    label met at the same crossing as the label [2 k + 1]. *)
Theorem dt_code_follows_odd_labels (w : list Z) (counter : Z) :
  wellformed w -> numberOfComponents w = Ok 1 ->
  exists tbl,
    printDT w counter = Ok (true, [OutDT (size w) counter (map dt_entry tbl)]) /\
    (exists st, dt_traverse w = Ok (st, max w + 1) /\ tbl = sort (dt_n st)) /\
    map o tbl = map (fun k => 2 * k - 1) (zrange 1 (length w)).
Proof.
  intros Hwf Hn. pose proof Hwf as (Hne & Hb).
  rewrite (numberOfComponents_cycles w Hwf) in Hn. injection Hn as Hc.
  destruct (dt_traverse_invariant w Hb Hc) as (st & Htr & Hinv).
  pose proof (dti_length Hinv) as Hlen.
  pose proof (sort_Permutation (dt_n st)) as Hsort.
  exists (sort (dt_n st)). split; [| split].
  - unfold printDT. rewrite Htr. cbn [bind].
    destruct (Z.eqb_spec (max w + 1) (max w - 1 + 2)) as [_ | Hne1]; [| lia].
    cbn [negb]. unfold size.
    now rewrite length_map, (Permutation_length Hsort), Hlen.
  - exists st. split; [exact Htr | reflexivity].
  - exact (sorted_table_odd_labels w st Hb Hc Hinv).
Qed.

Lemma dt_code_follows_odd_labels_witness :
  exists tbl,
    printDT [1; 1; 1] 1 = Ok (true, [OutDT (size [1; 1; 1]) 1 (map dt_entry tbl)]) /\
    (exists st, dt_traverse [1; 1; 1] = Ok (st, max [1; 1; 1] + 1) /\
                tbl = sort (dt_n st)) /\
    map o tbl = map (fun k => 2 * k - 1) (zrange 1 (length [1; 1; 1])).
Proof.
  apply (dt_code_follows_odd_labels [1; 1; 1] 1).
  - split; [discriminate | repeat constructor; lia].
  - reflexivity.
Defined.

(** ** The signs of the entries *)

(** X20: in the DT code that [printDT] prints for a knot, the entry that
    goes with a crossing is the even label of the crossing with the sign
    of its generator, positive for an odd generator and negative for an
    even one.  For the letter of index [k] of the word, with the labels
    [o] (odd) and [e] (even) that the traversal gave to its crossing, the
    printed entry of index [(o - 1) / 2], the one of the odd label [o], is
    [e] when the letter is odd and [- e] when it is even. *)
Theorem dt_signs_follow_generators (w : list Z) (counter : Z) :
  wellformed w -> numberOfComponents w = Ok 1 ->
  exists st dt,
    dt_traverse w = Ok (st, max w + 1) /\
    printDT w counter = Ok (true, [OutDT (size w) counter dt]) /\
    length dt = length w /\
    forall k, (k < length w)%nat ->
      let p := nth k (dt_n st) intpair0 in
      Z.odd (o p) = true /\ 1 <= o p <= 2 * size w /\
      Z.even (e p) = true /\ 1 <= e p <= 2 * size w /\
      s p = Z.odd (nth k w 0) /\
      nth (Z.to_nat ((o p - 1) / 2)) dt 0 =
      (if Z.odd (nth k w 0) then e p else - e p).
Proof.
  intros Hwf Hn. pose proof Hwf as (Hne & Hb).
  rewrite (numberOfComponents_cycles w Hwf) in Hn. injection Hn as Hc.
  destruct (dt_traverse_invariant w Hb Hc) as (st & Htr & Hinv).
  destruct (final_labels w st true Hb Hc Hinv) as (Halle & _).
  destruct (final_labels w st false Hb Hc Hinv) as (Hallo & _).
  cbn [slot] in Halle, Hallo. rewrite Forall_forall in Halle, Hallo.
  destruct (dt_traverse_sign w st _ Htr) as (Hlen & _ & _ & Hs).
  pose proof (sort_Permutation (dt_n st)) as Hsort.
  pose proof (sorted_table_odd_labels w st Hb Hc Hinv) as Hodd.
  assert (Hlens : length (sort (dt_n st)) = length w)
    by now rewrite (Permutation_length Hsort).
  exists st, (map dt_entry (sort (dt_n st))).
  split; [exact Htr |]. split; [| split; [now rewrite length_map |]].
  - unfold printDT. rewrite Htr. cbn [bind].
    destruct (Z.eqb_spec (max w + 1) (max w - 1 + 2)) as [_ | Hne1]; [| lia].
    cbn [negb]. unfold size. now rewrite length_map, Hlens.
  - intros k Hk p.
    assert (Hin : In p (dt_n st)) by (apply nth_In; lia).
    destruct (Halle p Hin) as (Hee & Her).
    destruct (Hallo p Hin) as (Heo & Hor).
    assert (Hsp : s p = Z.odd (nth k w 0)).
    { destruct (Hs k Hk) as [E | E]; [exfalso | exact E].
      fold p in E. rewrite E in Her. cbn in Her. lia. }
    assert (Hodd_p : Z.odd (o p) = true)
      by (rewrite <- Z.negb_even, Heo; reflexivity).
    repeat (split; [assumption |]).
    apply (Permutation_in _ (Permutation_sym Hsort)) in Hin.
    destruct (In_nth _ _ intpair0 Hin) as (j & Hj & Ej).
    rewrite Hlens in Hj.
    assert (Hoj : o p = 2 * (1 + Z.of_nat j) - 1).
    { apply (f_equal (fun l => nth j l 0)) in Hodd.
      change (nth j (map o (sort (dt_n st))) 0)
        with (nth j (map o (sort (dt_n st))) (o intpair0)) in Hodd.
      rewrite map_nth, Ej in Hodd. rewrite Hodd.
      rewrite (nth_indep _ 0 ((fun k0 => 2 * k0 - 1) 0))
        by (rewrite length_map, zrange_length; exact Hj).
      rewrite (map_nth (fun k0 => 2 * k0 - 1)), zrange_nth by exact Hj.
      reflexivity. }
    replace (Z.to_nat ((o p - 1) / 2)) with j.
    2:{ rewrite Hoj. replace (2 * (1 + Z.of_nat j) - 1 - 1) with (Z.of_nat j * 2) by lia.
        rewrite Z.div_mul by lia. lia. }
    change 0 with (dt_entry intpair0) at 1.
    rewrite map_nth, Ej. unfold dt_entry. rewrite Hsp.
    destruct (Z.odd (nth k w 0)); lia.
Qed.

Lemma dt_signs_follow_generators_witness :
  exists st dt,
    dt_traverse [1; 2; 1; 2] = Ok (st, max [1; 2; 1; 2] + 1) /\
    printDT [1; 2; 1; 2] 1 = Ok (true, [OutDT (size [1; 2; 1; 2]) 1 dt]) /\
    length dt = length [1; 2; 1; 2] /\
    forall k, (k < length [1; 2; 1; 2])%nat ->
      let p := nth k (dt_n st) intpair0 in
      Z.odd (o p) = true /\ 1 <= o p <= 2 * size [1; 2; 1; 2] /\
      Z.even (e p) = true /\ 1 <= e p <= 2 * size [1; 2; 1; 2] /\
      s p = Z.odd (nth k [1; 2; 1; 2] 0) /\
      nth (Z.to_nat ((o p - 1) / 2)) dt 0 =
      (if Z.odd (nth k [1; 2; 1; 2] 0) then e p else - e p).
Proof.
  apply (dt_signs_follow_generators [1; 2; 1; 2] 1).
  - split; [discriminate | repeat constructor; lia].
  - reflexivity.
Defined.

(** ** Words without a missing crossing *)

(** X22: [missingCrossingsForPrimality] returns 0 exactly on the words in
    which every pair of neighbouring columns has 4 twist regions or
    more. *)
Theorem no_missing_crossing_iff (b : list Z) :
  missingCrossingsForPrimality b = Ok 0 <->
  forall i, 1 <= i <= max b - 1 -> 4 <= twistRegions i b.
Proof.
  split.
  - intros H i Hi. now apply missing_zero_twistRegions.
  - intros H. rewrite missingCrossingsForPrimality_vector. f_equal.
    unfold missing_vector. rewrite (sum_map_same (fun _ => 0)).
    + rewrite sum_map_const. lia.
    + intros j Hj. apply zrange_In in Hj. unfold missing_entry.
      destruct (Z.leb_spec 1 j), (Z.leb_spec j (max b - 1)),
        (Z.ltb_spec (twistRegions j b) 4), (Z.leb_spec (j + 1) (max b - 1)),
        (Z.eqb_spec (twistRegions (j + 1) b) 2);
        cbn [andb orb]; try reflexivity;
        try (specialize (H j ltac:(lia)); lia);
        try (specialize (H (j + 1) ltac:(lia)); lia).
Qed.

(** ** The number of components *)

(** X23: on a non-empty word of positive letters [numberOfComponents] does
    not throw, and it returns a number between 1 and the number of
    strands. *)
Theorem components_between_1_and_strands (b : list Z) :
  wellformed b ->
  exists n, numberOfComponents b = Ok n /\ 1 <= n <= max b + 1.
Proof.
  intros Hwf. exists (cycles b).
  split; [exact (numberOfComponents_cycles b Hwf) |].
  split; [exact (cycles_lower b (proj2 Hwf)) |].
  unfold cycles, size. pose proof (max_ge_1 b).
  pose proof (filter_length_le (orbit_minimal b) (zrange 1 (Z.to_nat (max b + 1)))) as H1.
  rewrite zrange_length in H1. lia.
Qed.

Lemma components_between_1_and_strands_witness :
  exists n, numberOfComponents [1; 2; 2] = Ok n /\ 1 <= n <= max [1; 2; 2] + 1.
Proof.
  apply (components_between_1_and_strands [1; 2; 2]).
  split; [discriminate | repeat constructor; lia].
Defined.

(** ** The words that [reidemeister] rejects *)

Lemma filter_skip_far (s0 : Z) (l : list Z) :
  filter (near s0) l =
  match skip_far s0 l with
  | [] => []
  | y :: r1 => y :: filter (near s0) r1
  end.
Proof.
  induction l as [| x l IH]; [reflexivity |].
  cbn [filter skip_far]. unfold near at 1.
  destruct ((x <? s0 - 1) || (x >? s0 + 1)); [exact IH | reflexivity].
Qed.

Lemma skip_far_head (s0 x : Z) (l r1 : list Z) :
  skip_far s0 l = x :: r1 -> s0 - 1 <= x <= s0 + 1.
Proof.
  induction l as [| y l IH]; [discriminate |].
  cbn [skip_far].
  destruct (Z.ltb_spec y (s0 - 1)), (Z.gtb_spec y (s0 + 1)); cbn [orb];
    try exact IH.
  intros [= <- _]. lia.
Qed.

Lemma reidemeister_near (init : list Z) (s0 : Z) :
  reidemeister (init ++ [s0]) =
  Ok match filter (near s0) (rev init) with
     | y1 :: y2 :: _ => negb ((y1 =? s0 - 1) && (y2 =? s0))
     | _ => true
     end.
Proof.
  unfold reidemeister. rewrite rev_unit.
  rewrite (filter_skip_far s0 (rev init)).
  destruct (skip_far s0 (rev init)) as [| x r1] eqn:E1; [reflexivity |].
  apply skip_far_head in E1.
  rewrite (filter_skip_far s0 r1).
  destruct (skip_far s0 r1) as [| y r2] eqn:E2.
  - destruct ((x =? s0) || (x =? s0 + 1)); reflexivity.
  - apply skip_far_head in E2. f_equal.
    destruct (Z.eqb_spec x s0), (Z.eqb_spec x (s0 + 1)), (Z.eqb_spec x (s0 - 1)),
      (Z.eqb_spec y s0), (Z.eqb_spec y (s0 - 1)), (Z.eqb_spec y (s0 + 1));
      cbn [orb andb negb]; try reflexivity; try lia.
Qed.

(** X24: [reidemeister] rejects a word exactly when its letters that do
    not commute with the last letter [s], taken without that last letter,
    end with [s], [s - 1]: the word then ends, up to letters that commute
    with [s], with [s (s - 1) s], which a move of Reidemeister of type III
    makes smaller.  On every other word that is not empty it returns
    [true]: it always returns a result. *)
Theorem reidemeister_rejects_exactly (init : list Z) (s0 : Z) :
  (exists r, reidemeister (init ++ [s0]) = Ok r) /\
  (reidemeister (init ++ [s0]) = Ok false <->
   exists u, filter (near s0) init = u ++ [s0; s0 - 1]).
Proof.
  split; [rewrite reidemeister_near; eexists; reflexivity |].
  rewrite reidemeister_near, filter_rev.
  split.
  - intros H. destruct (rev (filter (near s0) init)) as [| y1 [| y2 r]] eqn:E;
      try discriminate.
    injection H as H. apply negb_false_iff, andb_true_iff in H.
    destruct H as (H1 & H2). apply Z.eqb_eq in H1, H2. subst y1 y2.
    exists (rev r). apply (f_equal (@rev Z)) in E.
    rewrite rev_involutive in E. rewrite E. cbn [rev].
    now rewrite <- app_assoc.
  - intros (u & ->). rewrite rev_app_distr. cbn [rev app].
    now rewrite !Z.eqb_refl.
Qed.

(** ** The first word of the list *)

Lemma max_ones (k : nat) : max (repeat 1 k) = 1.
Proof.
  induction k as [| k IH]; [reflexivity |].
  cbn [repeat]. rewrite max_cons, IH. lia.
Qed.

Lemma ones_snoc (k : nat) : repeat 1 (S k) = repeat 1 k ++ [1].
Proof.
  induction k as [| k IH]; [reflexivity |].
  cbn [repeat app] in *. now rewrite <- IH.
Qed.

Lemma positive_ones (k : nat) : positive (repeat 1 k).
Proof.
  induction k as [| k IH]; constructor; [lia | exact IH].
Qed.

Lemma walk_ones (k : nat) :
  walk (repeat 1 k) 1 = (if Nat.even k then 1 else 2) /\
  walk (repeat 1 k) 2 = (if Nat.even k then 2 else 1).
Proof.
  induction k as [| k (IH1 & IH2)]; [split; reflexivity |].
  rewrite ones_snoc, !walk_app, IH1, IH2, Nat.even_succ, <- Nat.negb_even.
  destruct (Nat.even k); split; reflexivity.
Qed.

Lemma components_ones (k : nat) :
  (1 <= k)%nat ->
  numberOfComponents (repeat 1 k) = Ok (if Nat.even k then 2 else 1).
Proof.
  intros Hk.
  rewrite numberOfComponents_cycles
    by (split; [destruct k; [lia | discriminate] | apply positive_ones]).
  f_equal. unfold cycles. rewrite max_ones.
  change (zrange 1 (Z.to_nat (1 + 1))) with [1; 2]. cbn [filter].
  rewrite (orbit_minimal_1 _ (positive_ones k)).
  unfold orbit_minimal. rewrite max_ones.
  change (seq 0 (Z.to_nat (1 + 1))) with [0%nat; 1%nat]. cbn [forallb].
  change (turns (repeat 1 k) 0 2) with 2.
  change (turns (repeat 1 k) 1 2) with (walk (repeat 1 k) 2).
  rewrite (proj2 (walk_ones k)).
  destruct (Nat.even k); reflexivity.
Qed.

Lemma skipn_ones (n : nat) :
  forall i, skipn i (repeat 1 n) = repeat 1 (n - i).
Proof.
  induction n as [| n IH]; intros [| i]; try reflexivity. cbn. apply IH.
Qed.

Lemma firstn_ones (n : nat) :
  forall i, (i <= n)%nat -> firstn i (repeat 1 n) = repeat 1 i.
Proof.
  induction n as [| n IH]; intros [| i] Hi; try reflexivity; [lia |].
  cbn. f_equal. apply IH. lia.
Qed.

Lemma lexicoGood_ones (k : nat) :
  (1 <= k)%nat -> lexicoGood (repeat 1 k) = Ok true.
Proof.
  intros Hk. rewrite lexicoGood_nonempty by (destruct k; [lia | discriminate]).
  f_equal. apply forallb_forall. intros i Hi. apply in_seq in Hi.
  rewrite repeat_length in *.
  rewrite skipn_ones, firstn_ones by lia. now rewrite lex_lt_irrefl.
Qed.

Lemma reidemeister_ones (k : nat) :
  (2 <= k)%nat -> reidemeister (repeat 1 k) = Ok true.
Proof.
  intros Hk. unfold reidemeister. rewrite rev_repeat.
  destruct k as [| [| k]]; try lia. reflexivity.
Qed.

Lemma missing_ones (k : nat) : missingCrossingsForPrimality (repeat 1 k) = Ok 0.
Proof.
  unfold missingCrossingsForPrimality. rewrite max_ones. reflexivity.
Qed.

Lemma b1_ones (k : nat) : b1 (repeat 1 k) = Z.of_nat k - 1.
Proof.
  unfold b1, size. rewrite max_ones, repeat_length. lia.
Qed.

Lemma completable_ones (k : nat) (g : Z) :
  (2 <= k)%nat -> Z.of_nat k <= 2 * g + 1 ->
  completable (repeat 1 k) (2 * g) = Ok 15.
Proof.
  intros Hk Hg. apply completable_15.
  exists (if Nat.even k then 2 else 1), 0.
  rewrite components_ones, missing_ones, lexicoGood_ones, reidemeister_ones,
    b1_ones by lia.
  repeat split; [| lia].
  destruct (Nat.even k) eqn:E; [| lia].
  apply Nat.even_spec in E. destruct E as (j & ->). lia.
Qed.

Lemma lastLetterTooHigh_ones (k : nat) (maxB1 : Z) :
  lastLetterTooHigh (repeat 1 k) maxB1 = Ok false.
Proof.
  destruct k as [| [| k]]; try reflexivity.
  rewrite ones_snoc.
  rewrite lastLetterTooHigh_snoc by (apply positive_ones || discriminate).
  rewrite max_ones. reflexivity.
Qed.

Lemma iterate_ones (g : Z) (n : nat) :
  Z.of_nat n + 2 <= 2 * g + 1 ->
  iterate n (2 * g) seed =
  Ok {| braid := repeat 1 (n + 2); counter := 0; cout := [] |}.
Proof.
  induction n as [| n IH]; intros Hn; [reflexivity |].
  replace (S n) with (n + 1)%nat by lia.
  apply (iterate_add n 1 (2 * g) seed _ _ (IH ltac:(lia))).
  rewrite (iterate_S 0 (2 * g) _
             {| braid := repeat 1 (n + 1 + 2); counter := 0; cout := [] |});
    [reflexivity | |].
  - cbn [braid]. unfold size. rewrite repeat_length. lia.
  - unfold step. cbn [braid counter cout].
    assert (Hc : choose (repeat 1 (n + 2)) (2 * g) = Ok Append).
    { apply choose_Append. split; [apply lastLetterTooHigh_ones |].
      split; [apply completable_ones; lia | rewrite b1_ones; lia]. }
    rewrite Hc. cbn [bind].
    replace (n + 2)%nat with (S (n + 1)) at 1 by lia.
    rewrite ones_snoc, appendLetter_snoc. cbn [bind].
    change (if 1 =? 1 then 1 else 1 - 1) with 1.
    rewrite <- !ones_snoc. do 3 f_equal. lia.
Qed.

(** X25: for each genus [g >= 1], the first word that [listBraids(2 g)]
    prints is [a ... a] with [2 g + 1] letters, the braid of the torus
    knot of type [(2, 2 g + 1)]: the search comes to it by [2 g - 1]
    iterations that append a letter, with nothing printed before.  So the
    list is never empty. *)
Theorem first_printed_word (g : Z) :
  1 <= g ->
  exists st,
    iterate (Z.to_nat (2 * g - 1)) (2 * g) seed = Ok st /\
    braid st = repeat 1 (Z.to_nat (2 * g + 1)) /\
    cout st = [] /\
    emitted (2 * g) (braid st).
Proof.
  intros Hg.
  pose proof (iterate_ones g (Z.to_nat (2 * g - 1)) ltac:(lia)) as H.
  replace (Z.to_nat (2 * g - 1) + 2)%nat with (Z.to_nat (2 * g + 1)) in H by lia.
  eexists. split; [exact H |]. cbn [braid cout].
  split; [reflexivity | split; [reflexivity |]].
  apply (iterate_emitted _ (2 * g) H); cbn [braid].
  - unfold size. rewrite repeat_length. lia.
  - apply choose_Print. split; [apply lastLetterTooHigh_ones |].
    split; [apply completable_ones; lia | rewrite b1_ones; lia].
Qed.

Lemma first_printed_word_witness :
  exists st,
    iterate (Z.to_nat (2 * 2 - 1)) (2 * 2) seed = Ok st /\
    braid st = repeat 1 (Z.to_nat (2 * 2 + 1)) /\
    cout st = [] /\
    emitted (2 * 2) (braid st).
Proof.
  apply (first_printed_word 2). lia.
Defined.

(** ** The tests along a printed word *)

Lemma explored_prefixes (maxB1 : Z) (init : list Z) :
  explored maxB1 init ->
  init <> [] /\ nth 0 init 0 = 1 /\
  forall k, (2 <= k <= length init)%nat ->
    completable (firstn k init) maxB1 = Ok 15 /\ b1 (firstn k init) < maxB1.
Proof.
  induction 1 as [| init x _ (Hne & Hhd & IH) Hx Hc Hb].
  - split; [discriminate | split; [reflexivity |]].
    intros k Hk. cbn [length] in Hk. lia.
  - split; [now destruct init |]. split.
    + destruct init; [contradiction | exact Hhd].
    + intros k Hk. rewrite length_app in Hk. cbn [length] in Hk.
      destruct (Nat.eq_dec k (length init + 1)) as [-> | Hlt].
      * rewrite firstn_all2 by (rewrite length_app; cbn [length]; lia).
        now split.
      * rewrite firstn_app.
        replace (k - length init)%nat with 0%nat by lia.
        cbn [firstn]. rewrite app_nil_r. apply IH. lia.
Qed.

(** X26: a printed word starts with the letter [a], and the search came
    to it through words that passed the four tests: each of its prefixes
    of two letters or more has [completable = 15], and the proper ones
    have [b1 < maxB1]. *)
Theorem printed_prefixes_pass_tests (maxB1 : Z) (w : list Z) :
  emitted maxB1 w ->
  nth 0 w 0 = 1 /\
  forall k, (2 <= k <= length w)%nat ->
    completable (firstn k w) maxB1 = Ok 15 /\
    ((k < length w)%nat -> b1 (firstn k w) < maxB1).
Proof.
  intros (st & Hr & <- & Hsize & Hp).
  destruct (reachable_explored maxB1 st Hr) as [E | (init & x & E & Hex & Hx)].
  { rewrite E in Hsize. discriminate. }
  apply choose_Print in Hp. destruct Hp as (_ & Hc & _).
  destruct (explored_prefixes maxB1 init Hex) as (Hne & Hhd & Hall).
  rewrite E in *. split.
  - destruct init; [contradiction | exact Hhd].
  - intros k Hk. rewrite length_app in *. cbn [length] in *.
    destruct (Nat.eq_dec k (length init + 1)) as [-> | Hlt].
    + rewrite firstn_all2 by (rewrite length_app; cbn [length]; lia).
      split; [exact Hc | lia].
    + rewrite firstn_app.
      replace (k - length init)%nat with 0%nat by lia.
      cbn [firstn]. rewrite app_nil_r.
      destruct (Hall k ltac:(lia)) as (H1 & H2). split; [exact H1 | now intros _].
Qed.

Lemma printed_prefixes_pass_tests_witness :
  nth 0 [1; 1; 1] 0 = 1 /\
  forall k, (2 <= k <= length [1; 1; 1])%nat ->
    completable (firstn k [1; 1; 1]) 2 = Ok 15 /\
    ((k < length [1; 1; 1])%nat -> b1 (firstn k [1; 1; 1]) < 2).
Proof.
  apply (printed_prefixes_pass_tests 2 [1; 1; 1]).
  apply (iterate_emitted 1 2 (st := {| braid := [1; 1; 1]; counter := 0; cout := [] |}));
    vm_compute; reflexivity.
Defined.

(** X27: a printed word passes the test of primality of the program: each
    pair of neighbouring columns of crossings has at least 4 twist
    regions. *)
Theorem printed_word_twist_regions (maxB1 : Z) (w : list Z) (i : Z) :
  emitted maxB1 w -> 1 <= i <= max w - 1 -> 4 <= twistRegions i w.
Proof.
  intros H Hi. apply emitted_facts in H.
  destruct H as (_ & _ & _ & _ & Hm & _).
  now apply missing_zero_twistRegions.
Qed.

Lemma printed_word_twist_regions_witness :
  4 <= twistRegions 1 [1; 1; 1; 2; 1; 1; 1; 2].
Proof.
  apply (printed_word_twist_regions 6 [1; 1; 1; 2; 1; 1; 1; 2] 1).
  - assert (H : exists st, iterate 58 6 seed = Ok st /\
                           braid st = [1; 1; 1; 2; 1; 1; 1; 2]).
    { eexists. split; [vm_compute; reflexivity | reflexivity]. }
    destruct H as (st & Hn & E). rewrite <- E.
    apply (iterate_emitted 58 6 Hn); rewrite E; reflexivity.
  - vm_compute. split; discriminate.
Defined.

(** ** The output of a complete run *)












(** ** The letter that is too high *)

(** X30: in a run, [lastLetterTooHigh] returns a result on each word of the
    loop, and it is [false] exactly when each generator up to the largest
    letter occurs in the word: the last letter is too high when it leaves
    a generator out, whatever the bound [maxB1]. *)
Theorem lastLetterTooHigh_in_a_run (maxB1 : Z) (st : state) :
  reachable maxB1 st -> size (braid st) > 1 ->
  exists high,
    lastLetterTooHigh (braid st) maxB1 = Ok high /\
    (high = false <-> covering (braid st)).
Proof.
  intros Hr Hsize.
  destruct (reachable_committed maxB1 st Hr) as [E | (init & x & E & Hcom & Hx)].
  { rewrite E in Hsize. discriminate. }
  destruct (committed_wellformed maxB1 init Hcom) as (Hne & Hpos).
  exists (x >? 1 + max init). split.
  - rewrite E. now apply lastLetterTooHigh_snoc.
  - split.
    + intros Hh. apply (tested_word_covering maxB1 st Hr Hsize).
      rewrite E, lastLetterTooHigh_snoc by assumption. now rewrite Hh.
    + intros Hcov. destruct (Z.gtb_spec x (1 + max init)) as [Hhigh | _];
        [exfalso | reflexivity].
      rewrite E in Hcov. specialize (Hcov (x - 1)).
      rewrite max_snoc in Hcov. pose proof (max_ge_1 init).
      apply in_app_or in Hcov; [| lia].
      destruct Hcov as [Hin | [Heq | []]]; [| lia].
      apply max_ge in Hin. lia.
Qed.

Lemma lastLetterTooHigh_in_a_run_witness :
  exists high,
    lastLetterTooHigh [1; 3] 0 = Ok high /\
    (high = false <-> covering [1; 3]).
Proof.
  apply (lastLetterTooHigh_in_a_run 0 {| braid := [1; 3]; counter := 0; cout := [] |}).
  - apply (iterate_reachable 2 (reach_seed 0)). vm_compute. reflexivity.
  - reflexivity.
Defined.
